(** * Multi-objective multi-fidelity test suite: a shallow embedding

    The Python sources [base.py], [wang_error_functions.py],
    [RE_problems.py], [DTLZ_problems.py] and [MOMF_problems.py] are
    embedded as Rocq functions.

    - A numpy [float64] is a primitive binary64 float ([PrimFloat.float]);
      [+], [-], [*], [/], [sqrt] and [abs] are the IEEE operations.
    - What numpy delegates to the platform ([cos], [sin], [exp], [power],
      the association order of [sum] and [prod], the random generator) is
      an interface, [Host], every definition is parametric in.
    - A raised exception is a value of [exn]; a computation that may raise
      returns [res A]; one that also draws random numbers is in [M A].
    - A two-dimensional array is its column count and its list of rows
      (the column count is kept apart so that an empty batch still has a
      shape, as in numpy). *)

From Stdlib Require Import ZArith String Ascii Bool Lia.
From Stdlib Require Import Floats DecimalString List.
Import ListNotations.

Set Warnings "-inexact-float".
#[local] Open Scope Z_scope.

(** ** Python values, dictionaries and exceptions *)

Module Py.

(** Keys of the dictionaries of the sources: strings and integers. *)
Inductive key : Type :=
| KStr (s : string)
| KInt (z : Z).

(** The exceptions the embedded code can raise. *)
Inductive exn : Type :=
| KeyError (k : key)
| IndexError (index : Z) (axis : nat) (size : nat)
| ValueError (shape_l shape_r : list nat)
| TypeError (fn : string) (missing : string)
| OverflowError
| ZeroDivisionError.

Definition res (A : Type) : Type := (exn + A)%type.

Definition ok {A} (a : A) : res A := inr a.
Definition raise {A} (e : exn) : res A := inl e.

Definition rbind {A B} (c : res A) (k : A -> res B) : res B :=
  match c with
  | inl e => inl e
  | inr a => k a
  end.

(** [str(n)] for a Python integer. *)
Definition str_of_Z (z : Z) : string := NilZero.string_of_int (Z.to_int z).
Definition str_of_nat (n : nat) : string := str_of_Z (Z.of_nat n).

(** [repr(k)] of a dictionary key. *)
Definition repr (k : key) : string :=
  match k with
  | KStr s => ("'" ++ s ++ "'")%string
  | KInt z => str_of_Z z
  end.

(** A shape as numpy prints it between the parentheses: [4,] and [2,5]. *)
Definition str_of_shape (dims : list nat) : string :=
  match dims with
  | [d] => (str_of_nat d ++ ",")%string
  | _ => String.concat "," (map str_of_nat dims)
  end.

(** [str(e)]: the message a caller of the failing evaluation reads. *)
Definition str (e : exn) : string :=
  match e with
  | KeyError k => repr k
  | IndexError i ax sz =>
      ("index " ++ str_of_Z i ++ " is out of bounds for axis "
         ++ str_of_nat ax ++ " with size " ++ str_of_nat sz)%string
  | ValueError l r =>
      ("operands could not be broadcast together with shapes ("
         ++ str_of_shape l ++ ") (" ++ str_of_shape r ++ ") ")%string
  | TypeError fn arg =>
      (fn ++ "() missing 1 required positional argument: '" ++ arg ++ "'")%string
  | OverflowError => "int too large to convert to float"
  | ZeroDivisionError => "float division by zero"
  end.

(** [needle in haystack] on strings. *)
Fixpoint contains (needle haystack : string) : bool :=
  if String.prefix needle haystack then true
  else match haystack with
       | EmptyString => false
       | String _ rest => contains needle rest
       end.

(** A dictionary literal: its items in source order; keys are unique in
    every literal of the sources, so a lookup returns the first match. *)
Fixpoint lookup_str {V} (k : string) (d : list (string * V)) : option V :=
  match d with
  | [] => None
  | (k', v) :: d' => if String.eqb k k' then Some v else lookup_str k d'
  end.

Fixpoint lookup_int {V} (k : Z) (d : list (Z * V)) : option V :=
  match d with
  | [] => None
  | (k', v) :: d' => if Z.eqb k k' then Some v else lookup_int k d'
  end.

(** [d[k]]: the value, or [KeyError(k)]. *)
Definition getitem_str {V} (d : list (string * V)) (k : string) : res V :=
  match lookup_str k d with
  | Some v => ok v
  | None => raise (KeyError (KStr k))
  end.

Definition getitem_int {V} (d : list (Z * V)) (k : Z) : res V :=
  match lookup_int k d with
  | Some v => ok v
  | None => raise (KeyError (KInt k))
  end.

(** The binary64 nearest to the integer [z] (ties to even). *)
Definition float_of_Z (z : Z) : float :=
  SF2Prim (binary_normalize prec emax z 0 false).

(** An array dimension in float arithmetic. *)
Definition float_of_nat (n : nat) : float := float_of_Z (Z.of_nat n).

(** A Python [int] operand of float arithmetic: converted as above,
    [OverflowError] when it is beyond the binary64 range. *)
Definition float_of_int (z : Z) : res float :=
  let f := float_of_Z z in
  if is_infinity f then raise OverflowError else ok f.

(** [a / d] on Python floats, the divisor an [int]. *)
Definition py_div_int (a : float) (d : Z) : res float :=
  if d =? 0 then raise ZeroDivisionError
  else rbind (float_of_int d) (fun df => ok (a / df)%float).

End Py.

Export Py.

Declare Scope res_scope.
Delimit Scope res_scope with res.
Notation "x <- c ;; k" := (rbind c (fun x => k))
  (at level 61, c at next level, right associativity) : res_scope.

(** ** The host interface: what numpy takes from the platform *)

Class Host : Type := {
  np_cos : float -> float;
  np_sin : float -> float;
  np_exp : float -> float;
  np_power : float -> float -> float;
(** reductions of one row, [np.sum] and [np.prod] along [axis=1] *)
np_sum : list float -> float;
np_prod : list float -> float;
(** the global generator behind [np.random.rand] *)
rng : Type;
rand1 : rng -> float * rng
}.

(** [np.pi] *)
Definition np_pi : float := 0x1.921fb54442d18p+1%float.

(** ** numpy arrays *)

Module np.

(** A 2-D [float64] array of shape [(length rows, shape1)]. *)
Record ndarray : Type := mk_ndarray {
  shape1 : nat;
  rows : list (list float)
}.

Definition shape0 (x : ndarray) : nat := length (rows x).

(** Every row has [shape1] entries: what numpy guarantees of an array. *)
Definition well_shaped (x : ndarray) : Prop :=
  Forall (fun r => length r = shape1 x) (rows x).

Definition well_shapedb (x : ndarray) : bool :=
  forallb (fun r => Nat.eqb (length r) (shape1 x)) (rows x).

(** [np.ones((n, d))] and [np.ones(n)] *)
Definition ones2 (n d : nat) : ndarray :=
  mk_ndarray d (repeat (repeat 1%float d) n).
Definition ones (n : nat) : list float := repeat 1%float n.

(** Elementwise application of a scalar function. *)
Definition amap (f : float -> float) (x : ndarray) : ndarray :=
  mk_ndarray (shape1 x) (map (map f) (rows x)).

Fixpoint zip_with {A B C} (f : A -> B -> C) (l : list A) (m : list B) : list C :=
  match l, m with
  | a :: l', b :: m' => f a b :: zip_with f l' m'
  | _, _ => []
  end.

(** Elementwise operation on two arrays of one shape. *)
Definition azip (f : float -> float -> float) (x y : ndarray) : ndarray :=
  mk_ndarray (shape1 x) (zip_with (zip_with f) (rows x) (rows y)).

(** Column [j] as the values it holds, and [x[:, j]] with its bound check. *)
Definition column (x : ndarray) (j : nat) : list float :=
  map (fun r => nth j r nan) (rows x).

Definition getcol (x : ndarray) (j : nat) : res (list float) :=
  if (j <? shape1 x)%nat then ok (column x j)
  else raise (IndexError (Z.of_nat j) 1 (shape1 x)).

(** Where a slice bound [j] falls in a sequence of [len] items
    (negative bounds count from the end, all bounds are clipped). *)
Definition slice_bound (len : nat) (j : Z) : nat :=
  Z.to_nat (if j <? 0 then Z.max 0 (Z.of_nat len + j)
            else Z.min j (Z.of_nat len)).

(** [x[:, :j]] and [x[:, j:]] *)
Definition cols_upto (x : ndarray) (j : Z) : ndarray :=
  let b := slice_bound (shape1 x) j in
  mk_ndarray b (map (firstn b) (rows x)).

Definition cols_from (x : ndarray) (j : Z) : ndarray :=
  let b := slice_bound (shape1 x) j in
  mk_ndarray (shape1 x - b) (map (skipn b) (rows x)).

(** [v.reshape(-1, 1)] and [np.hstack((x, y))] for arrays of equal height. *)
Definition reshape_col (v : list float) : ndarray :=
  mk_ndarray 1 (map (fun a => [a]) v).

Definition hstack (x y : ndarray) : ndarray :=
  mk_ndarray (shape1 x + shape1 y) (zip_with (@app float) (rows x) (rows y)).

(** Broadcasting a binary operation over [(n, m)] and [(k,)]. *)
Definition bcast_row (f : float -> float -> float)
    (x : ndarray) (v : list float) : res ndarray :=
  if (shape1 x =? length v)%nat then
    ok (mk_ndarray (shape1 x) (map (fun r => zip_with f r v) (rows x)))
  else if (length v =? 1)%nat then
    ok (mk_ndarray (shape1 x) (map (map (fun a => f a (nth 0 v nan))) (rows x)))
  else if (shape1 x =? 1)%nat then
    ok (mk_ndarray (length v) (map (fun r => map (f (nth 0 r nan)) v) (rows x)))
  else raise (ValueError [shape0 x; shape1 x] [length v]).

(** Broadcasting over [(n, m)] and [(n, k)]. *)
Definition bcast_mat (f : float -> float -> float) (x y : ndarray) : res ndarray :=
  if (shape1 x =? shape1 y)%nat then ok (azip f x y)
  else if (shape1 y =? 1)%nat then
    ok (mk_ndarray (shape1 x)
          (zip_with (fun r s => map (fun a => f a (nth 0 s nan)) r) (rows x) (rows y)))
  else if (shape1 x =? 1)%nat then
    ok (mk_ndarray (shape1 y)
          (zip_with (fun r s => map (f (nth 0 r nan)) s) (rows x) (rows y)))
  else raise (ValueError [shape0 x; shape1 x] [shape0 y; shape1 y]).

(** Broadcasting over two 1-D arrays. *)
Definition bcast_vec (f : float -> float -> float) (u v : list float) : res (list float) :=
  if (length u =? length v)%nat then ok (zip_with f u v)
  else if (length v =? 1)%nat then ok (map (fun a => f a (nth 0 v nan)) u)
  else if (length u =? 1)%nat then ok (map (f (nth 0 u nan)) v)
  else raise (ValueError [length u] [length v]).

(** Replacing entry [j] of a row. *)
Fixpoint set_nth (j : nat) (a : float) (r : list float) : list float :=
  match r, j with
  | [], _ => []
  | _ :: r', O => a :: r'
  | b :: r', S j' => b :: set_nth j' a r'
  end.

(** [x[:, j] = v], in place: the bound check on [j], then the value
    broadcast to the column. *)
Definition setcol (x : ndarray) (j : nat) (v : list float) : res ndarray :=
  if (j <? shape1 x)%nat then
    if (length v =? shape0 x)%nat then
      ok (mk_ndarray (shape1 x) (zip_with (fun r a => set_nth j a r) (rows x) v))
    else if (length v =? 1)%nat then
      ok (mk_ndarray (shape1 x) (map (set_nth j (nth 0 v nan)) (rows x)))
    else raise (ValueError [length v] [shape0 x])
  else raise (IndexError (Z.of_nat j) 1 (shape1 x)).

Section Reductions.
Context {host : Host}.

(** [np.sum(x, axis=1)] and [np.prod(x, axis=1)] *)
Definition sum_axis1 (x : ndarray) : list float := map np_sum (rows x).
Definition prod_axis1 (x : ndarray) : list float := map np_prod (rows x).

(** [np.random.rand(n)]: [n] draws, in order, from the generator. *)
Fixpoint random_rand (n : nat) (g : rng) : list float * rng :=
  match n with
  | O => ([], g)
  | S n' => let (r, g1) := rand1 g in
            let (rs, g2) := random_rand n' g1 in
            (r :: rs, g2)
  end.
End Reductions.

End np.

Export np.

(** ** Computations that raise and draw random numbers *)

Section Effects.
Context {host : Host}.

(** The generator's state is threaded; a raised exception ends the call. *)
Definition M (A : Type) : Type := rng -> res (A * rng).

Definition mret {A} (a : A) : M A := fun g => ok (a, g).

Definition mbind {A B} (c : M A) (k : A -> M B) : M B :=
  fun g => match c g with
           | inl e => inl e
           | inr (a, g') => k a g'
           end.

Definition lift {A} (c : res A) : M A :=
  fun g => match c with
           | inl e => inl e
           | inr a => ok (a, g)
           end.

Definition rand (n : nat) : M (list float) :=
  fun g => ok (random_rand n g).
End Effects.

Declare Scope eff_scope.
Delimit Scope eff_scope with eff.
Notation "x <- c ;; k" := (mbind c (fun x => k))
  (at level 61, c at next level, right associativity) : eff_scope.

(** ** wang_error_functions.py *)

Module wang_error_functions.
Section ErrorFunctions.
Context {host : Host}.
#[local] Open Scope float_scope.

(** [np.sum(a * np.cos(w * x + b + np.pi), axis=1)], the last line of
    the resolution errors, for [a], [w], [b] and [x] of one shape. *)
Definition oscillation (a w b x : ndarray) : ndarray :=
  azip mul a (amap np_cos (amap (fun t => t + np_pi) (azip add (azip mul w x) b))).

(** [theta * np.ones((n, d))] *)
Definition scaled_ones (c : float) (n d : nat) : ndarray :=
  amap (fun o => c * o) (ones2 n d).

Definition resolution (theta : float) (x : ndarray) : list float :=
  let n := shape0 x in
  let d := shape1 x in
  let a := scaled_ones theta n d in
  let w := scaled_ones (10 * np_pi * theta) n d in
  let b := scaled_ones (0.5 * np_pi * theta) n d in
  sum_axis1 (oscillation a w b x).

Definition e_r1 (x : ndarray) (phi : Z) : res (list float) :=
  (p <- float_of_int phi ;;
   let theta := 1 - 0.0001 * p in
   ok (resolution theta x))%res.

Definition e_r2 (x : ndarray) (phi : Z) : res (list float) :=
  (p <- float_of_int phi ;;
   let theta := np_exp (-0.00025 * p) in
   ok (resolution theta x))%res.

Definition e_r3 (x : ndarray) (phi : Z) : res (list float) :=
  (theta <-
     (if (phi <? 1000)%Z then
        p <- float_of_int phi ;; ok (1 - 0.0002 * p)
      else if (phi <? 2000)%Z then ok 0.8
      else if (phi <? 3000)%Z then
        p <- float_of_int phi ;; ok (1.2 - 0.0002 * p)
      else if (phi <? 4000)%Z then ok 0.6
      else if (phi <? 5000)%Z then
        p <- float_of_int phi ;; ok (1.4 - 0.0002 * p)
      else if (phi <? 6000)%Z then ok 0.4
      else if (phi <? 7000)%Z then
        p <- float_of_int phi ;; ok (1.6 - 0.0002 * p)
      else if (phi <? 8000)%Z then ok 0.2
      else if (phi <? 9000)%Z then
        p <- float_of_int phi ;; ok (1.8 - 0.0002 * p)
      else ok 0) ;;
   ok (resolution theta x))%res.

Definition e_r4 (x : ndarray) (phi : Z) (x_b : list float) : res (list float) :=
  (let n := shape0 x in
   let d := shape1 x in
   p <- float_of_int phi ;;
   let theta := 1 - 0.0001 * p in
   diff <- bcast_row sub x x_b ;;
   let psi := amap (fun t => 1 - abs t) diff in
   a <- bcast_mat mul (scaled_ones theta n d) psi ;;
   let w := scaled_ones (10 * np_pi * theta) n d in
   let b := scaled_ones (0.5 * np_pi * theta) n d in
   let c := amap np_cos (amap (fun t => t + np_pi) (azip add (azip mul w x) b)) in
   ac <- bcast_mat mul a c ;;
   ok (sum_axis1 ac))%res.

(** [np.random.rand(n) * sigma + mu] for a scalar [mu] *)
Definition uniform_noise (n : nat) (sigma mu : float) : M (list float) :=
  (r <- rand n ;; mret (map (fun ri => ri * sigma + mu) r))%eff.

Definition e_s1 (x : ndarray) (phi : Z) : M (list float) :=
  (let n := shape0 x in
   p <- lift (float_of_int phi) ;;
   let nu := 1 - 0.0001 * p in
   let sigma := 0.1 * nu in
   let mu := 0 in
   uniform_noise n sigma mu)%eff.

Definition e_s2 (x : ndarray) (phi : Z) : M (list float) :=
  (let n := shape0 x in
   p <- lift (float_of_int phi) ;;
   let nu := np_exp (-0.0005 * p) in
   let sigma := 0.1 * nu in
   let mu := 0 in
   uniform_noise n sigma mu)%eff.

(** [np.sum(1 - np.abs(x), axis=1)] *)
Definition gamma_of (x : ndarray) : list float :=
  sum_axis1 (amap (fun t => 1 - abs t) x).

Definition e_s3 (x : ndarray) (phi : Z) : M (list float) :=
  (let n := shape0 x in
   let d := shape1 x in
   p <- lift (float_of_int phi) ;;
   let nu := 1 - 0.0001 * p in
   let gamma := gamma_of x in
   let sigma := 0.1 * nu in
   q <- lift (py_div_int sigma (Z.of_nat d)) ;;
   let mu := map (fun gi => q * gi) gamma in
   r <- rand n ;;
   mret (zip_with add (map (fun ri => ri * sigma) r) mu))%eff.

Definition e_s4 (x : ndarray) (phi : Z) : M (list float) :=
  (let n := shape0 x in
   let d := shape1 x in
   p <- lift (float_of_int phi) ;;
   let nu := np_exp (-0.0005 * p) in
   let gamma := gamma_of x in
   let sigma := 0.1 * nu in
   let mu := map (fun gi => (sigma / float_of_nat d) * gi) gamma in
   r <- rand n ;;
   mret (zip_with add (map (fun ri => ri * sigma) r) mu))%eff.

(** [e[np.where(r > p)] = 0] *)
Definition zero_where_above (p : float) (r e : list float) : list float :=
  zip_with (fun ri ei => if p <? ri then 0 else ei) r e.

(** [10 * d * np.ones(n)] *)
Definition penalty (n d : nat) : list float :=
  map (fun o => float_of_Z (10 * Z.of_nat d) * o) (ones n).

Definition e_ins1 (x : ndarray) (phi : Z) : M (list float) :=
  (let n := shape0 x in
   let d := shape1 x in
   r <- rand n ;;
   let e := penalty n d in
   pf <- lift (float_of_int phi) ;;
   let p := 0.1 * (1 - 0.0001 * pf) in
   mret (zero_where_above p r e))%eff.

Definition e_ins2 (x : ndarray) (phi : Z) : M (list float) :=
  (let n := shape0 x in
   let d := shape1 x in
   r <- rand n ;;
   let e := penalty n d in
   pf <- lift (float_of_int phi) ;;
   let p := np_exp (-0.001 * pf - 0.1) in
   mret (zero_where_above p r e))%eff.

End ErrorFunctions.

(** The functions this module defines, as [base.py] holds one of them in
    [self.err_fn]. *)
Inductive error_function : Type :=
| Fn_e_r1 | Fn_e_r2 | Fn_e_r3 | Fn_e_r4
| Fn_e_s1 | Fn_e_s2 | Fn_e_s3 | Fn_e_s4
| Fn_e_ins1 | Fn_e_ins2.

(** In the order of their definition in the file. *)
Definition all_error_functions : list error_function :=
  [Fn_e_r1; Fn_e_r2; Fn_e_r3; Fn_e_r4;
   Fn_e_s1; Fn_e_s2; Fn_e_s3; Fn_e_s4;
   Fn_e_ins1; Fn_e_ins2].

(** [fn.__name__] *)
Definition __name__ (fn : error_function) : string :=
  match fn with
  | Fn_e_r1 => "e_r1" | Fn_e_r2 => "e_r2" | Fn_e_r3 => "e_r3" | Fn_e_r4 => "e_r4"
  | Fn_e_s1 => "e_s1" | Fn_e_s2 => "e_s2" | Fn_e_s3 => "e_s3" | Fn_e_s4 => "e_s4"
  | Fn_e_ins1 => "e_ins1" | Fn_e_ins2 => "e_ins2"
  end.

(** The comment heading each definition: the kind of error it models. *)
Inductive family : Type := Resolution | Stochastic | Instability.

Definition family_of (fn : error_function) : family :=
  match fn with
  | Fn_e_r1 | Fn_e_r2 | Fn_e_r3 | Fn_e_r4 => Resolution
  | Fn_e_s1 | Fn_e_s2 | Fn_e_s3 | Fn_e_s4 => Stochastic
  | Fn_e_ins1 | Fn_e_ins2 => Instability
  end.

Definition family_eqb (a b : family) : bool :=
  match a, b with
  | Resolution, Resolution | Stochastic, Stochastic
  | Instability, Instability => true
  | _, _ => false
  end.

(** Whether the signature has the third parameter [x_b]. *)
Definition takes_baseline (fn : error_function) : bool :=
  match fn with Fn_e_r4 => true | _ => false end.

(** [fn(x, phi)], the call [evaluate_MF] makes: two positional
    arguments, which [e_r4] refuses. *)
Definition call2 {host : Host} (fn : error_function)
    (x : ndarray) (phi : Z) : M (list float) :=
  match fn with
  | Fn_e_r1 => lift (e_r1 x phi)
  | Fn_e_r2 => lift (e_r2 x phi)
  | Fn_e_r3 => lift (e_r3 x phi)
  | Fn_e_r4 => lift (raise (TypeError "e_r4" "x_b"))
  | Fn_e_s1 => e_s1 x phi
  | Fn_e_s2 => e_s2 x phi
  | Fn_e_s3 => e_s3 x phi
  | Fn_e_s4 => e_s4 x phi
  | Fn_e_ins1 => e_ins1 x phi
  | Fn_e_ins2 => e_ins2 x phi
  end.

(** [fn(x, phi, x_b)] for the one function that takes a baseline, and
    [fn(x, phi)] for the others. *)
Definition call {host : Host} (fn : error_function)
    (x : ndarray) (phi : Z) (x_b : list float) : M (list float) :=
  match fn with
  | Fn_e_r4 => lift (e_r4 x phi x_b)
  | _ => call2 fn x phi
  end.

End wang_error_functions.

Export wang_error_functions.

(** ** base.py *)

Module base.
Section Base.
Context {host : Host}.
#[local] Open Scope float_scope.

(** What a problem class provides to [_BaseProblem]: the attributes
    [n_obj] and [_vars] (name and [np.array([lower, upper])], in the
    order of the dictionary) and the method [_evaluate_obj]. *)
Record _BaseProblem : Type := {
  n_obj : Z;
  _vars : list (string * (float * float));
  _evaluate_obj : ndarray -> res ndarray
}.

(** [self.n_var = len(self._vars)] *)
Definition n_var (P : _BaseProblem) : nat := length (_vars P).

(** [v[0]] and [v[-1]] of every variable, in order. *)
Definition get_bound_arrays (P : _BaseProblem) : list float * list float :=
  (map (fun kv => fst (snd kv)) (_vars P),
   map (fun kv => snd (snd kv)) (_vars P)).

(** The dictionary [{'F': F}] both entry points return. *)
Record result : Type := { F : ndarray }.

Definition evaluate (P : _BaseProblem) (x : ndarray) : res result :=
  (F <- _evaluate_obj P x ;;
   ok {| F := F |})%res.

(** One entry of [mf_def]: the levels' parameters and the scale of
    each objective. *)
Record calibration : Type := {
  Phi : list (Z * Z);
  scale : list (string * float)
}.

(** A class that mixes [_MF_Base] into a problem class. *)
Record _MF_Base : Type := {
  problem :> _BaseProblem;
  mf_def : list (string * calibration);
  err_fn : error_function
}.

Definition set_error_fn (P : _MF_Base) (fn : error_function) : _MF_Base :=
  {| problem := problem P; mf_def := mf_def P; err_fn := fn |}.

(** [(1 - -1) * (x - x_min)/(x_max - x_min) + -1] on one entry. *)
Definition scale_entry (x x_min x_max : float) : float :=
  float_of_Z (1 - -1) * (x - x_min) / (x_max - x_min) + float_of_Z (-1).

(** The same expression on the batch, with numpy's broadcasting of
    the bound arrays against the columns of [x]. *)
Definition scale_batch (P : _BaseProblem) (x : ndarray) : res ndarray :=
  (let (x_min, x_max) := get_bound_arrays P in
   num <- bcast_row sub x x_min ;;
   let num2 := amap (fun t => float_of_Z (1 - -1) * t) num in
   quo <- bcast_row div num2 (zip_with sub x_max x_min) ;;
   ok (amap (fun t => t + float_of_Z (-1)) quo))%res.

(** [f'f{f+1}'] and [f'Phi_{f_kw}'] *)
Definition f_kw (f : nat) : string := ("f" ++ str_of_nat (f + 1))%string.
Definition Phi_kw (f : nat) : string := ("Phi_" ++ f_kw f)%string.

(** The body of the loop over the objectives, on the matrix
    [result['F']] it updates in place. *)
Definition MF_objective (P : _MF_Base) (n : nat) (x_s : ndarray)
    (kwargs : list (string * Z)) (FM : ndarray) (f : nat) : M ndarray :=
  match lookup_str (Phi_kw f) kwargs with
  | None =>
      lift (setcol FM f (map (fun o => nan * o) (ones n)))
  | Some level =>
      if (0 <? level)%Z then
        (entry <- lift (getitem_str (mf_def P) (__name__ (err_fn P))) ;;
         sc <- lift (getitem_str (scale entry) (f_kw f)) ;;
         phi <- lift (getitem_int (Phi entry) level) ;;
         e <- call2 (err_fn P) x_s phi ;;
         let err := map (fun ei => sc * ei) e in
         old <- lift (getcol FM f) ;;
         new <- lift (bcast_vec add old err) ;;
         lift (setcol FM f new))%eff
      else mret FM
  end.

Fixpoint MF_loop (P : _MF_Base) (n : nat) (x_s : ndarray)
    (kwargs : list (string * Z)) (fs : list nat) (FM : ndarray) : M ndarray :=
  match fs with
  | [] => mret FM
  | f :: fs' =>
      (FM' <- MF_objective P n x_s kwargs FM f ;;
       MF_loop P n x_s kwargs fs' FM')%eff
  end.

(** [range(n)] *)
Definition range (n : Z) : list nat := seq 0 (Z.to_nat n).

Definition evaluate_MF (P : _MF_Base) (x : ndarray)
    (kwargs : list (string * Z)) : M result :=
  (let n := shape0 x in
   r <- lift (evaluate P x) ;;
   x_s <- lift (scale_batch P x) ;;
   FM <- MF_loop P n x_s kwargs (range (n_obj P)) (F r) ;;
   mret {| F := FM |})%eff.

End Base.
End base.

Export base.

(** ** RE_problems.py *)

Module RE_problems.
#[local] Open Scope float_scope.

(** An arithmetic expression on columns of one batch is the scalar
    expression on the entries of each row. *)
Fixpoint map4 (f : float -> float -> float -> float -> float)
    (a b c d : list float) : list float :=
  match a, b, c, d with
  | a1 :: a', b1 :: b', c1 :: c', d1 :: d' => f a1 b1 c1 d1 :: map4 f a' b' c' d'
  | _, _, _, _ => []
  end.

Fixpoint map5 (f : float -> float -> float -> float -> float -> float)
    (a b c d e : list float) : list float :=
  match a, b, c, d, e with
  | a1 :: a', b1 :: b', c1 :: c', d1 :: d', e1 :: e' =>
      f a1 b1 c1 d1 e1 :: map5 f a' b' c' d' e'
  | _, _, _, _, _ => []
  end.

(** *** Four bar truss design problem *)
Module RE2_4_1.
Definition F : Z := 10.
Definition E : float := 2e5.
Definition L : Z := 200.
Definition sigma : Z := 10.
Definition a : float := float_of_Z F / float_of_Z sigma.

Definition n_obj : Z := 2.
Definition _vars : list (string * (float * float)) :=
  [("x1", (a, 3 * a));
   ("x2", (sqrt (2 * a), 3 * a));
   ("x3", (sqrt (2 * a), 3 * a));
   ("x4", (a, 3 * a))]%string.

Definition f1 (x1 x2 x3 x4 : float) : float :=
  float_of_Z L * (2 * x1 + sqrt (2 * x2) + sqrt x3 + x4).

Definition f2 (x1 x2 x3 x4 : float) : float :=
  (float_of_Z (F * L) / E)
  * ((2 / x1) + (2 * sqrt 2 / x2) - (2 * sqrt 2 / x3) + (2 / x4)).

Definition _evaluate_obj (x : ndarray) : res ndarray :=
  (x1 <- getcol x 0 ;;
   x2 <- getcol x 1 ;;
   x3 <- getcol x 2 ;;
   x4 <- getcol x 3 ;;
   let f1 := map4 f1 x1 x2 x3 x4 in
   let f2 := map4 f2 x1 x2 x3 x4 in
   ok (hstack (reshape_col f1) (reshape_col f2)))%res.

Definition class : _BaseProblem :=
  {| base.n_obj := n_obj;
     base._vars := _vars;
     base._evaluate_obj := _evaluate_obj |}.
End RE2_4_1.

(** *** Vehicle crashworthiness design problem *)
Module RE3_5_4.
Section WithHost.
Context {host : Host}.

Definition n_obj : Z := 3.
Definition _vars : list (string * (float * float)) :=
  [("x1", (1, 3)); ("x2", (1, 3)); ("x3", (1, 3));
   ("x4", (1, 3)); ("x5", (1, 3))]%string.

Definition f1 (x1 x2 x3 x4 x5 : float) : float :=
  1640.2823 + 2.3573285 * x1 + 2.3220035 * x2 + 4.5688768 * x3
  + 7.7213633 * x4 + 4.4559504 * x5.

Definition f2 (x1 x2 x3 x4 x5 : float) : float :=
  6.5856 + 1.15 * x1 - 1.0427 * x2 + 0.9738 * x3
  + 0.8364 * x4 - 0.3695 * x1 * x4 + 0.0961 * x1 * x5
  + 0.3628 * x2 * x4 - 0.1106 * np_power x1 2
  - 0.3437 * np_power x3 2 + 0.1764 * np_power x4 2.

Definition f3 (x1 x2 x3 x4 x5 : float) : float :=
  -0.0551 + 0.0181 * x1 + 0.1024 * x2 + 0.0421 * x3
  - 0.0073 * x1 * x2 + 0.024 * x2 * x3 - 0.0118 * x2 * x4
  - 0.0204 * x3 * x4 - 0.008 * x3 * x5
  - 0.0241 * np_power x2 2 + 0.0109 * np_power x4 2.

Definition _evaluate_obj (x : ndarray) : res ndarray :=
  (x1 <- getcol x 0 ;;
   x2 <- getcol x 1 ;;
   x3 <- getcol x 2 ;;
   x4 <- getcol x 3 ;;
   x5 <- getcol x 4 ;;
   let f1 := map5 f1 x1 x2 x3 x4 x5 in
   let f2 := map5 f2 x1 x2 x3 x4 x5 in
   let f3 := map5 f3 x1 x2 x3 x4 x5 in
   ok (hstack (hstack (reshape_col f1) (reshape_col f2)) (reshape_col f3)))%res.

Definition class : _BaseProblem :=
  {| base.n_obj := n_obj;
     base._vars := _vars;
     base._evaluate_obj := _evaluate_obj |}.
End WithHost.
End RE3_5_4.

(** *** Rocket injector design problem *)
Module RE3_4_7.
Section WithHost.
Context {host : Host}.

Definition n_obj : Z := 3.
Definition _vars : list (string * (float * float)) :=
  [("x1", (0, 1)); ("x2", (0, 1)); ("x3", (0, 1)); ("x4", (0, 1))]%string.

Definition f1 (x1 x2 x3 x4 : float) : float :=
  0.692 + 0.477 * x1 - 0.687 * x2 - 0.08 * x3 - 0.065 * x4
  - 0.167 * np_power x1 2 - 0.0129 * x2 * x1
  + 0.0796 * np_power x2 2 - 0.0634 * x3 * x1
  - 0.0257 * x3 * x2 + 0.0877 * np_power x3 2
  - 0.0521 * x4 * x1 + 0.00156 * x4 * x2 + 0.00198 * x4 * x3
  + 0.0184 * np_power x4 2.

Definition f2 (x1 x2 x3 x4 : float) : float :=
  0.153 + 0.322 * x1 - 0.396 * x2 - 0.424 * x3 - 0.0226 * x4
  - 0.175 * np_power x1 2 - 0.0185 * x2 * x1
  + 0.0701 * np_power x2 2 - 0.251 * x3 * x1
  - 0.179 * x3 * x2 + 0.0150 * np_power x3 2
  - 0.0134 * x4 * x1 + 0.0296 * x4 * x2 + 0.0752 * x4 * x3
  + 0.0192 * np_power x4 2.

Definition f3 (x1 x2 x3 x4 : float) : float :=
  0.370 - 0.205 * x1 + 0.307 * x2 + 0.108 * x3 + 1.019 * x4
  - 0.135 * np_power x1 2 + 0.0141 * x2 * x1
  + 0.0998 * np_power x2 2 + 0.208 * x3 * x1 - 0.0301 * x3 * x2
  - 0.226 * np_power x3 2 + 0.353 * x4 * x1 - 0.0497 * x4 * x3
  - 0.423 * np_power x4 2 + 0.202 * x2 * np_power x1 2
  - 0.281 * x3 * np_power x1 2 - 0.342 * np_power x2 2 * x1
  - 0.245 * np_power x2 2 * x3 + 0.281 * np_power x3 2 * x2
  - 0.184 * np_power x4 2 * x1 - 0.281 * x2 * x1 * x3.

Definition _evaluate_obj (x : ndarray) : res ndarray :=
  (x1 <- getcol x 0 ;;
   x2 <- getcol x 1 ;;
   x3 <- getcol x 2 ;;
   x4 <- getcol x 3 ;;
   let f1 := map4 f1 x1 x2 x3 x4 in
   let f2 := map4 f2 x1 x2 x3 x4 in
   let f3 := map4 f3 x1 x2 x3 x4 in
   ok (hstack (hstack (reshape_col f1) (reshape_col f2)) (reshape_col f3)))%res.

Definition class : _BaseProblem :=
  {| base.n_obj := n_obj;
     base._vars := _vars;
     base._evaluate_obj := _evaluate_obj |}.
End WithHost.
End RE3_4_7.

End RE_problems.

(** ** DTLZ_problems.py *)

Module DTLZ_problems.
Section DTLZ.
Context {host : Host}.
#[local] Open Scope float_scope.

(** The keyword arguments of [_DTLZ_Base.__init__]; the defaults are
    [n_obj=3], [k=5], [beta=1]. *)
Record params : Type := {
  n_obj : Z;
  k : Z;
  beta : float
}.

Definition default_params : params := {| n_obj := 3; k := 5; beta := 1 |}.

(** [{f'x{n+1}': np.array([0, 1]) for n in range(self.n_var)}] with
    [self.n_var = n_obj + k - 1] *)
Definition _vars (a : params) : list (string * (float * float)) :=
  map (fun n => (("x" ++ str_of_nat (n + 1))%string, (0, 1)))
      (range (n_obj a + k a - 1)).

Definition g (x_m : ndarray) : ndarray :=
  reshape_col
    (map (fun t => float_of_nat (shape1 x_m) + t)
       (sum_axis1
          (amap (fun v => np_power (v - 0.5) 2 - np_cos (20 * np_pi * (v - 0.5)))
                x_m))).

(** [np.prod(np.cos(x * np.pi / 2), axis=1)] *)
Definition prod_cos (x : ndarray) : list float :=
  prod_axis1 (amap (fun v => np_cos (v * np_pi / 2)) x).

(** One pass of the loop of [s] for the index [i]. *)
Definition s_step (a : params) (x_pos : ndarray) (S : ndarray) (i : nat) : res ndarray :=
  (let p := prod_cos (cols_upto x_pos (Z.of_nat i)) in
   xi <- getcol x_pos i ;;
   let s_tmp := zip_with (fun pj v => np_power (pj * np_sin (v * np_pi / 2)) (beta a)) p xi in
   ok (hstack S (reshape_col s_tmp)))%res.

Fixpoint s_loop (a : params) (x_pos : ndarray) (S : ndarray) (idx : list nat) : res ndarray :=
  match idx with
  | [] => ok S
  | i :: idx' => (S' <- s_step a x_pos S i ;; s_loop a x_pos S' idx')%res
  end.

(** [range(n - 1, -1, -1)]: [n - 1], ..., [0]. *)
Definition range_down (n : Z) : list nat := rev (range n).

Definition s (a : params) (x_pos : ndarray) : res ndarray :=
  let S := reshape_col (map (fun p => np_power p (beta a)) (prod_cos x_pos)) in
  s_loop a x_pos S (range_down (n_obj a - 1)).

Definition DTLZ2_evaluate_obj (a : params) (x : ndarray) : res ndarray :=
  (let x_pos := cols_upto x (n_obj a - 1) in
   let x_m := cols_from x (n_obj a - 1) in
   let G_xm := g x_m in
   S_xpos <- s a x_pos ;;
   bcast_mat mul (amap (fun t => 1 + t) G_xm) S_xpos)%res.

Definition InvertedDTLZ2_evaluate_obj (a : params) (x : ndarray) : res ndarray :=
  (let x_pos := cols_upto x (n_obj a - 1) in
   let x_m := cols_from x (n_obj a - 1) in
   let G_xm := g x_m in
   S_xpos <- s a x_pos ;;
   bcast_mat mul (amap (fun t => 1 + t) G_xm) (amap (fun t => 1 - t) S_xpos))%res.

Definition DTLZ2 (a : params) : _BaseProblem :=
  {| base.n_obj := n_obj a;
     base._vars := _vars a;
     base._evaluate_obj := DTLZ2_evaluate_obj a |}.

Definition InvertedDTLZ2 (a : params) : _BaseProblem :=
  {| base.n_obj := n_obj a;
     base._vars := _vars a;
     base._evaluate_obj := InvertedDTLZ2_evaluate_obj a |}.

End DTLZ.
End DTLZ_problems.

(** ** MOMF_problems.py *)

Module MOMF_problems.
Section MOMF.
Context {host : Host}.
#[local] Open Scope string_scope.

(** Two objective functions, with 4 variables. Fidelity levels such that correlation is in [0.7, 1.0] for f1 and f2. *)
Definition MOMF2_4_1a_mf_def : list (string * calibration) :=
  [
   ("e_r1", {| Phi := [(1, 8436); (2, 7064); (3, 5000)]%Z;
             scale := [("f1", 1.0962e+02); ("f2", 1.6447e-01)]%float |});
   ("e_r2", {| Phi := [(1, 9178); (2, 6893); (3, 5000)]%Z;
             scale := [("f1", 2.0085e+02); ("f2", 3.0882e-01)]%float |});
   ("e_r3", {| Phi := [(1, 8266); (2, 6583); (3, 5000)]%Z;
             scale := [("f1", 1.3117e+02); ("f2", 2.1674e-01)]%float |});
   ("e_s1", {| Phi := [(1, 8697); (2, 6853); (3, 5000)]%Z;
             scale := [("f1", 5.3856e+03); ("f2", 7.2515e+00)]%float |});
   ("e_s2", {| Phi := [(1, 7715); (2, 5891); (3, 5000)]%Z;
             scale := [("f1", 3.2636e+04); ("f2", 4.4158e+01)]%float |});
   ("e_s3", {| Phi := [(1, 8697); (2, 7014); (3, 5000)]%Z;
             scale := [("f1", 6.9287e+03); ("f2", 5.6141e+00)]%float |});
   ("e_s4", {| Phi := [(1, 7605); (2, 6102); (3, 5000)]%Z;
             scale := [("f1", 4.2286e+04); ("f2", 3.4426e+01)]%float |})
  ].

(** Two objective functions, with 4 variables. Fidelity levels such that correlation is in [0.9, 1.0] for f1 and [0.7, 1.0] for f2. *)
Definition MOMF2_4_1b_mf_def : list (string * calibration) :=
  [
   ("e_r1", {| Phi := [(1, 8426); (2, 7054); (3, 5000)]%Z;
             scale := [("f1", 3.5062e+01); ("f2", 1.6365e-01)]%float |});
   ("e_r2", {| Phi := [(1, 9879); (2, 6913); (3, 5000)]%Z;
             scale := [("f1", 6.3384e+01); ("f2", 3.1181e-01)]%float |});
   ("e_r3", {| Phi := [(1, 8476); (2, 6993); (3, 5000)]%Z;
             scale := [("f1", 4.3033e+01); ("f2", 2.1740e-01)]%float |});
   ("e_s1", {| Phi := [(1, 8757); (2, 7224); (3, 5000)]%Z;
             scale := [("f1", 1.7374e+03); ("f2", 7.4510e+00)]%float |});
   ("e_s2", {| Phi := [(1, 7725); (2, 6122); (3, 5000)]%Z;
             scale := [("f1", 1.0267e+04); ("f2", 4.4144e+01)]%float |});
   ("e_s3", {| Phi := [(1, 8577); (2, 6983); (3, 5000)]%Z;
             scale := [("f1", 1.7665e+03); ("f2", 5.5864e+00)]%float |});
   ("e_s4", {| Phi := [(1, 7525); (2, 6022); (3, 5000)]%Z;
             scale := [("f1", 1.0822e+04); ("f2", 3.4230e+01)]%float |})
  ].

(** Two objective functions, with 4 variables. Fidelity levels such that correlation is in [0.7, 1.0] for f1 and [0.9, 1.0] for f2. *)
Definition MOMF2_4_1c_mf_def : list (string * calibration) :=
  [
   ("e_r1", {| Phi := [(1, 8436); (2, 6663); (3, 5000)]%Z;
             scale := [("f1", 1.0975e+02); ("f2", 3.9109e-02)]%float |});
   ("e_r2", {| Phi := [(1, 9028); (2, 7304); (3, 5000)]%Z;
             scale := [("f1", 2.0177e+02); ("f2", 7.1956e-02)]%float |});
   ("e_r3", {| Phi := [(1, 8266); (2, 6673); (3, 5000)]%Z;
             scale := [("f1", 1.3148e+02); ("f2", 5.0945e-02)]%float |});
   ("e_s1", {| Phi := [(1, 8416); (2, 6773); (3, 5000)]%Z;
             scale := [("f1", 5.3518e+03); ("f2", 1.8673e+00)]%float |});
   ("e_s2", {| Phi := [(1, 7304); (2, 5881); (3, 5000)]%Z;
             scale := [("f1", 3.2626e+04); ("f2", 1.1420e+01)]%float |});
   ("e_s3", {| Phi := [(1, 8717); (2, 7134); (3, 5000)]%Z;
             scale := [("f1", 6.9229e+03); ("f2", 1.5959e+00)]%float |});
   ("e_s4", {| Phi := [(1, 7715); (2, 6112); (3, 5000)]%Z;
             scale := [("f1", 4.2171e+04); ("f2", 9.7040e+00)]%float |})
  ].

(** Two objective functions, with 4 variables. Fidelity levels such that correlation is approximately in [0.9, 1.0] for f1 and f2. *)
Definition MOMF2_4_1d_mf_def : list (string * calibration) :=
  [
   ("e_r1", {| Phi := [(1, 8286); (2, 6653); (3, 5000)]%Z;
             scale := [("f1", 3.5214e+01); ("f2", 3.9022e-02)]%float |});
   ("e_r2", {| Phi := [(1, 9028); (2, 6673); (3, 5000)]%Z;
             scale := [("f1", 6.3633e+01); ("f2", 7.1366e-02)]%float |});
   ("e_r3", {| Phi := [(1, 8256); (2, 6683); (3, 5000)]%Z;
             scale := [("f1", 4.3210e+01); ("f2", 5.0684e-02)]%float |});
   ("e_s1", {| Phi := [(1, 8396); (2, 6683); (3, 5000)]%Z;
             scale := [("f1", 1.6908e+03); ("f2", 1.8579e+00)]%float |});
   ("e_s2", {| Phi := [(1, 7254); (2, 5851); (3, 5000)]%Z;
             scale := [("f1", 1.0274e+04); ("f2", 1.1334e+01)]%float |});
   ("e_s3", {| Phi := [(1, 8376); (2, 6723); (3, 5000)]%Z;
             scale := [("f1", 1.7751e+03); ("f2", 1.5857e+00)]%float |});
   ("e_s4", {| Phi := [(1, 7254); (2, 5851); (3, 5000)]%Z;
             scale := [("f1", 1.0810e+04); ("f2", 9.6065e+00)]%float |})
  ].

(** Three objective functions, with 4 variables. Fidelity levels such that correlation is in [0.7, 1.0] for f1, f2 and f3. *)
Definition MOMF3_4_1_mf_def : list (string * calibration) :=
  [
   ("e_r1", {| Phi := [(1, 8286); (2, 6823); (3, 5000)]%Z;
             scale := [("f1", 1.4381e-01); ("f2", 1.4975e-01); ("f3", 1.6675e-01)]%float |});
   ("e_r2", {| Phi := [(1, 9368); (2, 6643); (3, 5000)]%Z;
             scale := [("f1", 2.5430e-01); ("f2", 2.6420e-01); ("f3", 2.9649e-01)]%float |});
   ("e_r3", {| Phi := [(1, 8386); (2, 6733); (3, 5000)]%Z;
             scale := [("f1", 1.8696e-01); ("f2", 1.9949e-01); ("f3", 2.0545e-01)]%float |});
   ("e_s1", {| Phi := [(1, 8436); (2, 6803); (3, 5000)]%Z;
             scale := [("f1", 7.0386e+00); ("f2", 7.4024e+00); ("f3", 7.9370e+00)]%float |});
   ("e_s2", {| Phi := [(1, 7324); (2, 5891); (3, 5000)]%Z;
             scale := [("f1", 4.2954e+01); ("f2", 4.5103e+01); ("f3", 4.8392e+01)]%float |});
   ("e_s3", {| Phi := [(1, 8426); (2, 6793); (3, 5000)]%Z;
             scale := [("f1", 6.4054e+00); ("f2", 6.5529e+00); ("f3", 7.2184e+00)]%float |});
   ("e_s4", {| Phi := [(1, 7314); (2, 5891); (3, 5000)]%Z;
             scale := [("f1", 3.8890e+01); ("f2", 4.0045e+01); ("f3", 4.3946e+01)]%float |})
  ].

(** Three objective functions, with 5 variables. Fidelity levels such that correlation is in [0.7, 1.0] for f1, f2 and f3. *)
Definition MOMF3_5_1_mf_def : list (string * calibration) :=
  [
   ("e_r1", {| Phi := [(1, 8436); (2, 6583); (3, 5000)]%Z;
             scale := [("f1", 2.0252e+00); ("f2", 3.3006e-01); ("f3", 1.7791e-02)]%float |});
   ("e_r2", {| Phi := [(1, 7995); (2, 6012); (3, 5000)]%Z;
             scale := [("f1", 3.5352e+00); ("f2", 5.8414e-01); ("f3", 3.0836e-02)]%float |});
   ("e_r3", {| Phi := [(1, 8246); (2, 6633); (3, 5000)]%Z;
             scale := [("f1", 2.3078e+00); ("f2", 3.8555e-01); ("f3", 2.0860e-02)]%float |});
   ("e_s1", {| Phi := [(1, 8426); (2, 6783); (3, 5000)]%Z;
             scale := [("f1", 1.0696e+02); ("f2", 1.7364e+01); ("f3", 9.4979e-01)]%float |});
   ("e_s2", {| Phi := [(1, 7304); (2, 5881); (3, 5000)]%Z;
             scale := [("f1", 6.4917e+02); ("f2", 1.0549e+02); ("f3", 5.7512e+00)]%float |});
   ("e_s3", {| Phi := [(1, 8567); (2, 6943); (3, 5000)]%Z;
             scale := [("f1", 1.3058e+02); ("f2", 1.7865e+01); ("f3", 1.0273e+00)]%float |});
   ("e_s4", {| Phi := [(1, 7525); (2, 5991); (3, 5000)]%Z;
             scale := [("f1", 8.0143e+02); ("f2", 1.0862e+02); ("f3", 6.2927e+00)]%float |})
  ].

(** Three objective functions, with 7 variables. Fidelity levels such that correlation is in [0.7, 1.0] for f1, f2 and f3. *)
Definition MOMF3_7_1_mf_def : list (string * calibration) :=
  [
   ("e_r1", {| Phi := [(1, 9168); (2, 8356); (3, 6993); (4, 5000)]%Z;
             scale := [("f1", 9.7701e-01); ("f2", 1.0300e+00); ("f3", 1.3075e+00)]%float |});
   ("e_r2", {| Phi := [(1, 9989); (2, 9659); (3, 6593); (4, 5000)]%Z;
             scale := [("f1", 1.7128e+00); ("f2", 1.8116e+00); ("f3", 2.3048e+00)]%float |});
   ("e_r3", {| Phi := [(1, 8647); (2, 8476); (3, 6733); (4, 5000)]%Z;
             scale := [("f1", 1.3973e+00); ("f2", 1.3325e+00); ("f3", 1.5736e+00)]%float |});
   ("e_s1", {| Phi := [(1, 9318); (2, 8567); (3, 6903); (4, 5000)]%Z;
             scale := [("f1", 6.5451e+01); ("f2", 6.5640e+01); ("f3", 8.0547e+01)]%float |});
   ("e_s2", {| Phi := [(1, 8967); (2, 7505); (3, 5961); (4, 5000)]%Z;
             scale := [("f1", 3.9860e+02); ("f2", 3.9942e+02); ("f3", 4.9223e+02)]%float |});
   ("e_s3", {| Phi := [(1, 9599); (2, 9148); (3, 8116); (4, 5000)]%Z;
             scale := [("f1", 1.0640e+02); ("f2", 1.0675e+02); ("f3", 1.2502e+02)]%float |});
   ("e_s4", {| Phi := [(1, 9058); (2, 7565); (3, 5981); (4, 5000)]%Z;
             scale := [("f1", 3.9885e+02); ("f2", 3.9813e+02); ("f3", 4.6518e+02)]%float |})
  ].

(** Three objective functions, with 7 variables. Fidelity levels such that correlation is in [0.7, 1.0] for f1, f2 and f3. *)
Definition MOMF3_7_2_mf_def : list (string * calibration) :=
  [
   ("e_r1", {| Phi := [(1, 9138); (2, 8376); (3, 6843); (4, 5000)]%Z;
             scale := [("f1", 1.2392e+00); ("f2", 1.2111e+00); ("f3", 9.7384e-01)]%float |});
   ("e_r2", {| Phi := [(1, 9989); (2, 9458); (3, 6703); (4, 5000)]%Z;
             scale := [("f1", 2.1770e+00); ("f2", 2.1221e+00); ("f3", 1.7357e+00)]%float |});
   ("e_r3", {| Phi := [(1, 8607); (2, 8376); (3, 6713); (4, 5000)]%Z;
             scale := [("f1", 1.4768e+00); ("f2", 1.5112e+00); ("f3", 1.3054e+00)]%float |});
   ("e_s1", {| Phi := [(1, 9228); (2, 8446); (3, 6803); (4, 5000)]%Z;
             scale := [("f1", 7.6424e+01); ("f2", 7.6271e+01); ("f3", 6.3957e+01)]%float |});
   ("e_s2", {| Phi := [(1, 8737); (2, 7334); (3, 5891); (4, 5000)]%Z;
             scale := [("f1", 4.6585e+02); ("f2", 4.6339e+02); ("f3", 3.8838e+02)]%float |});
   ("e_s3", {| Phi := [(1, 9488); (2, 8977); (3, 7915); (4, 5000)]%Z;
             scale := [("f1", 1.0944e+02); ("f2", 1.0884e+02); ("f3", 9.8565e+01)]%float |});
   ("e_s4", {| Phi := [(1, 8707); (2, 7294); (3, 5871); (4, 5000)]%Z;
             scale := [("f1", 4.3017e+02); ("f2", 4.2837e+02); ("f3", 3.8594e+02)]%float |})
  ].

(** The classes: [_MF_Base] mixed into a problem class, with the
    keyword argument [err_fn] of the constructor (its default is
    [e_r1]). *)
Definition MOMF2_4_1a (err_fn : error_function) : _MF_Base :=
  {| problem := RE_problems.RE2_4_1.class; mf_def := MOMF2_4_1a_mf_def; base.err_fn := err_fn |}.

Definition MOMF2_4_1b (err_fn : error_function) : _MF_Base :=
  {| problem := RE_problems.RE2_4_1.class; mf_def := MOMF2_4_1b_mf_def; base.err_fn := err_fn |}.

Definition MOMF2_4_1c (err_fn : error_function) : _MF_Base :=
  {| problem := RE_problems.RE2_4_1.class; mf_def := MOMF2_4_1c_mf_def; base.err_fn := err_fn |}.

Definition MOMF2_4_1d (err_fn : error_function) : _MF_Base :=
  {| problem := RE_problems.RE2_4_1.class; mf_def := MOMF2_4_1d_mf_def; base.err_fn := err_fn |}.

Definition MOMF3_4_1 (err_fn : error_function) : _MF_Base :=
  {| problem := RE_problems.RE3_4_7.class; mf_def := MOMF3_4_1_mf_def; base.err_fn := err_fn |}.

Definition MOMF3_5_1 (err_fn : error_function) : _MF_Base :=
  {| problem := RE_problems.RE3_5_4.class; mf_def := MOMF3_5_1_mf_def; base.err_fn := err_fn |}.

Definition MOMF3_7_1 (err_fn : error_function) (a : DTLZ_problems.params) : _MF_Base :=
  {| problem := DTLZ_problems.DTLZ2 a; mf_def := MOMF3_7_1_mf_def;
     base.err_fn := err_fn |}.

Definition MOMF3_7_2 (err_fn : error_function) (a : DTLZ_problems.params) : _MF_Base :=
  {| problem := DTLZ_problems.InvertedDTLZ2 a; mf_def := MOMF3_7_2_mf_def;
     base.err_fn := err_fn |}.

End MOMF.
End MOMF_problems.

(** ** A host to run the definitions on

    Truncated series stand for the platform's transcendental functions,
    reductions go from left to right, and the random source is a linear
    congruential generator.  The theorems below hold for every host; this
    one serves to evaluate the definitions on concrete batches. *)

Module SeriesHost.
#[local] Open Scope float_scope.

(** [sum_{i < n} term_i] where [term_{i+1} = term_i * ratio (i+1)]. *)
Fixpoint series (n : nat) (i : float) (term acc : float)
    (ratio : float -> float) : float :=
  match n with
  | O => acc
  | S n' => series n' (i + 1) (term * ratio (i + 1)) (acc + term) ratio
  end.

Definition cos_series (x : float) : float :=
  series 24 0 1 0 (fun i => - (x * x) / ((2 * i - 1) * (2 * i))).

Definition sin_series (x : float) : float :=
  series 24 0 x 0 (fun i => - (x * x) / ((2 * i) * (2 * i + 1))).

Definition exp_series (x : float) : float :=
  series 40 0 1 0 (fun i => x / i).

(** Powers with the exponents the sources use ([2], and [beta = 1]). *)
Definition power_small (x y : float) : float :=
  if y =? 0 then 1
  else if y =? 1 then x
  else if y =? 2 then x * x
  else nan.

Definition lcg_next (state : Z) : Z := ((1103515245 * state + 12345) mod 2 ^ 31)%Z.

Definition lcg_rand1 (state : Z) : float * Z :=
  let state' := lcg_next state in
  (float_of_Z state' / float_of_Z (2 ^ 31), state').

Definition host : Host :=
  {| np_cos := cos_series;
     np_sin := sin_series;
     np_exp := exp_series;
     np_power := power_small;
     np_sum := fun r => fold_left add r 0;
     np_prod := fun r => fold_left mul r 1;
     rng := Z;
     rand1 := lcg_rand1 |}.
End SeriesHost.

(** ** Sample runs

    Concrete problem instances, batches and requests on the host above. *)

Module Sample.
#[local] Open Scope string_scope.
#[local] Existing Instance SeriesHost.host.

(** The four bar truss problem with the default error function, and
    with a stochastic one. *)
Definition truss_r1 : _MF_Base := MOMF_problems.MOMF2_4_1a Fn_e_r1.
Definition truss_s1 : _MF_Base := MOMF_problems.MOMF2_4_1a Fn_e_s1.

(** Three samples of the four bars. *)
Definition bars : ndarray :=
  mk_ndarray 4 [[1; 2; 2; 1]; [3; 3; 3; 3]; [2; 1.5; 2.5; 2]]%float.

(** A batch with a fifth column, and one with three columns only. *)
Definition bars_wide : ndarray :=
  mk_ndarray 5 [[1; 2; 2; 1; 9]; [3; 3; 3; 3; 9]; [2; 1.5; 2.5; 2; 9]]%float.
Definition bars_narrow : ndarray :=
  mk_ndarray 3 [[1; 2; 2]; [3; 3; 3]; [2; 1.5; 2.5]]%float.

Definition seed : Z := 42.

(** [evaluate(bars)['F']] *)
Definition bars_hf : ndarray :=
  Eval vm_compute in
    match _evaluate_obj truss_r1 bars with
    | inr F0 => F0
    | inl _ => mk_ndarray 0 []
    end.

(** The requests used below. *)
Definition both_high : list (string * Z) := [("Phi_f1", 0); ("Phi_f2", 0)].
Definition both_low : list (string * Z) := [("Phi_f1", 2); ("Phi_f2", 1)].
Definition second_only : list (string * Z) := [("Phi_f2", 3)].
Definition first_negative : list (string * Z) := [("Phi_f1", -4); ("Phi_f2", 1)].
Definition first_unknown : list (string * Z) := [("Phi_f1", 7); ("Phi_f2", 0)].

Definition run (P : _MF_Base) (kwargs : list (string * Z)) : res (result * Z) :=
  evaluate_MF P bars kwargs seed.

Definition returned (c : res (result * Z)) : result :=
  match c with
  | inr (r, _) => r
  | inl _ => {| F := mk_ndarray 0 [] |}
  end.

Definition generator_after (c : res (result * Z)) : Z :=
  match c with
  | inr (_, g) => g
  | inl _ => 0
  end.

Definition stochastic_low : result :=
  Eval vm_compute in returned (run truss_s1 both_low).
Definition stochastic_low_generator : Z :=
  Eval vm_compute in generator_after (run truss_s1 both_low).

Definition second_only_result : result :=
  Eval vm_compute in returned (run truss_r1 second_only).

Definition first_negative_result : result :=
  Eval vm_compute in returned (run truss_r1 first_negative).

(** A batch of the scalable problems with the default parameters, and
    what the two evaluators return on it. *)
Definition points : ndarray :=
  mk_ndarray 7 [[0.5; 0.5; 0.5; 0.5; 0.5; 0.5; 0.5];
                [0.25; 0.75; 0.5; 0.125; 0.5; 1; 0]]%float.



End Sample.

(** ** Vocabulary of the statements *)

Section Vocabulary.
Context {host : Host}.

(** The batch [x] with every entry normalised against the bounds
    declared for its column. *)
Definition normalized (P : _BaseProblem) (x : ndarray) : ndarray :=
  mk_ndarray (shape1 x)
    (map (fun r => zip_with (fun v b => scale_entry v (fst b) (snd b))
                     r (map snd (_vars P)))
         (rows x)).

(** The bound pairs the problem classes of the suite declare. *)
Definition declared_bounds : list (float * float) :=
  map snd (RE_problems.RE2_4_1._vars ++ RE_problems.RE3_5_4._vars
           ++ RE_problems.RE3_4_7._vars
           ++ DTLZ_problems._vars DTLZ_problems.default_params).

(** A request the calibration can serve for objective [f]: no entry,
    a level that is not positive, or a positive level the active error
    function's entry lists, with a scale for [f] and a call of the
    function that returns. *)
Definition served (P : _MF_Base) (x_s : ndarray)
    (kwargs : list (string * Z)) (f : nat) : Prop :=
  match lookup_str (Phi_kw f) kwargs with
  | None => True
  | Some level =>
      level <= 0 \/
      exists entry sc phi,
        lookup_str (__name__ (err_fn P)) (mf_def P) = Some entry /\
        lookup_str (f_kw f) (scale entry) = Some sc /\
        lookup_int level (Phi entry) = Some phi /\
        forall g, exists e g', call2 (err_fn P) x_s phi g = ok (e, g')
  end.

(** Entry [(i, j)] of an array. *)
Definition entry (x : ndarray) (i j : nat) : float :=
  nth j (nth i (rows x) []) nan.

(** How many functions of the set model a kind of error. *)
Definition count_family (fam : family) : nat :=
  length (filter (fun fn => family_eqb (family_of fn) fam) all_error_functions).

Variable P : _MF_Base.
Variable n : nat.
Variable x_s : ndarray.
Variable kwargs : list (string * Z).

(** The three ways one pass of the loop can succeed. *)
Inductive pass (FM : ndarray) (f : nat) (g : rng) (FM' : ndarray) (g' : rng) : Prop :=
| pass_missing :
    lookup_str (Phi_kw f) kwargs = None ->
    setcol FM f (map (fun o => nan * o)%float (ones n)) = ok FM' ->
    g' = g ->
    pass FM f g FM' g'
| pass_high level :
    lookup_str (Phi_kw f) kwargs = Some level ->
    level <= 0 ->
    FM' = FM -> g' = g ->
    pass FM f g FM' g'
| pass_low level entry sc phi e new :
    lookup_str (Phi_kw f) kwargs = Some level ->
    0 < level ->
    lookup_str (__name__ (err_fn P)) (mf_def P) = Some entry ->
    lookup_str (f_kw f) (scale entry) = Some sc ->
    lookup_int level (Phi entry) = Some phi ->
    call2 (err_fn P) x_s phi g = ok (e, g') ->
    bcast_vec add (column FM f) (map (fun ei => sc * ei)%float e) = ok new ->
    (f < shape1 FM)%nat ->
    setcol FM f new = ok FM' ->
    pass FM f g FM' g'.

End Vocabulary.

(** ** Vocabulary of binary64 rounding *)

(** Whether the bits shifted out of a mantissa were not all zero. *)
Definition inexact (mrs : shr_record) : bool := shr_r mrs || shr_s mrs.

(** A float that is a zero, or finite of magnitude at most one. *)
Definition in_unit (r : spec_float) : Prop :=
  (exists s, r = S754_zero s) \/
  (exists s m e, r = S754_finite s m e /\ e <= 0 /\ Z.pos m <= 2 ^ (- e)).

(** Where the remainder [rem] of a division by [2 ^ s] lies between two
    consecutive integers. *)
Definition loc_code (rem s : Z) : location :=
  if rem =? 0 then loc_Exact else loc_Inexact (2 * rem ?= 2 ^ s).

(** [m / 2 ^ s] rounded to the nearest integer, ties to even. *)
Definition rne (m s : Z) : Z :=
  round_nearest_even (m / 2 ^ s) (loc_code (m mod 2 ^ s) s).

(** The float made of a rounded mantissa of at most 54 digits. *)
Definition pack (s : bool) (m E : Z) : spec_float :=
  match m with
  | Z.pos p =>
      if m <? 9007199254740992 then
        if E <=? emax - prec then S754_finite s p E else S754_infinity s
      else
        if E + 1 <=? emax - prec then S754_finite s 4503599627370496 (E + 1)
        else S754_infinity s
  | _ => S754_zero s
  end.

(** A finite float in units of the smallest subnormal. *)
Definition scaled_value (f : spec_float) : Z :=
  match f with
  | S754_finite s m e => cond_Zopp s (Z.pos m * 2 ^ (e - emin))
  | _ => 0
  end.

(** Neither an infinity nor not-a-number. *)
Definition finite_or_zero (f : spec_float) : bool :=
  match f with
  | S754_zero _ | S754_finite _ _ _ => true
  | _ => false
  end.

(** [r] is the rounding of the integer [z] at exponent [k]. *)
Definition rounded (z k : Z) (r : spec_float) : Prop :=
  match z with
  | Z0 => exists s, r = S754_zero s
  | Z.pos p => r = binary_round prec emax false p k
  | Z.neg p => r = binary_round prec emax true p k
  end.

(** ** Vocabulary of requests, rows and calibration *)

Section RequestVocabulary.
Context {host : Host}.

(** How many random numbers one call of the function draws on a batch of
    [n] rows. *)
Definition draws (fn : error_function) (n : nat) : nat :=
  match family_of fn with
  | Resolution => 0
  | Stochastic | Instability => n
  end.

(** The generator after [n] draws. *)
Definition advance (n : nat) (g : rng) : rng := snd (random_rand n g).

(** Whether the request asks objective [f] at a low fidelity: a level
    that is strictly positive. *)
Definition low_fidelity (kwargs : list (string * Z)) (f : nat) : bool :=
  match lookup_str (Phi_kw f) kwargs with
  | Some level => 0 <? level
  | None => false
  end.

(** The objectives of the loop that are asked at a low fidelity. *)
Definition low_objectives (P : _BaseProblem) (kwargs : list (string * Z)) : list nat :=
  filter (low_fidelity kwargs) (range (n_obj P)).

End RequestVocabulary.

Section SuiteVocabulary.
Context {host : Host}.

(** The problem classes of [RE_problems.py] and [DTLZ_problems.py], the
    scalable ones built with the keyword arguments [a]. *)
Definition problems (a : DTLZ_problems.params) : list _BaseProblem :=
  [RE_problems.RE2_4_1.class; RE_problems.RE3_5_4.class; RE_problems.RE3_4_7.class;
   DTLZ_problems.DTLZ2 a; DTLZ_problems.InvertedDTLZ2 a].

(** Entry [j] of a row, as [x[i, j]] reads it. *)
Definition at_ (r : list float) (j : nat) : float := nth j r nan.

(** What the evaluators of [RE_problems.py] compute from one row. *)
Definition RE2_4_1_row (r : list float) : list float :=
  [RE_problems.RE2_4_1.f1 (at_ r 0) (at_ r 1) (at_ r 2) (at_ r 3);
   RE_problems.RE2_4_1.f2 (at_ r 0) (at_ r 1) (at_ r 2) (at_ r 3)].

Definition RE3_5_4_row (r : list float) : list float :=
  [RE_problems.RE3_5_4.f1 (at_ r 0) (at_ r 1) (at_ r 2) (at_ r 3) (at_ r 4);
   RE_problems.RE3_5_4.f2 (at_ r 0) (at_ r 1) (at_ r 2) (at_ r 3) (at_ r 4);
   RE_problems.RE3_5_4.f3 (at_ r 0) (at_ r 1) (at_ r 2) (at_ r 3) (at_ r 4)].

Definition RE3_4_7_row (r : list float) : list float :=
  [RE_problems.RE3_4_7.f1 (at_ r 0) (at_ r 1) (at_ r 2) (at_ r 3);
   RE_problems.RE3_4_7.f2 (at_ r 0) (at_ r 1) (at_ r 2) (at_ r 3);
   RE_problems.RE3_4_7.f3 (at_ r 0) (at_ r 1) (at_ r 2) (at_ r 3)].

(** The row-wise quantities of the scalable problems: [g] on the last
    variables of a row, and the entries of [s] on its first ones. *)
Definition cos_half (v : float) : float := np_cos (v * np_pi / 2).

Definition g_row (d : nat) (m : list float) : float :=
  (float_of_nat d
   + np_sum (map (fun v => np_power (v - 0.5) 2 - np_cos (20 * np_pi * (v - 0.5))) m))%float.

Definition s_first (a : DTLZ_problems.params) (p : list float) : float :=
  np_power (np_prod (map cos_half p)) (DTLZ_problems.beta a).

Definition s_at (a : DTLZ_problems.params) (p : list float) (i : nat) : float :=
  np_power (np_prod (map cos_half (firstn i p)) * np_sin (at_ p i * np_pi / 2))
           (DTLZ_problems.beta a).

(** The row of [s] for a row of the batch, [M] the number of position
    variables: the product of all cosines, then the entries for the
    indices [M - 1] down to [0]. *)
Definition s_row (a : DTLZ_problems.params) (M : nat) (r : list float) : list float :=
  s_first a (firstn M r) :: map (s_at a r) (rev (seq 0 M)).

Definition DTLZ2_row (a : DTLZ_problems.params) (M d : nat) (r : list float) : list float :=
  map (fun sj => (1 + g_row d (skipn M r)) * sj)%float (s_row a M r).

Definition InvertedDTLZ2_row (a : DTLZ_problems.params) (M d : nat) (r : list float)
    : list float :=
  map (fun sj => (1 + g_row d (skipn M r)) * (1 - sj))%float (s_row a M r).

End SuiteVocabulary.

Section CalibrationVocabulary.
Context {host : Host}.

(** The classes of [MOMF_problems.py], built with one error function
    and, for the two scalable ones, the keyword arguments [a]. *)
Definition suite (fn : error_function) (a : DTLZ_problems.params) : list _MF_Base :=
  [MOMF_problems.MOMF2_4_1a fn; MOMF_problems.MOMF2_4_1b fn;
   MOMF_problems.MOMF2_4_1c fn; MOMF_problems.MOMF2_4_1d fn;
   MOMF_problems.MOMF3_4_1 fn; MOMF_problems.MOMF3_5_1 fn;
   MOMF_problems.MOMF3_7_1 fn a; MOMF_problems.MOMF3_7_2 fn a].

(** The error functions the dictionaries [mf_def] have an entry for. *)
Definition calibrated : list error_function :=
  [Fn_e_r1; Fn_e_r2; Fn_e_r3; Fn_e_s1; Fn_e_s2; Fn_e_s3; Fn_e_s4].

(** An entry of [mf_def] that lists the levels [1], ..., [L], with
    fidelity parameters that decrease with the level, from below 10000
    down to 5000 at level [L], and a positive scale for each of the
    objectives [f1], ..., [f<m>]. *)
Definition well_calibrated (L : Z) (m : nat) (c : calibration) : Prop :=
  (forall level, lookup_int level (Phi c) <> None <-> 1 <= level <= L) /\
  (forall l1 l2 p1 p2,
      lookup_int l1 (Phi c) = Some p1 -> lookup_int l2 (Phi c) = Some p2 ->
      l1 < l2 -> p2 < p1) /\
  (forall level p, lookup_int level (Phi c) = Some p -> 5000 <= p < 10000) /\
  lookup_int L (Phi c) = Some 5000 /\
  (forall f, (f < m)%nat ->
     exists sc, lookup_str (f_kw f) (scale c) = Some sc /\ (0 <? sc)%float = true) /\
  length (scale c) = m.

End CalibrationVocabulary.

Section BoxVocabulary.

(** A bound pair [evaluate_MF] can normalise on: the lower bound below
    the upper one, and twice the width a finite float. *)
Definition proper_bounds (b : float * float) : Prop :=
  (fst b <? snd b)%float = true /\ is_finite (2 * (snd b - fst b)) = true.

(** A value between the bounds of its variable. *)
Definition within (v : float) (b : float * float) : Prop :=
  (fst b <=? v)%float = true /\ (v <=? snd b)%float = true.

(** A value of the interval [[-1, 1]]. *)
Definition in_unit_box (v : float) : Prop :=
  (-1 <=? v)%float = true /\ (v <=? 1)%float = true.

End BoxVocabulary.

Section NoiseVocabulary.
Context {host : Host}.

(** A number [np.random.rand] may draw: a float of the unit interval. *)
Definition unit_draw (r : float) : Prop := within r (0, 1)%float.

(** The noise amplitude [sigma] of the stochastic errors, from the
    fidelity parameter as a float: linear in it for [e_s1] and [e_s3],
    exponential for [e_s2] and [e_s4]. *)
Definition sigma_of (fn : error_function) (pf : float) : float :=
  match fn with
  | Fn_e_s2 | Fn_e_s4 => 0.1 * np_exp (-0.0005 * pf)
  | _ => 0.1 * (1 - 0.0001 * pf)
  end.

End NoiseVocabulary.

Module SampleNoise.
#[local] Existing Instance SeriesHost.host.

(** What [e_s2] returns on the sample batch, and the generator it
    leaves. *)
Definition s2_run : list float * Z :=
  Eval vm_compute in
    match call2 Fn_e_s2 Sample.bars 5891 Sample.seed with
    | inr p => p
    | inl _ => ([], 0)
    end.

End SampleNoise.

(** * Properties *)

(** ** Lists and arrays *)

Section ArrayFacts.

Lemma zip_with_length {A B C} (f : A -> B -> C) (l : list A) (m : list B) :
  length (zip_with f l m) = Nat.min (length l) (length m).
Proof.
  revert m; induction l as [|a l IH]; intros [|b m]; simpl; auto.
Qed.

Lemma zip_with_map_l {A A' B C} (f : A' -> B -> C) (h : A -> A')
    (l : list A) (m : list B) :
  zip_with f (map h l) m = zip_with (fun a b => f (h a) b) l m.
Proof.
  revert m; induction l as [|a l IH]; intros [|b m]; simpl; auto.
  now rewrite IH.
Qed.

Lemma map_zip_with {A B C D} (h : C -> D) (f : A -> B -> C)
    (l : list A) (m : list B) :
  map h (zip_with f l m) = zip_with (fun a b => h (f a b)) l m.
Proof.
  revert m; induction l as [|a l IH]; intros [|b m]; simpl; auto.
  now rewrite IH.
Qed.

Lemma set_nth_length j a r : length (set_nth j a r) = length r.
Proof.
  revert j; induction r as [|b r IH]; intros [|j]; simpl; auto.
Qed.

Lemma nth_set_nth_other j i a r :
  i <> j -> nth i (set_nth j a r) nan = nth i r nan.
Proof.
  revert j i; induction r as [|b r IH]; intros [|j] [|i] Hij; simpl;
    try congruence; auto.
Qed.

Lemma nth_error_set_nth_same j a r :
  (j < length r)%nat -> nth_error (set_nth j a r) j = Some a.
Proof.
  revert j; induction r as [|b r IH]; intros [|j] Hj; simpl in *; try lia; auto.
  apply IH; lia.
Qed.

Lemma nth_set_nth_same j a r :
  (j < length r)%nat -> nth j (set_nth j a r) nan = a.
Proof.
  revert j; induction r as [|b r IH]; intros [|j] Hj; simpl in *; try lia; auto.
  apply IH; lia.
Qed.

(** What [setcol] returns, whichever way the value was broadcast. *)
Lemma setcol_inv x j v y :
  setcol x j v = ok y ->
  (j < shape1 x)%nat /\
  exists w, length w = shape0 x /\
    (length v = shape0 x /\ w = v \/
     length v <> shape0 x /\ length v = 1%nat /\ w = repeat (nth 0 v nan) (shape0 x)) /\
    y = mk_ndarray (shape1 x) (zip_with (fun r a => set_nth j a r) (rows x) w).
Proof.
  unfold setcol, ok, raise.
  destruct (j <? shape1 x)%nat eqn:Hj; [|discriminate].
  apply Nat.ltb_lt in Hj.
  destruct (length v =? shape0 x)%nat eqn:Hv.
  - apply Nat.eqb_eq in Hv. intros [= <-]. split; [exact Hj|].
    exists v; repeat split; auto.
  - apply Nat.eqb_neq in Hv.
    destruct (length v =? 1)%nat eqn:H1; [|discriminate].
    apply Nat.eqb_eq in H1. intros [= <-]. split; [exact Hj|].
    exists (repeat (nth 0 v nan) (shape0 x)); repeat split.
    + apply repeat_length.
    + right; auto.
    + f_equal. unfold shape0.
      induction (rows x) as [|r rs IH]; simpl; [reflexivity|].
      now rewrite IH.
Qed.

Lemma setcol_shape x j v y :
  setcol x j v = ok y -> shape1 y = shape1 x /\ shape0 y = shape0 x.
Proof.
  intros H. destruct (setcol_inv _ _ _ _ H) as (_ & w & Hw & _ & ->).
  split; [reflexivity|]. unfold shape0; simpl.
  rewrite zip_with_length. unfold shape0 in Hw. lia.
Qed.

Lemma setcol_well_shaped x j v y :
  setcol x j v = ok y -> well_shaped x -> well_shaped y.
Proof.
  intros H Hx. destruct (setcol_inv _ _ _ _ H) as (_ & w & _ & _ & ->).
  clear H. unfold well_shaped in *; simpl. revert w.
  induction Hx as [|r rs Hr Hrs IH]; intros [|a w]; simpl; constructor.
  - now rewrite set_nth_length.
  - apply IH.
Qed.

(** Assigning column [j] leaves every other column as it was. *)
Lemma setcol_column_other x j v y i :
  setcol x j v = ok y -> i <> j -> column y i = column x i.
Proof.
  intros H Hij. destruct (setcol_inv _ _ _ _ H) as (_ & w & Hw & _ & ->).
  clear H. unfold column, shape0 in *; simpl. revert w Hw.
  induction (rows x) as [|r rs IH]; intros [|a w] Hw; simpl in *; try discriminate; auto.
  rewrite nth_set_nth_other by exact Hij. f_equal. apply IH. lia.
Qed.

(** Column [j] then holds the assigned values, one in each row. *)
Lemma setcol_column_same x j v y :
  setcol x j v = ok y -> well_shaped x -> length v = shape0 x -> column y j = v.
Proof.
  intros H Hx Hv. destruct (setcol_inv _ _ _ _ H) as (Hj & w & Hw & Hcase & ->).
  assert (w = v) as -> by (destruct Hcase as [[_ ?]|[? _]]; [assumption|contradiction]).
  unfold column, shape0, well_shaped in *; simpl. clear Hcase Hw H. revert v Hv.
  induction Hx as [|r rs Hr Hrs IH]; intros [|a v] Hv; simpl in *; try discriminate; auto.
  rewrite nth_set_nth_same by lia. f_equal. apply IH. lia.
Qed.

Lemma setcol_rows_same x j v y :
  setcol x j v = ok y -> well_shaped x ->
  Forall (fun a => In a v) (column y j) /\
  Forall (fun r => exists a, nth_error r j = Some a /\ In a v) (rows y).
Proof.
  intros H Hx. destruct (setcol_inv _ _ _ _ H) as (Hj & w & Hw & Hcase & ->).
  assert (Hin : forall a, In a w -> In a v).
  { destruct Hcase as [[_ ->]|(Hne & H1 & ->)]; [auto|].
    intros a Ha. apply repeat_spec in Ha. subst a.
    destruct v as [|b [|? ?]]; simpl in *; try discriminate. now left. }
  unfold column, shape0, well_shaped in *; simpl. clear Hcase H. revert w Hw Hin.
  induction Hx as [|r rs Hr Hrs IH]; intros [|a w] Hw Hin; simpl in *;
    try discriminate; [split; constructor|].
  destruct (IH w) as [IH1 IH2]; [lia| intros; apply Hin; now right |].
  split; constructor; auto.
  - rewrite nth_set_nth_same by lia. apply Hin; now left.
  - exists a. split; [apply nth_error_set_nth_same; lia | apply Hin; now left].
Qed.

Lemma getcol_inv x j c :
  getcol x j = ok c -> (j < shape1 x)%nat /\ c = column x j.
Proof.
  unfold getcol, ok, raise. destruct (j <? shape1 x)%nat eqn:Hj; [|discriminate].
  apply Nat.ltb_lt in Hj. now intros [= <-].
Qed.

Lemma column_length x j : length (column x j) = shape0 x.
Proof. unfold column, shape0. apply length_map. Qed.

Lemma bcast_vec_same f u v :
  length u = length v -> bcast_vec f u v = ok (zip_with f u v).
Proof.
  intros H. unfold bcast_vec. now rewrite (proj2 (Nat.eqb_eq _ _) H).
Qed.

End ArrayFacts.

(** ** Inversion of the monadic plumbing *)

Section Plumbing.
Context {host : Host}.

Lemma rbind_ok {A B} (c : res A) (k : A -> res B) b :
  rbind c k = ok b -> exists a, c = ok a /\ k a = ok b.
Proof. destruct c as [e|a]; simpl; [discriminate|]. intros H; now exists a. Qed.

Lemma mbind_ok {A B} (c : M A) (k : A -> M B) g b g' :
  mbind c k g = ok (b, g') ->
  exists a g1, c g = ok (a, g1) /\ k a g1 = ok (b, g').
Proof.
  unfold mbind. destruct (c g) as [e|[a g1]]; [discriminate|].
  intros H; now exists a, g1.
Qed.

Lemma mbind_raise {A B} (c : M A) (k : A -> M B) g e :
  c g = inl e -> mbind c k g = inl e.
Proof. unfold mbind. now intros ->. Qed.

Lemma mbind_step {A B} (c : M A) (k : A -> M B) g a g1 :
  c g = ok (a, g1) -> mbind c k g = k a g1.
Proof. unfold mbind. now intros ->. Qed.

Lemma lift_ok {A} (c : res A) g a g' :
  lift c g = ok (a, g') -> c = ok a /\ g' = g.
Proof. unfold lift, ok. destruct c; [discriminate|]. now intros [= -> ->]. Qed.

Lemma mret_ok {A} (a b : A) g g' : mret a g = ok (b, g') -> b = a /\ g' = g.
Proof. unfold mret, ok. now intros [= -> ->]. Qed.

Lemma getitem_str_ok {V} (d : list (string * V)) k v :
  getitem_str d k = ok v <-> lookup_str k d = Some v.
Proof.
  unfold getitem_str, ok, raise. destruct (lookup_str k d); split; congruence.
Qed.

Lemma getitem_int_ok {V} (d : list (Z * V)) k v :
  getitem_int d k = ok v <-> lookup_int k d = Some v.
Proof.
  unfold getitem_int, ok, raise. destruct (lookup_int k d); split; congruence.
Qed.

End Plumbing.

(** Splits a successful sequence of binds in a hypothesis into its steps. *)
Ltac step_ok H :=
  let a := fresh "a" in
  let g1 := fresh "g" in
  let H1 := fresh "Hstep" in
  first
    [ apply mbind_ok in H; destruct H as (a & g1 & H1 & H)
    | apply rbind_ok in H; destruct H as (a & H1 & H) ].

(** ** The loop of [evaluate_MF] *)

Section MFLoop.
Context {host : Host}.
Variable P : _MF_Base.
Variable n : nat.
Variable x_s : ndarray.
Variable kwargs : list (string * Z).

Lemma MF_objective_ok FM f g FM' g' :
  MF_objective P n x_s kwargs FM f g = ok (FM', g') ->
  pass P n x_s kwargs FM f g FM' g'.
Proof.
  unfold MF_objective. intros H.
  destruct (lookup_str (Phi_kw f) kwargs) as [level|] eqn:Hk.
  - destruct (0 <? level) eqn:Hl.
    + apply Z.ltb_lt in Hl.
      step_ok H. apply lift_ok in Hstep as [He ->]. apply getitem_str_ok in He.
      step_ok H. apply lift_ok in Hstep as [Hs ->]. apply getitem_str_ok in Hs.
      step_ok H. apply lift_ok in Hstep as [Hp ->]. apply getitem_int_ok in Hp.
      step_ok H. rename Hstep into Hcall.
      step_ok H. apply lift_ok in Hstep as [Hold ->].
      apply getcol_inv in Hold as [Hf ->].
      step_ok H. apply lift_ok in Hstep as [Hnew ->].
      apply lift_ok in H as [Hset ->].
      eapply pass_low; eauto.
    + apply Z.ltb_ge in Hl. apply mret_ok in H as [-> ->].
      eapply pass_high; eauto.
  - apply lift_ok in H as [Hset ->]. now apply pass_missing.
Qed.

(** A pass on objective [f] touches column [f] only, and keeps the shape. *)
Lemma pass_frame FM f g FM' g' i :
  pass P n x_s kwargs FM f g FM' g' -> i <> f -> column FM' i = column FM i.
Proof.
  intros [Hk Hset _|level Hk Hl -> _|level entry sc phi e new Hk Hl He Hs Hp Hc Hn Hf Hset] Hi;
    try reflexivity; eapply setcol_column_other; eauto.
Qed.

Lemma pass_shape FM f g FM' g' :
  pass P n x_s kwargs FM f g FM' g' ->
  shape1 FM' = shape1 FM /\ shape0 FM' = shape0 FM /\ (well_shaped FM -> well_shaped FM').
Proof.
  intros [Hk Hset _|level Hk Hl -> _|level entry sc phi e new Hk Hl He Hs Hp Hc Hn Hf Hset];
    try (now repeat split);
    destruct (setcol_shape _ _ _ _ Hset); repeat split; auto;
    intros; eapply setcol_well_shaped; eauto.
Qed.

Lemma MF_loop_app pre post FM g :
  MF_loop P n x_s kwargs (pre ++ post) FM g =
  mbind (MF_loop P n x_s kwargs pre FM) (MF_loop P n x_s kwargs post) g.
Proof.
  revert FM g; induction pre as [|f pre IH]; intros FM g; simpl.
  - reflexivity.
  - unfold mbind.
    destruct (MF_objective P n x_s kwargs FM f g) as [e|[FM1 g1]]; [reflexivity|].
    now rewrite IH.
Qed.

Lemma MF_loop_frame fs FM g FM' g' i :
  MF_loop P n x_s kwargs fs FM g = ok (FM', g') -> ~ In i fs ->
  column FM' i = column FM i.
Proof.
  revert FM g; induction fs as [|f fs IH]; intros FM g H Hi; simpl in H.
  - now apply mret_ok in H as [-> _].
  - step_ok H. apply MF_objective_ok in Hstep.
    rewrite (IH _ _ H) by (intros Hin; apply Hi; now right).
    eapply pass_frame; eauto. intros ->; apply Hi; now left.
Qed.

Lemma MF_loop_shape fs FM g FM' g' :
  MF_loop P n x_s kwargs fs FM g = ok (FM', g') ->
  shape1 FM' = shape1 FM /\ shape0 FM' = shape0 FM /\ (well_shaped FM -> well_shaped FM').
Proof.
  revert FM g; induction fs as [|f fs IH]; intros FM g H; simpl in H.
  - apply mret_ok in H as [-> _]. now repeat split.
  - step_ok H. apply MF_objective_ok, pass_shape in Hstep as (H1 & H0 & Hw).
    destruct (IH _ _ H) as (H1' & H0' & Hw').
    repeat split; try congruence. auto.
Qed.

(** The pass that objective [f] gets in a loop over [0 .. m-1], between
    the passes before it and those after it. *)
Lemma MF_loop_split m f FM g FM' g' :
  (f < m)%nat ->
  MF_loop P n x_s kwargs (seq 0 m) FM g = ok (FM', g') ->
  exists FM1 g1 FM2 g2,
    MF_loop P n x_s kwargs (seq 0 f) FM g = ok (FM1, g1) /\
    pass P n x_s kwargs FM1 f g1 FM2 g2 /\
    column FM1 f = column FM f /\
    column FM' f = column FM2 f /\
    shape0 FM1 = shape0 FM /\ shape1 FM1 = shape1 FM /\
    (well_shaped FM -> well_shaped FM1).
Proof.
  intros Hf H.
  replace m with (f + S (m - S f))%nat in H by lia.
  rewrite seq_app, MF_loop_app in H. simpl in H.
  step_ok H. rename a into FM1, g0 into g1, Hstep into Hpre.
  step_ok H. rename a into FM2, g0 into g2.
  apply MF_objective_ok in Hstep.
  exists FM1, g1, FM2, g2.
  destruct (MF_loop_shape _ _ _ _ _ Hpre) as (S1 & S0 & Sw).
  repeat split; auto.
  - eapply MF_loop_frame; eauto. rewrite in_seq. lia.
  - eapply MF_loop_frame; eauto. rewrite in_seq. lia.
Qed.

End MFLoop.

(** ** Binary64 facts *)

(** Hides the powers of two of the goal and the context from [lia]. *)
Ltac abstract_pows :=
  repeat match goal with
         | |- context [2 ^ ?a] =>
             let p := fresh "pw" in
             let E := fresh "Epw" in
             remember (2 ^ a) as p eqn:E in *; clear E
         | H : context [2 ^ ?a] |- _ =>
             let p := fresh "pw" in
             let E := fresh "Epw" in
             remember (2 ^ a) as p eqn:E in *; clear E
         end.

Section Binary64.

Lemma digits2_pos_shift52 m :
  Zpos (digits2_pos (4503599627370496 * m)) = Zpos (digits2_pos m) + 52.
Proof. cbn [Pos.mul]. cbn [digits2_pos]. lia. Qed.

Lemma shr_52 m :
  iter_pos shr_1 52 (shr_record_of_loc (Zpos (4503599627370496 * m)) loc_Exact)
  = {| shr_m := Zpos m; shr_r := false; shr_s := false |}.
Proof. reflexivity. Qed.

(** Multiplying by [1.0] returns the operand, whatever it is. *)
Lemma float_mul_1_r (x : float) : (x * 1)%float = x.
Proof.
  apply Prim2SF_inj. rewrite mul_spec.
  pose proof (Prim2SF_valid x) as Hv.
  replace (Prim2SF 1) with (S754_finite false 4503599627370496 (-52)) by reflexivity.
  destruct (Prim2SF x) as [s|s| |s m e]; simpl.
  - now rewrite xorb_false_r.
  - now rewrite xorb_false_r.
  - reflexivity.
  - rewrite xorb_false_r.
    unfold valid_binary, bounded, canonical_mantissa in Hv.
    apply andb_true_iff in Hv as [Hc He].
    apply Z.eqb_eq in Hc.
    rewrite Pos.mul_comm.
    unfold binary_round_aux, shr_fexp.
    unfold Zdigits2 at 1.
    rewrite digits2_pos_shift52.
    replace (Z.pos (digits2_pos m) + 52 + (e + -52)) with (Z.pos (digits2_pos m) + e) by lia.
    rewrite Hc.
    replace (e - (e + -52)) with 52 by lia.
    unfold shr at 1.
    rewrite !shr_52.
    cbn [shr_m loc_of_shr_record shr_r shr_s round_nearest_even].
    unfold Zdigits2.
    replace (e + -52 + 52) with e by lia.
    rewrite Hc, Z.sub_diag.
    cbn [shr shr_record_of_loc shr_m].
    now rewrite He.
Qed.

Lemma nan_mul_1 : (nan * 1)%float = nan.
Proof. reflexivity. Qed.

Lemma finite_cases x :
  is_finite x = true ->
  (exists s, Prim2SF x = S754_zero s) \/ (exists s m e, Prim2SF x = S754_finite s m e).
Proof.
  unfold is_finite, is_nan, is_infinity. rewrite !FloatAxioms.eqb_spec, abs_spec.
  replace (Prim2SF infinity) with (S754_infinity false) by reflexivity.
  destruct (Prim2SF x) as [s|s| |s m e]; simpl; try discriminate; eauto.
  - destruct s; discriminate.
Qed.

Lemma div_eucl_pair a b : Z.div_eucl a b = (a / b, a mod b).
Proof. unfold Z.div, Z.modulo. now destruct (Z.div_eucl a b). Qed.

Lemma shr_51 m :
  iter_pos shr_1 51 (shr_record_of_loc (Zpos (4503599627370496 * m)) loc_Exact)
  = {| shr_m := Zpos m~0; shr_r := false; shr_s := false |}.
Proof. reflexivity. Qed.

(** The double of a finite non-zero float with a full mantissa. *)
Lemma double_normal s m e :
  Z.pos (digits2_pos m) = prec -> emin <= e ->
  SF64mul (S754_finite false 4503599627370496 (-51)) (S754_finite s m e)
  = if e + 1 <=? emax - prec then S754_finite s m (e + 1) else S754_infinity s.
Proof.
  intros Hd He. unfold emin in He.
  unfold SF64mul, SFmul. cbn [xorb].
  unfold binary_round_aux, shr_fexp. unfold Zdigits2 at 1.
  rewrite digits2_pos_shift52. unfold fexp, emin.
  replace (Z.max (Z.pos (digits2_pos m) + 52 + (-51 + e) - prec) (3 - emax - prec) - (-51 + e))
    with 52 by lia.
  unfold shr at 1. rewrite !shr_52.
  cbn [shr_m loc_of_shr_record shr_r shr_s round_nearest_even]. unfold Zdigits2.
  replace (Z.max (Z.pos (digits2_pos m) + (-51 + e + 52) - prec) (3 - emax - prec) - (-51 + e + 52))
    with 0 by lia.
  cbn [shr shr_record_of_loc shr_m].
  now replace (-51 + e + 52) with (e + 1) by lia.
Qed.

(** The double of a subnormal float. *)
Lemma double_subnormal s m :
  Z.pos (digits2_pos m) < prec ->
  SF64mul (S754_finite false 4503599627370496 (-51)) (S754_finite s m emin)
  = S754_finite s m~0 emin.
Proof.
  intros Hd.
  unfold SF64mul, SFmul. cbn [xorb].
  unfold binary_round_aux, shr_fexp. unfold Zdigits2 at 1.
  rewrite digits2_pos_shift52. unfold fexp, emin.
  replace (Z.max (Z.pos (digits2_pos m) + 52 + (-51 + (3 - emax - prec)) - prec) (3 - emax - prec)
           - (-51 + (3 - emax - prec)))
    with 51 by lia.
  unfold shr at 1. rewrite !shr_51.
  cbn [shr_m loc_of_shr_record shr_r shr_s round_nearest_even]. unfold Zdigits2.
  cbn [digits2_pos].
  replace (Z.max (Z.pos (Pos.succ (digits2_pos m)) + (-51 + (3 - emax - prec) + 51) - prec)
             (3 - emax - prec) - (-51 + (3 - emax - prec) + 51))
    with 0 by lia.
  cbn [shr shr_record_of_loc shr_m].
  replace (-51 + (3 - emax - prec) + 51) with (3 - emax - prec) by lia.
  reflexivity.
Qed.

Lemma new_location_exact m : new_location (Zpos m) 0 = loc_Exact.
Proof. unfold new_location. now destruct (Z.even (Z.pos m)). Qed.

Lemma div_core_double m1 e1 m e :
  Z.pos (digits2_pos m1) + e1 = Z.pos (digits2_pos m) + e + 1 ->
  0 <= e1 - e <= 1 ->
  Z.pos m1 * 2 ^ (e1 - e) = Z.pos m * 2 ->
  SFdiv_core_binary prec emax (Z.pos m1) e1 (Z.pos m) e
  = (9007199254740992, -52, loc_Exact).
Proof.
  intros Hd He Hv. unfold SFdiv_core_binary. cbv zeta. unfold Zdigits2.
  replace (Z.pos (digits2_pos m1) + e1 - (Z.pos (digits2_pos m) + e)) with 1 by lia.
  change (fexp prec emax 1) with (-52).
  replace (Z.min (-52) (e1 - e)) with (-52) by lia.
  assert (Hs : Z.shiftl (Z.pos m1) (e1 - e - -52) = 9007199254740992 * Z.pos m).
  { rewrite Z.shiftl_mul_pow2 by lia.
    replace (e1 - e - -52) with ((e1 - e) + 52) by lia.
    rewrite Z.pow_add_r by lia. rewrite Z.mul_assoc, Hv.
    change (2 ^ 52) with 4503599627370496. lia. }
  assert (Hpos : exists p, e1 - e - -52 = Z.pos p).
  { destruct (e1 - e - -52) eqn:E; try lia. now exists p. }
  destruct Hpos as [p Hp]. rewrite Hp in *. rewrite Hs.
  rewrite div_eucl_pair, Z.div_mul, Z.mod_mul by lia.
  now rewrite new_location_exact.
Qed.

Lemma div_double s m1 e1 m e :
  Z.pos (digits2_pos m1) + e1 = Z.pos (digits2_pos m) + e + 1 ->
  0 <= e1 - e <= 1 ->
  Z.pos m1 * 2 ^ (e1 - e) = Z.pos m * 2 ->
  SF64div (S754_finite s m1 e1) (S754_finite s m e) = Prim2SF 2.
Proof.
  intros Hd He Hv. unfold SF64div, SFdiv.
  rewrite (div_core_double _ _ _ _ Hd He Hv), xorb_nilpotent.
  reflexivity.
Qed.

Lemma canonical_cases s m e :
  valid_binary (S754_finite s m e) = true ->
  (Z.pos (digits2_pos m) = prec /\ emin <= e) \/
  (Z.pos (digits2_pos m) < prec /\ e = emin).
Proof.
  unfold valid_binary, bounded, canonical_mantissa. intros Hv.
  apply andb_true_iff in Hv as [Hc _]. apply Z.eqb_eq in Hc.
  unfold fexp, emin in *. lia.
Qed.

Lemma double_div d :
  is_zero d = false -> is_finite (2 * d) = true -> (2 * d / d)%float = 2%float.
Proof.
  intros Hz Hf. apply Prim2SF_inj. rewrite div_spec.
  pose proof (finite_cases _ Hf) as Hfin. rewrite mul_spec in Hfin. rewrite mul_spec.
  pose proof (Prim2SF_valid d) as Hv.
  unfold is_zero in Hz. rewrite FloatAxioms.eqb_spec in Hz.
  replace (Prim2SF 0) with (S754_zero false) in Hz by reflexivity.
  replace (Prim2SF 2) with (S754_finite false 4503599627370496 (-51)) in * by reflexivity.
  destruct (Prim2SF d) as [s|s| |s m e].
  - discriminate Hz.
  - exfalso. cbn in Hfin. destruct Hfin as [[? H]|(? & ? & ? & H)]; discriminate H.
  - exfalso. cbn in Hfin. destruct Hfin as [[? H]|(? & ? & ? & H)]; discriminate H.
  - destruct (canonical_cases _ _ _ Hv) as [[Hd He]|[Hd ->]].
    + rewrite (double_normal s m e Hd He) in *.
      destruct (e + 1 <=? emax - prec).
      * apply div_double; [lia|lia|].
        replace (e + 1 - e) with 1 by lia. lia.
      * exfalso. destruct Hfin as [[? H]|(? & ? & ? & H)]; discriminate H.
    + rewrite (double_subnormal s m Hd).
      apply div_double; [cbn [digits2_pos]; lia|lia|].
      rewrite Z.sub_diag. cbn [Z.pow]. lia.
Qed.

(** The upper bound is sent to [1]. *)
Lemma upper_endpoint lo hi :
  is_zero (hi - lo) = false -> is_finite (2 * (hi - lo)) = true ->
  scale_entry hi lo hi = 1%float.
Proof.
  intros Hz Hf. unfold scale_entry.
  change (float_of_Z (1 - -1)) with 2%float.
  now rewrite (double_div _ Hz Hf).
Qed.

(** *** Rounding, seen on mantissas and exponents *)

Lemma digits2_pos_bounds m :
  2 ^ (Zpos (digits2_pos m) - 1) <= Zpos m < 2 ^ Zpos (digits2_pos m).
Proof.
  induction m as [m IH|m IH|]; cbn [digits2_pos].
  - rewrite !Pos2Z.inj_succ, Pos2Z.inj_xI.
    replace (Z.succ (Z.pos (digits2_pos m)) - 1) with (Z.succ (Z.pos (digits2_pos m) - 1)) by lia.
    rewrite !Z.pow_succ_r by lia. abstract_pows. lia.
  - rewrite !Pos2Z.inj_succ. change (Z.pos m~0) with (2 * Z.pos m).
    replace (Z.succ (Z.pos (digits2_pos m)) - 1) with (Z.succ (Z.pos (digits2_pos m) - 1)) by lia.
    rewrite !Z.pow_succ_r by lia. abstract_pows. lia.
  - cbn. lia.
Qed.

Lemma Zdigits2_le_pow2 m a : 0 <= m <= 2 ^ a -> 0 <= a -> Zdigits2 m <= a + 1.
Proof.
  intros [H0 H] Ha. destruct m as [|p|p]; cbn; try lia.
  pose proof (digits2_pos_bounds p) as [Hl _].
  destruct (Z_lt_le_dec (a + 1) (Z.pos (digits2_pos p))) as [Hlt|]; [|lia].
  exfalso.
  assert (Hp : 2 ^ (a + 1) <= 2 ^ (Z.pos (digits2_pos p) - 1))
    by (apply Z.pow_le_mono_r; lia).
  rewrite Z.pow_add_r in Hp by lia.
  assert (0 < 2 ^ a) by (apply Z.pow_pos_nonneg; lia).
  change (2 ^ 1) with 2 in Hp. abstract_pows. lia.
Qed.

Lemma Zdigits2_lt_pow2 m a : 0 <= m < 2 ^ a -> 0 <= a -> Zdigits2 m <= a.
Proof.
  intros [H0 H] Ha. destruct m as [|p|p]; cbn; try lia.
  pose proof (digits2_pos_bounds p) as [Hl _].
  destruct (Z_lt_le_dec a (Z.pos (digits2_pos p))) as [Hlt|]; [|lia].
  exfalso.
  assert (Hp : 2 ^ a <= 2 ^ (Z.pos (digits2_pos p) - 1))
    by (apply Z.pow_le_mono_r; lia).
  abstract_pows. lia.
Qed.

Lemma iter_pos_nat {A} (f : A -> A) p x :
  iter_pos f p x = Nat.iter (Pos.to_nat p) f x.
Proof.
  revert x; induction p as [p IH|p IH|]; intros x; cbn [iter_pos].
  - rewrite !IH, Pos2Nat.inj_xI. cbn [Nat.iter].
    rewrite <- Nat.iter_add. replace (Pos.to_nat p + Pos.to_nat p)%nat with (2 * Pos.to_nat p)%nat by lia.
    rewrite Nat.iter_succ_r. reflexivity.
  - rewrite !IH, Pos2Nat.inj_xO. rewrite <- Nat.iter_add.
    now replace (Pos.to_nat p + Pos.to_nat p)%nat with (2 * Pos.to_nat p)%nat by lia.
  - reflexivity.
Qed.

Lemma shr_1_spec mrs :
  0 <= shr_m mrs ->
  shr_m (shr_1 mrs) = shr_m mrs / 2 /\
  shr_r (shr_1 mrs) = Z.odd (shr_m mrs) /\
  shr_s (shr_1 mrs) = inexact mrs.
Proof.
  destruct mrs as [m r s]. unfold inexact. cbn [shr_m shr_r shr_s]. intros Hm.
  destruct m as [|[p|p|]|p]; cbn [shr_1 shr_m shr_r shr_s]; try lia.
  - repeat split. 
  - repeat split. change (Z.pos p~1) with (2 * Z.pos p + 1). apply Z.div_unique with 1; lia.
  - repeat split. change (Z.pos p~0) with (2 * Z.pos p). apply Z.div_unique with 0; lia.
  - repeat split.
Qed.

(** After [k] shifts: the quotient, and whether anything was lost. *)
Lemma shr_iter k mrs :
  0 <= shr_m mrs ->
  shr_m (Nat.iter k shr_1 mrs) = shr_m mrs / 2 ^ Z.of_nat k /\
  (inexact (Nat.iter k shr_1 mrs) = false <->
   inexact mrs = false /\ shr_m mrs mod 2 ^ Z.of_nat k = 0).
Proof.
  intros Hm. induction k as [|k [IHm IHi]].
  - change (Nat.iter 0 shr_1 mrs) with mrs. change (2 ^ Z.of_nat 0) with 1.
    rewrite Z.div_1_r, Z.mod_1_r. tauto.
  - rewrite Nat.iter_succ.
    assert (0 <= shr_m (Nat.iter k shr_1 mrs))
      by (rewrite IHm; apply Z.div_pos; [lia|apply Z.pow_pos_nonneg; lia]).
    destruct (shr_1_spec (Nat.iter k shr_1 mrs) H) as (Em & Er & Es).
    rewrite Nat2Z.inj_succ, Z.pow_succ_r by lia.
    assert (P : 0 < 2 ^ Z.of_nat k) by (apply Z.pow_pos_nonneg; lia).
    split.
    + rewrite Em, IHm, Z.div_div by lia. f_equal. lia.
    + unfold inexact at 1. rewrite Er, Es, IHm. rewrite orb_false_iff, IHi.
      rewrite Z.mul_comm, Z.rem_mul_r by lia.
      set (q := shr_m mrs / 2 ^ Z.of_nat k). set (r := shr_m mrs mod 2 ^ Z.of_nat k).
      pose proof (Z.mod_pos_bound (shr_m mrs) (2 ^ Z.of_nat k) P) as Hr. fold r in Hr.
      pose proof (Z.mod_pos_bound q 2 ltac:(lia)) as Hq.
      rewrite <- Z.negb_even, negb_false_iff, Zeven_mod, Z.eqb_eq.
      assert (Hc : q mod 2 = 0 \/ q mod 2 = 1) by lia.
      destruct Hc as [-> | ->]; rewrite ?Z.mul_0_r, ?Z.mul_1_r; intuition lia.
Qed.

Lemma loc_of_record_of_loc m l : loc_of_shr_record (shr_record_of_loc m l) = l.
Proof. destruct l as [|[]]; reflexivity. Qed.

Lemma shr_m_record_of_loc m l : shr_m (shr_record_of_loc m l) = m.
Proof. destruct l as [|[]]; reflexivity. Qed.

Lemma inexact_record_of_loc m l :
  inexact (shr_record_of_loc m l) = false <-> l = loc_Exact.
Proof. destruct l as [|[]]; cbn; split; congruence. Qed.

Lemma exact_loc mrs : inexact mrs = false <-> loc_of_shr_record mrs = loc_Exact.
Proof. destruct mrs as [m [] []]; cbn; split; congruence. Qed.

Lemma fexp_le j k : emin <= j -> k - prec <= j -> fexp prec emax k <= j.
Proof. unfold fexp. lia. Qed.

Lemma pow2_split a n : 0 <= n <= a -> 2 ^ a = 2 ^ n * 2 ^ (a - n).
Proof. intros H. rewrite <- Z.pow_add_r by lia. f_equal. lia. Qed.

(** One normalising shift keeps a mantissa below a power of two. *)
Lemma shr_fexp_bound m e l j :
  0 <= m -> e <= j -> emin <= j ->
  (m < 2 ^ (j - e) \/ (m = 2 ^ (j - e) /\ l = loc_Exact)) ->
  0 <= shr_m (fst (shr_fexp prec emax m e l)) /\
  e <= snd (shr_fexp prec emax m e l) <= j /\
  (shr_m (fst (shr_fexp prec emax m e l)) < 2 ^ (j - snd (shr_fexp prec emax m e l)) \/
   (shr_m (fst (shr_fexp prec emax m e l)) = 2 ^ (j - snd (shr_fexp prec emax m e l)) /\
    loc_of_shr_record (fst (shr_fexp prec emax m e l)) = loc_Exact)).
Proof.
  intros Hm He Hj Hb. unfold shr_fexp, shr.
  assert (HE : fexp prec emax (Zdigits2 m + e) <= j).
  { apply fexp_le; [exact Hj|].
    assert (Zdigits2 m <= (j - e) + 1) by (apply Zdigits2_le_pow2; lia).
    unfold prec. lia. }
  destruct (fexp prec emax (Zdigits2 m + e) - e) as [|p|p] eqn:En; cbn [fst snd].
  - rewrite shr_m_record_of_loc, loc_of_record_of_loc. repeat split; try lia. exact Hb.
  - rewrite iter_pos_nat.
    destruct (shr_iter (Pos.to_nat p) (shr_record_of_loc m l)) as [Em Ei];
      [now rewrite shr_m_record_of_loc|].
    rewrite shr_m_record_of_loc, positive_nat_Z in *.
    assert (P : 0 < 2 ^ Z.pos p) by (apply Z.pow_pos_nonneg; lia).
    rewrite Em. split; [apply Z.div_pos; lia|]. split; [lia|].
    rewrite (pow2_split (j - e) (Z.pos p)) in Hb by lia.
    replace (j - (e + Z.pos p)) with (j - e - Z.pos p) by lia.
    destruct Hb as [Hlt|[Heq ->]].
    + left. apply Z.div_lt_upper_bound; lia.
    + right.
      assert (Hdiv : m / 2 ^ Z.pos p = 2 ^ (j - e - Z.pos p))
        by (rewrite Heq, Z.mul_comm, Z.div_mul by lia; reflexivity).
      assert (Hmod : m mod 2 ^ Z.pos p = 0)
        by (rewrite Heq, Z.mul_comm; apply Z.mod_mul; lia).
      split; [exact Hdiv|].
      apply exact_loc, Ei. split; [now apply inexact_record_of_loc | exact Hmod].
  - rewrite shr_m_record_of_loc, loc_of_record_of_loc. repeat split; try lia. exact Hb.
Qed.

Lemma round_bound m loc B :
  0 <= m -> (m < B \/ (m = B /\ loc = loc_Exact)) ->
  0 <= round_nearest_even m loc <= B.
Proof.
  intros Hm [Hlt|[-> ->]]; [|cbn; lia].
  destruct loc as [|[]]; cbn; try lia. destruct (Z.even m); lia.
Qed.

(** A value that is at most [2 ^ j] is rounded to at most [2 ^ j]. *)
Lemma binary_round_aux_le_pow2 sx mx ex lx j :
  0 <= mx -> ex <= j -> emin <= j -> j <= emax - prec ->
  (mx < 2 ^ (j - ex) \/ (mx = 2 ^ (j - ex) /\ lx = loc_Exact)) ->
  binary_round_aux prec emax sx mx ex lx = S754_zero sx \/
  exists m e, binary_round_aux prec emax sx mx ex lx = S754_finite sx m e /\
              e <= j /\ Z.pos m <= 2 ^ (j - e).
Proof.
  intros Hm He Hj Hjmax Hb. unfold binary_round_aux.
  pose proof (shr_fexp_bound mx ex lx j Hm He Hj Hb) as (H1m & H1e & H1b).
  destruct (shr_fexp prec emax mx ex lx) as [mrs1 e1]. cbn [fst snd] in *.
  pose proof (round_bound _ _ _ H1m H1b) as [R0 RB].
  set (m1 := round_nearest_even (shr_m mrs1) (loc_of_shr_record mrs1)) in *.
  assert (H2 : m1 < 2 ^ (j - e1) \/ (m1 = 2 ^ (j - e1) /\ loc_Exact = loc_Exact))
    by (destruct (Z.eq_dec m1 (2 ^ (j - e1))); [right; auto | left; lia]).
  pose proof (shr_fexp_bound m1 e1 loc_Exact j R0 (proj2 H1e) Hj H2) as (H2m & H2e & H2b).
  destruct (shr_fexp prec emax m1 e1 loc_Exact) as [mrs2 e2]. cbn [fst snd] in *.
  destruct (shr_m mrs2) as [|m|m] eqn:Em2; [now left| |lia].
  right. exists m, e2.
  assert (Hle : (e2 <=? emax - prec) = true) by (apply Z.leb_le; lia).
  rewrite Hle. repeat split; [lia|]. destruct H2b as [?|[? _]]; lia.
Qed.

Lemma iter_xO m d : Z.pos (Pos.iter xO m d) = Z.pos m * 2 ^ Z.pos d.
Proof.
  induction d as [|d IH] using Pos.peano_ind.
  - cbn [Pos.iter]. change (2 ^ 1) with 2. lia.
  - rewrite Pos.iter_succ, Pos2Z.inj_succ, Z.pow_succ_r by lia.
    change (Z.pos (Pos.iter xO m d)~0) with (2 * Z.pos (Pos.iter xO m d)).
    rewrite IH. lia.
Qed.

(** Aligning a mantissa to a lower exponent keeps the value. *)
Lemma shl_align_spec m e e' :
  snd (shl_align m e e') <= e /\ snd (shl_align m e e') <= Z.max e e' /\
  (e' <= e -> snd (shl_align m e e') = e') /\
  Z.pos (fst (shl_align m e e')) = Z.pos m * 2 ^ (e - snd (shl_align m e e')).
Proof.
  unfold shl_align. destruct (e' - e) as [|d|d] eqn:E; cbn [fst snd].
  - rewrite Z.sub_diag. cbn. lia.
  - rewrite Z.sub_diag. cbn. lia.
  - rewrite iter_xO. replace (e - e') with (Z.pos d) by lia. lia.
Qed.

Lemma div_core_le_two m1 e1 m2 e2 :
  e1 <= e2 + 1 -> Z.pos m1 <= Z.pos m2 * 2 ^ (e2 + 1 - e1) ->
  let '(q, e, l) := SFdiv_core_binary prec emax (Z.pos m1) e1 (Z.pos m2) e2 in
  0 <= q /\ e <= 1 /\ (q < 2 ^ (1 - e) \/ (q = 2 ^ (1 - e) /\ l = loc_Exact)).
Proof.
  intros He Hv. unfold SFdiv_core_binary. cbv zeta.
  set (e' := Z.min _ (e1 - e2)).
  assert (He' : e' <= e1 - e2) by (unfold e'; lia).
  set (s := e1 - e2 - e').
  set (m' := match s with Z0 => Z.pos m1 | Z.pos _ => Z.shiftl (Z.pos m1) s | Z.neg _ => 0 end).
  assert (Hm' : m' = Z.pos m1 * 2 ^ s).
  { unfold m'. destruct s as [|p|p] eqn:Es; [cbn; lia| |lia].
    rewrite Z.shiftl_mul_pow2 by lia. reflexivity. }
  assert (Hs : 0 <= s) by (unfold s; lia).
  assert (Hle : m' <= Z.pos m2 * 2 ^ (1 - e')).
  { rewrite Hm'. replace (1 - e') with ((e2 + 1 - e1) + s) by (unfold s; lia).
    rewrite Z.pow_add_r by lia.
    assert (0 < 2 ^ s) by (apply Z.pow_pos_nonneg; lia). nia. }
  rewrite div_eucl_pair.
  pose proof (Z.div_mod m' (Z.pos m2) ltac:(lia)) as Hdm.
  pose proof (Z.mod_pos_bound m' (Z.pos m2) ltac:(lia)) as Hr.
  assert (Hq0 : 0 <= m' / Z.pos m2).
  { apply Z.div_pos; [|lia]. rewrite Hm'.
    assert (0 < 2 ^ s) by (apply Z.pow_pos_nonneg; lia). nia. }
  split; [exact Hq0|]. split; [lia|].
  assert (P : 0 < 2 ^ (1 - e')) by (apply Z.pow_pos_nonneg; lia).
  destruct (Z_lt_le_dec (m' / Z.pos m2) (2 ^ (1 - e'))) as [Hlt|Hge]; [left; exact Hlt|].
  right.
  assert (Hq : m' / Z.pos m2 = 2 ^ (1 - e')) by nia.
  split; [exact Hq|].
  assert (Hr0 : m' mod Z.pos m2 = 0) by nia.
  rewrite Hr0. unfold new_location, new_location_even, new_location_odd.
  now destruct (Z.even (Z.pos m2)).
Qed.

(** A quotient of two finite floats whose ratio is at most two. *)
Lemma div_le_two s1 m1 e1 s2 m2 e2 :
  e1 <= e2 + 1 -> Z.pos m1 <= Z.pos m2 * 2 ^ (e2 + 1 - e1) ->
  SF64div (S754_finite s1 m1 e1) (S754_finite s2 m2 e2) = S754_zero (xorb s1 s2) \/
  exists m e, SF64div (S754_finite s1 m1 e1) (S754_finite s2 m2 e2)
              = S754_finite (xorb s1 s2) m e /\ e <= 1 /\ Z.pos m <= 2 ^ (1 - e).
Proof.
  intros He Hv. unfold SF64div, SFdiv.
  pose proof (div_core_le_two m1 e1 m2 e2 He Hv) as H.
  destruct (SFdiv_core_binary prec emax (Z.pos m1) e1 (Z.pos m2) e2) as [[q e] l].
  destruct H as (Hq & Hle & Hb).
  apply binary_round_aux_le_pow2; try assumption; cbv; congruence.
Qed.

Lemma binary_round_in_unit s p e :
  e <= 0 -> Z.pos p <= 2 ^ (- e) -> in_unit (binary_round prec emax s p e).
Proof.
  intros He Hp. unfold binary_round.
  pose proof (shl_align_spec p e (fexp prec emax (Z.pos (digits2_pos p) + e)))
    as (H1 & _ & _ & H3).
  destruct (shl_align p e (fexp prec emax (Z.pos (digits2_pos p) + e))) as [mz ez].
  cbn [fst snd] in *.
  assert (Hmz : Z.pos mz <= 2 ^ (0 - ez)).
  { rewrite H3. replace (0 - ez) with (- e + (e - ez)) by lia.
    rewrite Z.pow_add_r by lia.
    assert (0 < 2 ^ (e - ez)) by (apply Z.pow_pos_nonneg; lia). nia. }
  destruct (binary_round_aux_le_pow2 s (Z.pos mz) ez loc_Exact 0) as [H|(m & e' & H & Hl & Hb)];
    try (cbv; congruence); try lia.
  - destruct (Z.eq_dec (Z.pos mz) (2 ^ (0 - ez))); [right; auto | left; lia].
  - left. eauto.
  - right. exists s, m, e'. now rewrite Z.sub_0_l in Hb.
Qed.

(** Subtracting one from a float of [[0, 2]] gives a float of [[-1, 1]]. *)
Lemma add_minus_one_in_unit m e :
  e <= 1 -> Z.pos m <= 2 ^ (1 - e) ->
  in_unit (SF64add (S754_finite false m e) (S754_finite true 4503599627370496 (-52))).
Proof.
  intros He Hm. unfold SF64add, SFadd. cbv zeta.
  set (ez := Z.min e (-52)).
  pose proof (shl_align_spec m e ez) as (_ & _ & A1 & A2).
  pose proof (shl_align_spec 4503599627370496 (-52) ez) as (_ & _ & B1 & B2).
  rewrite A1 in A2 by (unfold ez; lia). rewrite B1 in B2 by (unfold ez; lia).
  cbn [cond_Zopp]. rewrite A2, B2.
  assert (Hez : ez <= -52) by (unfold ez; lia).
  assert (Hb : Z.pos 4503599627370496 * 2 ^ (-52 - ez) = 2 ^ (- ez)).
  { change (Z.pos 4503599627370496) with (2 ^ 52).
    rewrite <- Z.pow_add_r by lia. f_equal. lia. }
  rewrite Hb.
  assert (Ha : 0 < Z.pos m * 2 ^ (e - ez) <= 2 * 2 ^ (- ez)).
  { assert (0 < 2 ^ (e - ez)) by (apply Z.pow_pos_nonneg; unfold ez; lia).
    split; [nia|].
    replace (2 * 2 ^ (- ez)) with (2 ^ (1 - e) * 2 ^ (e - ez)).
    - nia.
    - rewrite <- Z.pow_add_r by (unfold ez; lia).
      replace (1 - e + (e - ez)) with (1 + - ez) by lia.
      rewrite Z.pow_add_r by lia. reflexivity. }
  destruct (Z.pos m * 2 ^ (e - ez) + - 2 ^ (- ez)) as [|p|p] eqn:Ez; cbn [binary_normalize].
  - left. eauto.
  - apply binary_round_in_unit; lia.
  - apply binary_round_in_unit; lia.
Qed.

Lemma pow2_le_inv a b : 0 <= b -> 2 ^ a <= 2 ^ b -> a <= b.
Proof.
  intros Hb H. destruct (Z_lt_le_dec a 0); [lia|].
  apply (Z.pow_le_mono_r_iff 2); lia.
Qed.

(** A float of the unit interval compares as such with [1] and [-1]. *)
Lemma in_unit_leb r :
  valid_binary r = true -> in_unit r ->
  SFleb r (S754_finite false 4503599627370496 (-52)) = true /\
  SFleb (S754_finite true 4503599627370496 (-52)) r = true.
Proof.
  intros Hv [[s ->]|(s & m & e & -> & He & Hm)]; [split; reflexivity|].
  assert (Hc : e < -52 \/ (e = -52 /\ m = 4503599627370496%positive)).
  { destruct (canonical_cases _ _ _ Hv) as [[Hd Hmin]|[Hd ->]]; [|left; reflexivity].
    pose proof (digits2_pos_bounds m) as [Hlo _]. rewrite Hd in Hlo.
    change (2 ^ (prec - 1)) with (2 ^ 52) in Hlo.
    assert (52 <= - e) by (apply pow2_le_inv; lia).
    destruct (Z.eq_dec e (-52)) as [->|]; [right|left; lia].
    split; [reflexivity|]. change (2 ^ (- -52)) with (2 ^ 52) in Hm.
    change (2 ^ 52) with (Z.pos 4503599627370496) in *. lia. }
  unfold SFleb, SFcompare.
  destruct Hc as [Hlt|[-> ->]].
  - destruct s.
    + split; [reflexivity|].
      assert (E : (-52 ?= e) = Gt) by (apply Z.compare_gt_iff; lia). now rewrite E.
    + split; [|reflexivity].
      assert (E : (e ?= -52) = Lt) by (apply Z.compare_lt_iff; lia). now rewrite E.
  - destruct s; split; reflexivity.
Qed.

Lemma emin_le_exponent s m e :
  valid_binary (S754_finite s m e) = true -> emin <= e.
Proof. intros V. destruct (canonical_cases _ _ _ V) as [[_ H]|[_ H]]; lia. Qed.

(** Of two finite floats, the one of smaller exponent is the smaller. *)
Lemma canonical_lt_mantissa s1 m1 e1 s2 m2 e2 :
  valid_binary (S754_finite s1 m1 e1) = true ->
  valid_binary (S754_finite s2 m2 e2) = true ->
  e1 < e2 -> Z.pos m1 < Z.pos m2 * 2 ^ (e2 - e1).
Proof.
  intros V1 V2 E.
  destruct (canonical_cases _ _ _ V1) as [[D1 L1]|[D1 L1]];
    (destruct (canonical_cases _ _ _ V2) as [[D2 L2]|[D2 L2]]; [|lia]).
  all: pose proof (digits2_pos_bounds m1) as [_ U1];
    pose proof (digits2_pos_bounds m2) as [B2 _]; rewrite D2 in B2;
    change (2 ^ (prec - 1)) with 4503599627370496 in B2;
    assert (Z.pos m1 < 9007199254740992)
      by (eapply Z.lt_le_trans; [exact U1|];
          change 9007199254740992 with (2 ^ 53);
          apply Z.pow_le_mono_r; unfold prec in *; lia);
    assert (2 ^ 1 <= 2 ^ (e2 - e1)) by (apply Z.pow_le_mono_r; lia);
    change (2 ^ 1) with 2 in *; nia.
Qed.

Lemma canonical_lt s1 m1 e1 s2 m2 e2 :
  valid_binary (S754_finite s1 m1 e1) = true ->
  valid_binary (S754_finite s2 m2 e2) = true ->
  e1 < e2 -> Z.pos m1 * 2 ^ (e1 - emin) < Z.pos m2 * 2 ^ (e2 - emin).
Proof.
  intros V1 V2 E.
  pose proof (canonical_lt_mantissa _ _ _ _ _ _ V1 V2 E) as H.
  pose proof (emin_le_exponent _ _ _ V1) as L1.
  replace (e2 - emin) with ((e2 - e1) + (e1 - emin)) by lia.
  rewrite Z.pow_add_r, Z.mul_assoc by lia.
  apply Z.mul_lt_mono_pos_r; [apply Z.pow_pos_nonneg; lia|exact H].
Qed.

(** The order of two finite floats, the smaller one positive, read on
    their mantissas and exponents. *)
Lemma leb_finite_pos m1 e1 s2 m2 e2 :
  valid_binary (S754_finite false m1 e1) = true ->
  valid_binary (S754_finite s2 m2 e2) = true ->
  SFleb (S754_finite false m1 e1) (S754_finite s2 m2 e2) = true ->
  s2 = false /\ e1 <= e2 /\ Z.pos m1 <= Z.pos m2 * 2 ^ (e2 - e1).
Proof.
  intros V1 V2. unfold SFleb, SFcompare.
  destruct s2; [discriminate|]. intros H. split; [reflexivity|].
  destruct (e1 ?= e2) eqn:E.
  - apply Z.compare_eq in E. subst e2. rewrite Z.sub_diag. split; [lia|].
    change (Pos.compare_cont Eq m1 m2) with (Z.pos m1 ?= Z.pos m2) in H.
    destruct (Z.pos m1 ?= Z.pos m2) eqn:C; try discriminate.
    + apply Z.compare_eq in C. rewrite Z.pow_0_r. lia.
    + rewrite Z.compare_lt_iff in C. rewrite Z.pow_0_r. lia.
  - rewrite Z.compare_lt_iff in E. split; [lia|].
    pose proof (canonical_lt_mantissa _ _ _ _ _ _ V1 V2 E). lia.
  - discriminate.
Qed.

Lemma finite_double_exponent s m e :
  valid_binary (S754_finite s m e) = true ->
  (exists s' m' e', SF64mul (S754_finite false 4503599627370496 (-51)) (S754_finite s m e)
                    = S754_finite s' m' e') ->
  e = emin \/ e + 1 <= emax - prec.
Proof.
  intros V (s' & m' & e' & H).
  destruct (canonical_cases _ _ _ V) as [[D L]|[D ->]]; [|now left].
  rewrite (double_normal s m e D L) in H.
  destruct (e + 1 <=? emax - prec) eqn:E; [|discriminate].
  right. now apply Z.leb_le.
Qed.

(** The double of a positive finite float, when it does not overflow. *)
Lemma double_cases s m e :
  valid_binary (S754_finite s m e) = true ->
  e + 1 <= emax - prec ->
  exists m' e',
    SF64mul (S754_finite false 4503599627370496 (-51)) (S754_finite s m e)
    = S754_finite s m' e' /\
    e' <= e + 1 /\ Z.pos m' = Z.pos m * 2 ^ (e + 1 - e').
Proof.
  intros V He.
  destruct (canonical_cases _ _ _ V) as [[D L]|[D ->]].
  - rewrite (double_normal s m e D L).
    assert (E : (e + 1 <=? emax - prec) = true) by now apply Z.leb_le.
    rewrite E. exists m, (e + 1). rewrite Z.sub_diag, Z.pow_0_r. repeat split; lia.
  - rewrite (double_subnormal s m D). exists (m~0)%positive, emin.
    replace (emin + 1 - emin) with 1 by lia. change (2 ^ 1) with 2.
    repeat split; lia.
Qed.

(** A batch entry whose computed offset lies between zero and the
    computed width is sent into [[-1, 1]]. *)
Theorem scale_entry_range x lo hi :
  (0 <=? x - lo)%float = true -> (x - lo <=? hi - lo)%float = true ->
  is_zero (hi - lo) = false -> is_finite (2 * (hi - lo)) = true ->
  (-1 <=? scale_entry x lo hi)%float = true /\ (scale_entry x lo hi <=? 1)%float = true.
Proof.
  unfold scale_entry.
  change (float_of_Z (1 - -1)) with 2%float. change (float_of_Z (-1)) with (-1)%float.
  generalize (x - lo)%float (hi - lo)%float. clear. intros n d H0 Hnd Hz Hf.
  pose proof (Prim2SF_valid (2 * n / d + -1)%float) as Vr.
  rewrite !leb_spec. rewrite leb_spec in H0, Hnd.
  rewrite add_spec, div_spec, mul_spec in *.
  pose proof (finite_cases _ Hf) as Hfin. rewrite mul_spec in Hfin.
  pose proof (Prim2SF_valid n) as Vn. pose proof (Prim2SF_valid d) as Vd.
  unfold is_zero in Hz. rewrite FloatAxioms.eqb_spec in Hz.
  replace (Prim2SF 0) with (S754_zero false) in * by reflexivity.
  replace (Prim2SF 2) with (S754_finite false 4503599627370496 (-51)) in * by reflexivity.
  replace (Prim2SF 1) with (S754_finite false 4503599627370496 (-52)) in * by reflexivity.
  replace (Prim2SF (-1)) with (S754_finite true 4503599627370496 (-52)) in * by reflexivity.
  destruct (Prim2SF d) as [sd|sd| |sd md ed].
  - discriminate Hz.
  - exfalso. destruct Hfin as [[? H]|(? & ? & ? & H)]; discriminate H.
  - exfalso. destruct Hfin as [[? H]|(? & ? & ? & H)]; discriminate H.
  - assert (Hed : ed = emin \/ ed + 1 <= emax - prec).
    { apply (finite_double_exponent sd md ed Vd).
      destruct Hfin as [[? H]|H]; [|exact H].
      exfalso. destruct (canonical_cases _ _ _ Vd) as [[D L]|[D ->]].
      - rewrite (double_normal sd md ed D L) in H.
        destruct (ed + 1 <=? emax - prec); discriminate H.
      - rewrite (double_subnormal sd md D) in H. discriminate H. }
    clear Hfin Hz.
    destruct (Prim2SF n) as [sn|sn| |sn mn en].
    + destruct sn, sd; split; reflexivity.
    + exfalso. destruct sn, sd; discriminate.
    + discriminate H0.
    + destruct sn; [discriminate H0|].
      destruct (leb_finite_pos mn en sd md ed Vn Vd Hnd) as (-> & Hen & Hm).
      assert (Hen1 : en + 1 <= emax - prec).
      { destruct Hed as [->|]; [|lia].
        destruct (canonical_cases _ _ _ Vn) as [[_ L]|[_ L]];
          unfold emin, emax, prec in *; lia. }
      destruct (double_cases false mn en Vn Hen1) as (m1 & e1 & E1 & He1 & Hm1).
      rewrite E1 in *.
      destruct (div_le_two false m1 e1 false md ed) as [Eq|(mq & eq & Eq & Heq & Hmq)].
      * lia.
      * rewrite Hm1.
        replace (ed + 1 - e1) with ((ed - en) + (en + 1 - e1)) by lia.
        rewrite Z.pow_add_r by lia.
        assert (0 < 2 ^ (en + 1 - e1)) by (apply Z.pow_pos_nonneg; lia). nia.
      * rewrite Eq in *. split; reflexivity.
      * rewrite Eq in *. cbn [xorb] in *.
        apply in_unit_leb in Vr; [|now apply add_minus_one_in_unit].
        destruct Vr; split; assumption.
Qed.

Lemma loc_of_shr_record_bits mrs :
  loc_of_shr_record mrs =
  match shr_r mrs, shr_s mrs with
  | false, false => loc_Exact
  | false, true => loc_Inexact Lt
  | true, false => loc_Inexact Eq
  | true, true => loc_Inexact Gt
  end.
Proof. now destruct mrs as [m [] []]. Qed.

Lemma inexact_bool b (P : Prop) : (b = false <-> P) -> {b = false /\ P} + {b = true /\ ~ P}.
Proof. destruct b; intros H; [right|left]; intuition congruence. Qed.

(** The location kept by [k] shifts is that of the remainder. *)
Lemma shr_iter_loc k m :
  0 <= m ->
  loc_of_shr_record (Nat.iter k shr_1 (shr_record_of_loc m loc_Exact))
  = loc_code (m mod 2 ^ Z.of_nat k) (Z.of_nat k).
Proof.
  intros Hm. destruct k as [|j].
  - cbn. now rewrite Z.mod_1_r.
  - rewrite Nat.iter_succ.
    destruct (shr_iter j (shr_record_of_loc m loc_Exact)) as [Em Ei];
      [now rewrite shr_m_record_of_loc|].
    rewrite shr_m_record_of_loc in *.
    assert (P : 0 < 2 ^ Z.of_nat j) by (apply Z.pow_pos_nonneg; lia).
    assert (H0 : 0 <= shr_m (Nat.iter j shr_1 (shr_record_of_loc m loc_Exact)))
      by (rewrite Em; apply Z.div_pos; lia).
    destruct (shr_1_spec _ H0) as (_ & Er & Es).
    rewrite loc_of_shr_record_bits, Er, Es, Em.
    pose proof (Z.mod_pos_bound m (2 ^ Z.of_nat j) P) as Ht.
    pose proof (Z.mod_pos_bound (m / 2 ^ Z.of_nat j) 2 ltac:(lia)) as Hb.
    assert (Hrem : m mod 2 ^ Z.of_nat (S j)
                   = m mod 2 ^ Z.of_nat j + 2 ^ Z.of_nat j * ((m / 2 ^ Z.of_nat j) mod 2))
      by (rewrite Nat2Z.inj_succ, Z.pow_succ_r, (Z.mul_comm 2), Z.rem_mul_r by lia;
          reflexivity).
    assert (Hpow : 2 ^ Z.of_nat (S j) = 2 * 2 ^ Z.of_nat j)
      by (rewrite Nat2Z.inj_succ, Z.pow_succ_r by lia; reflexivity).
    unfold loc_code. rewrite Hrem, Hpow. clear Hrem Hpow.
    rewrite <- Z.negb_even, Zeven_mod.
    assert (Hi : inexact (Nat.iter j shr_1 (shr_record_of_loc m loc_Exact)) = false
                 <-> m mod 2 ^ Z.of_nat j = 0).
    { rewrite Ei. split; [tauto|]. intros ->. split; reflexivity. }
    clear Ei Er Es Em H0.
    set (t := m mod 2 ^ Z.of_nat j) in *. set (b := (m / 2 ^ Z.of_nat j) mod 2) in *.
    set (pw := 2 ^ Z.of_nat j) in *.
    destruct (inexact_bool _ _ Hi) as [[-> Ht0]|[-> Ht0]];
      assert (Hc : b = 0 \/ b = 1) by lia; destruct Hc as [-> | ->]; cbn [Z.eqb negb].
    + destruct (Z.eqb_spec (t + pw * 0) 0); [reflexivity|lia].
    + destruct (Z.eqb_spec (t + pw * 1) 0); [lia|].
      assert (E : (2 * (t + pw * 1) ?= 2 * pw) = Eq) by (rewrite Z.compare_eq_iff; lia).
      now rewrite E.
    + destruct (Z.eqb_spec (t + pw * 0) 0); [lia|].
      assert (E : (2 * (t + pw * 0) ?= 2 * pw) = Lt) by (rewrite Z.compare_lt_iff; lia).
      now rewrite E.
    + destruct (Z.eqb_spec (t + pw * 1) 0); [lia|].
      assert (E : (2 * (t + pw * 1) ?= 2 * pw) = Gt) by (rewrite Z.compare_gt_iff; lia).
      now rewrite E.
Qed.

(** The first normalising shift of an exact mantissa. *)
Lemma shr_fexp_exact m e :
  0 <= m -> e <= fexp prec emax (Zdigits2 m + e) ->
  snd (shr_fexp prec emax m e loc_Exact) = fexp prec emax (Zdigits2 m + e) /\
  round_nearest_even (shr_m (fst (shr_fexp prec emax m e loc_Exact)))
    (loc_of_shr_record (fst (shr_fexp prec emax m e loc_Exact)))
  = rne m (fexp prec emax (Zdigits2 m + e) - e).
Proof.
  intros Hm He. unfold shr_fexp, shr, rne.
  destruct (fexp prec emax (Zdigits2 m + e) - e) as [|p|p] eqn:En; cbn [fst snd]; [| |lia].
  - split; [lia|]. change (2 ^ 0) with 1. rewrite Z.div_1_r, Z.mod_1_r. reflexivity.
  - split; [lia|]. rewrite iter_pos_nat.
    destruct (shr_iter (Pos.to_nat p) (shr_record_of_loc m loc_Exact)) as [Em _];
      [now rewrite shr_m_record_of_loc|].
    rewrite shr_iter_loc by exact Hm.
    rewrite Em, shr_m_record_of_loc, positive_nat_Z. reflexivity.
Qed.

Lemma round_nearest_even_bounds q l :
  q <= round_nearest_even q l <= q + 1.
Proof. destruct l as [|[]]; cbn; try lia. destruct (Z.even q); lia. Qed.

Lemma rne_bounds m s : m / 2 ^ s <= rne m s <= m / 2 ^ s + 1.
Proof. apply round_nearest_even_bounds. Qed.

(** Rounding to the nearest integer is monotone, whatever the two scales. *)
Lemma rne_mono m1 s1 m2 s2 :
  0 <= s1 -> 0 <= s2 -> m1 * 2 ^ s2 <= m2 * 2 ^ s1 -> rne m1 s1 <= rne m2 s2.
Proof.
  intros Hs1 Hs2 H.
  assert (P1 : 0 < 2 ^ s1) by (apply Z.pow_pos_nonneg; lia).
  assert (P2 : 0 < 2 ^ s2) by (apply Z.pow_pos_nonneg; lia).
  pose proof (Z.div_mod m1 (2 ^ s1) ltac:(lia)) as D1.
  pose proof (Z.div_mod m2 (2 ^ s2) ltac:(lia)) as D2.
  pose proof (Z.mod_pos_bound m1 (2 ^ s1) P1) as R1.
  pose proof (Z.mod_pos_bound m2 (2 ^ s2) P2) as R2.
  pose proof (rne_bounds m1 s1) as B1. pose proof (rne_bounds m2 s2) as B2.
  unfold rne, loc_code in *.
  set (q1 := m1 / 2 ^ s1) in *. set (r1 := m1 mod 2 ^ s1) in *.
  set (q2 := m2 / 2 ^ s2) in *. set (r2 := m2 mod 2 ^ s2) in *.
  set (p1 := 2 ^ s1) in *. set (p2 := 2 ^ s2) in *.
  assert (Hq : q1 <= q2).
  { destruct (Z_lt_le_dec q2 q1) as [Hlt|]; [exfalso|assumption].
    assert (A1 : (p1 * p2) * (q2 + 1) <= (p1 * p2) * q1)
      by (apply Z.mul_le_mono_nonneg_l; nia).
    assert (A2 : 0 <= r1 * p2) by nia.
    assert (A3 : r2 * p1 < p2 * p1) by (apply Z.mul_lt_mono_pos_r; lia).
    rewrite D1, D2 in H. nia. }
  destruct (Z.eq_dec q1 q2) as [Eq|Nq]; [|lia].
  rewrite <- Eq in *. clear B1 B2.
  assert (Hr : r1 * p2 <= r2 * p1) by (rewrite D1, D2 in H; nia).
  destruct (Z.eqb_spec r1 0) as [Z1|N1]; [cbn; apply round_nearest_even_bounds|].
  destruct (Z.eqb_spec r2 0) as [Z2|N2]; [nia|].
  assert (Hi : p1 <= 2 * r1 -> p2 <= 2 * r2).
  { intros C. apply (Z.mul_le_mono_pos_l _ _ p1); [lia|].
    assert (p1 * p2 <= 2 * r1 * p2) by (apply Z.mul_le_mono_nonneg_r; lia). lia. }
  assert (Hii : p1 < 2 * r1 -> p2 < 2 * r2).
  { intros C. apply (Z.mul_lt_mono_pos_l p1); [lia|].
    assert (p1 * p2 < 2 * r1 * p2) by (apply Z.mul_lt_mono_pos_r; lia). lia. }
  destruct (Z.compare_spec (2 * r1) p1) as [C1|C1|C1];
    destruct (Z.compare_spec (2 * r2) p2) as [C2|C2|C2];
    cbn [round_nearest_even]; try (destruct (Z.even q1)); lia.
Qed.

Lemma Zdigits2_upper m : 0 <= m -> m < 2 ^ Zdigits2 m.
Proof.
  intros Hm. destruct m as [|p|p]; cbn [Zdigits2]; [reflexivity| |lia].
  apply digits2_pos_bounds.
Qed.

Lemma fexp_ge_emin k : emin <= fexp prec emax k.
Proof. unfold fexp, emin. lia. Qed.

Lemma fexp_ge k : k - prec <= fexp prec emax k.
Proof. unfold fexp. lia. Qed.

Lemma fexp_mono a b : a <= b -> fexp prec emax a <= fexp prec emax b.
Proof. unfold fexp. lia. Qed.

(** The rounded mantissa has at most 53 digits, or is [2 ^ 53]. *)
Lemma rne_fexp_bound m e :
  0 <= m -> e <= fexp prec emax (Zdigits2 m + e) ->
  0 <= rne m (fexp prec emax (Zdigits2 m + e) - e) <= 9007199254740992.
Proof.
  intros Hm He. set (E := fexp prec emax (Zdigits2 m + e)) in *.
  pose proof (rne_bounds m (E - e)) as [B1 B2].
  assert (P : 0 < 2 ^ (E - e)) by (apply Z.pow_pos_nonneg; lia).
  assert (Q0 : 0 <= m / 2 ^ (E - e)) by (apply Z.div_pos; lia).
  assert (Q1 : m / 2 ^ (E - e) < 9007199254740992).
  { apply Z.div_lt_upper_bound; [lia|].
    eapply Z.lt_le_trans; [apply Zdigits2_upper; exact Hm|].
    change 9007199254740992 with (2 ^ 53). rewrite <- Z.pow_add_r by lia.
    apply Z.pow_le_mono_r; [lia|].
    pose proof (fexp_ge (Zdigits2 m + e)). fold E in H. unfold prec in H. lia. }
  lia.
Qed.

(** The rounding of an exact mantissa that is already aligned. *)
Lemma binary_round_aux_exact s m e :
  0 <= m -> e <= fexp prec emax (Zdigits2 m + e) ->
  binary_round_aux prec emax s m e loc_Exact
  = pack s (rne m (fexp prec emax (Zdigits2 m + e) - e)) (fexp prec emax (Zdigits2 m + e)).
Proof.
  intros Hm He. unfold binary_round_aux.
  destruct (shr_fexp_exact m e Hm He) as [E1 E2].
  pose proof (rne_fexp_bound m e Hm He) as HB.
  destruct (shr_fexp prec emax m e loc_Exact) as [mrs1 e1]. cbn [fst snd] in *.
  rewrite E2, E1. clear E1 E2.
  set (E := fexp prec emax (Zdigits2 m + e)) in *.
  set (m1 := rne m (E - e)) in *.
  pose proof (fexp_ge_emin (Zdigits2 m + e)) as HE. fold E in HE.
  destruct (Z.eq_dec m1 9007199254740992) as [->|Hne].
  - unfold shr_fexp. change (Zdigits2 9007199254740992) with 54.
    assert (F : fexp prec emax (54 + E) = E + 1) by (unfold fexp, emin, prec in *; lia).
    rewrite F. replace (E + 1 - E) with 1 by lia. reflexivity.
  - unfold shr_fexp.
    assert (D : Zdigits2 m1 <= 53) by (apply Zdigits2_lt_pow2; [change (2 ^ 53) with 9007199254740992|]; lia).
    assert (F : fexp prec emax (Zdigits2 m1 + E) - E <= 0)
      by (unfold fexp, emin, prec in *; lia).
    unfold shr.
    destruct (fexp prec emax (Zdigits2 m1 + E) - E) as [|p|p] eqn:En; [|lia|];
      cbn [shr_record_of_loc shr_m]; unfold pack;
      (destruct m1 as [|p1|p1]; [reflexivity| |lia]);
      assert (L : (Z.pos p1 <? 9007199254740992) = true) by (apply Z.ltb_lt; lia);
      rewrite L; reflexivity.
Qed.

Lemma digits2_pos_iter_xO p d :
  Z.pos (digits2_pos (Pos.iter xO p d)) = Z.pos (digits2_pos p) + Z.pos d.
Proof.
  induction d as [|d IH] using Pos.peano_ind.
  - cbn [Pos.iter digits2_pos]. lia.
  - rewrite Pos.iter_succ. cbn [digits2_pos]. lia.
Qed.

(** [binary_round] as the packing of a rounded quotient. *)
Lemma binary_round_pack s p k :
  exists e, e <= k /\ e <= fexp prec emax (Z.pos (digits2_pos p) + k) /\
    0 <= rne (Z.pos p * 2 ^ (k - e)) (fexp prec emax (Z.pos (digits2_pos p) + k) - e)
      <= 9007199254740992 /\
    binary_round prec emax s p k
    = pack s (rne (Z.pos p * 2 ^ (k - e)) (fexp prec emax (Z.pos (digits2_pos p) + k) - e))
        (fexp prec emax (Z.pos (digits2_pos p) + k)).
Proof.
  unfold binary_round, shl_align.
  set (E := fexp prec emax (Z.pos (digits2_pos p) + k)).
  destruct (E - k) as [|d|d] eqn:Ed.
  - exists k. rewrite Z.sub_diag, Z.pow_0_r, Z.mul_1_r.
    assert (He : k <= fexp prec emax (Zdigits2 (Z.pos p) + k)) by (cbn [Zdigits2]; fold E; lia).
    pose proof (rne_fexp_bound (Z.pos p) k ltac:(lia) He) as HB.
    rewrite (binary_round_aux_exact s (Z.pos p) k ltac:(lia) He).
    cbn [Zdigits2] in *. fold E in HB |- *. repeat split; lia.
  - exists k. rewrite Z.sub_diag, Z.pow_0_r, Z.mul_1_r.
    assert (He : k <= fexp prec emax (Zdigits2 (Z.pos p) + k)) by (cbn [Zdigits2]; fold E; lia).
    pose proof (rne_fexp_bound (Z.pos p) k ltac:(lia) He) as HB.
    rewrite (binary_round_aux_exact s (Z.pos p) k ltac:(lia) He).
    cbn [Zdigits2] in *. fold E in HB |- *. repeat split; lia.
  - exists E.
    assert (Hd : Zdigits2 (Z.pos (Pos.iter xO p d)) + E = Z.pos (digits2_pos p) + k)
      by (cbn [Zdigits2]; rewrite digits2_pos_iter_xO; lia).
    assert (He : E <= fexp prec emax (Zdigits2 (Z.pos (Pos.iter xO p d)) + E))
      by (rewrite Hd; fold E; lia).
    pose proof (rne_fexp_bound (Z.pos (Pos.iter xO p d)) E ltac:(lia) He) as HB.
    rewrite (binary_round_aux_exact s (Z.pos (Pos.iter xO p d)) E ltac:(lia) He).
    rewrite Hd in *. fold E in HB |- *.
    rewrite iter_xO in *. replace (k - E) with (Z.pos d) by lia.
    repeat split; lia.
Qed.

Lemma leb_finite_false m1 e1 m2 e2 :
  e1 < e2 \/ (e1 = e2 /\ Z.pos m1 <= Z.pos m2) ->
  SFleb (S754_finite false m1 e1) (S754_finite false m2 e2) = true.
Proof.
  unfold SFleb, SFcompare. intros [H|[-> H]].
  - assert (E : (e1 ?= e2) = Lt) by (rewrite Z.compare_lt_iff; lia). now rewrite E.
  - rewrite Z.compare_refl.
    change (Pos.compare_cont Eq m1 m2) with (Z.pos m1 ?= Z.pos m2).
    destruct (Z.compare_spec (Z.pos m1) (Z.pos m2)); [reflexivity|reflexivity|lia].
Qed.

(** The order of two packed floats follows that of exponents and mantissas. *)
Lemma pack_le m1 E1 m2 E2 :
  0 <= m1 <= 9007199254740992 -> 0 <= m2 <= 9007199254740992 ->
  (E1 = E2 /\ m1 <= m2) \/ (E1 < E2 /\ 4503599627370496 <= m2) ->
  SFleb (pack false m1 E1) (pack false m2 E2) = true.
Proof.
  intros H1 H2 H. unfold pack.
  destruct m1 as [|p1|p1]; destruct m2 as [|p2|p2]; try lia.
  - reflexivity.
  - destruct (Z.pos p2 <? 9007199254740992);
      [destruct (E2 <=? emax - prec)|destruct (E2 + 1 <=? emax - prec)]; reflexivity.
  - destruct (Z.ltb_spec (Z.pos p1) 9007199254740992) as [L1|L1];
      destruct (Z.ltb_spec (Z.pos p2) 9007199254740992) as [L2|L2].
    + destruct (Z.leb_spec E1 (emax - prec)); destruct (Z.leb_spec E2 (emax - prec));
        try reflexivity; [apply leb_finite_false; lia|lia].
    + destruct (Z.leb_spec E1 (emax - prec)); destruct (Z.leb_spec (E2 + 1) (emax - prec));
        try reflexivity; [apply leb_finite_false; lia|lia].
    + destruct (Z.leb_spec (E1 + 1) (emax - prec)); destruct (Z.leb_spec E2 (emax - prec));
        try reflexivity; [apply leb_finite_false; lia|lia].
    + destruct (Z.leb_spec (E1 + 1) (emax - prec));
        destruct (Z.leb_spec (E2 + 1) (emax - prec));
        try reflexivity; [apply leb_finite_false; lia|lia].
Qed.

Lemma pow_order_shift p1 a1 p2 a2 x1 x2 :
  0 <= a1 -> 0 <= a2 -> 0 <= x1 -> 0 <= x2 -> x1 - x2 = a1 - a2 ->
  p1 * 2 ^ a1 <= p2 * 2 ^ a2 -> p1 * 2 ^ x1 <= p2 * 2 ^ x2.
Proof.
  intros A1 A2 X1 X2 E H.
  destruct (Z_le_gt_dec a1 x1) as [L|G].
  - replace x1 with (a1 + (x1 - a1)) by lia. replace x2 with (a2 + (x1 - a1)) by lia.
    rewrite !Z.pow_add_r, !Z.mul_assoc by lia.
    apply Z.mul_le_mono_nonneg_r; [apply Z.pow_nonneg; lia|exact H].
  - replace a1 with (x1 + (a1 - x1)) in H by lia.
    replace a2 with (x2 + (a1 - x1)) in H by lia.
    rewrite !Z.pow_add_r, !Z.mul_assoc in H by lia.
    apply Z.mul_le_mono_pos_r in H; [exact H|apply Z.pow_pos_nonneg; lia].
Qed.

Lemma digits_order p1 a1 p2 a2 :
  0 <= a1 -> 0 <= a2 -> Z.pos p1 * 2 ^ a1 <= Z.pos p2 * 2 ^ a2 ->
  Z.pos (digits2_pos p1) + a1 <= Z.pos (digits2_pos p2) + a2.
Proof.
  intros A1 A2 H.
  pose proof (digits2_pos_bounds p1) as [L1 _].
  pose proof (digits2_pos_bounds p2) as [_ U2].
  assert (Hlt : 2 ^ (Z.pos (digits2_pos p1) - 1 + a1) < 2 ^ (Z.pos (digits2_pos p2) + a2)).
  { rewrite !Z.pow_add_r by lia.
    assert (0 < 2 ^ a1) by (apply Z.pow_pos_nonneg; lia).
    assert (0 < 2 ^ a2) by (apply Z.pow_pos_nonneg; lia).
    eapply Z.le_lt_trans; [|apply Z.mul_lt_mono_pos_r; [lia|exact U2]].
    eapply Z.le_trans; [|exact H].
    apply Z.mul_le_mono_nonneg_r; lia. }
  apply Z.pow_lt_mono_r_iff in Hlt; lia.
Qed.

(** Rounding to binary64 is monotone on positive values. *)
Lemma binary_round_mono p1 k1 p2 k2 b :
  b <= k1 -> b <= k2 -> Z.pos p1 * 2 ^ (k1 - b) <= Z.pos p2 * 2 ^ (k2 - b) ->
  SFleb (binary_round prec emax false p1 k1) (binary_round prec emax false p2 k2) = true.
Proof.
  intros B1 B2 H.
  pose proof (digits_order p1 (k1 - b) p2 (k2 - b) ltac:(lia) ltac:(lia) H) as Hd.
  destruct (binary_round_pack false p1 k1) as (e1 & K1 & L1 & R1 & ->).
  destruct (binary_round_pack false p2 k2) as (e2 & K2 & L2 & R2 & ->).
  pose proof (fexp_mono (Z.pos (digits2_pos p1) + k1) (Z.pos (digits2_pos p2) + k2) ltac:(lia)) as HE.
  pose proof (fexp_ge_emin (Z.pos (digits2_pos p1) + k1)) as Hmin.
  set (E1 := fexp prec emax (Z.pos (digits2_pos p1) + k1)) in *.
  set (E2 := fexp prec emax (Z.pos (digits2_pos p2) + k2)) in *.
  apply pack_le; [exact R1|exact R2|].
  destruct (Z.eq_dec E1 E2) as [Eq|Ne]; [left|right]; (split; [lia|]).
  - apply rne_mono; [lia|lia|]. rewrite <- !Z.mul_assoc, <- !Z.pow_add_r by lia.
    apply (pow_order_shift _ (k1 - b) _ (k2 - b)); lia.
  - eapply Z.le_trans; [|apply rne_bounds].
    assert (P : 0 < 2 ^ (E2 - e2)) by (apply Z.pow_pos_nonneg; lia).
    apply Z.div_le_lower_bound; [exact P|].
    assert (E2v : E2 = Z.pos (digits2_pos p2) + k2 - prec)
      by (unfold E2, fexp in *; lia).
    pose proof (digits2_pos_bounds p2) as [Lo _].
    change 4503599627370496 with (2 ^ 52). rewrite <- Z.pow_add_r by lia.
    replace (E2 - e2 + 52) with ((Z.pos (digits2_pos p2) - 1) + (k2 - e2))
      by (unfold prec in E2v; lia).
    rewrite Z.pow_add_r by lia.
    apply Z.mul_le_mono_nonneg_r; [apply Z.pow_nonneg; lia|exact Lo].
Qed.

Lemma leb_finite_true m1 e1 m2 e2 :
  SFleb (S754_finite true m1 e1) (S754_finite true m2 e2)
  = SFleb (S754_finite false m2 e2) (S754_finite false m1 e1).
Proof.
  unfold SFleb, SFcompare.
  rewrite (Z.compare_antisym e1 e2).
  destruct (e1 ?= e2); cbn [CompOpp]; try reflexivity.
  change (Pos.compare_cont Eq m1 m2) with (Pos.compare m1 m2).
  change (Pos.compare_cont Eq m2 m1) with (Pos.compare m2 m1).
  rewrite (Pos.compare_antisym m1 m2).
  now destruct (Pos.compare m1 m2).
Qed.

Lemma scaled_order m1 e1 m2 e2 :
  emin <= e1 -> e1 <= e2 -> Z.pos m1 <= Z.pos m2 * 2 ^ (e2 - e1) ->
  Z.pos m1 * 2 ^ (e1 - emin) <= Z.pos m2 * 2 ^ (e2 - emin).
Proof.
  intros H0 H1 H.
  replace (e2 - emin) with ((e2 - e1) + (e1 - emin)) by lia.
  rewrite Z.pow_add_r, Z.mul_assoc by lia.
  apply Z.mul_le_mono_nonneg_r; [apply Z.pow_nonneg; lia|exact H].
Qed.

(** The order of two finite floats is that of their scaled values. *)
Lemma leb_scaled_value f1 f2 :
  valid_binary f1 = true -> valid_binary f2 = true ->
  finite_or_zero f1 = true -> finite_or_zero f2 = true ->
  SFleb f1 f2 = true -> scaled_value f1 <= scaled_value f2.
Proof.
  intros V1 V2 F1 F2 H.
  destruct f1 as [s1|s1| |s1 m1 e1]; try discriminate F1;
    destruct f2 as [s2|s2| |s2 m2 e2]; try discriminate F2; cbn [scaled_value].
  - lia.
  - destruct s2; [discriminate H|]. cbn [cond_Zopp].
    assert (0 < 2 ^ (e2 - emin)) by (apply Z.pow_pos_nonneg; pose proof (emin_le_exponent _ _ _ V2); lia).
    nia.
  - destruct s1; [|discriminate H]. cbn [cond_Zopp].
    assert (0 < 2 ^ (e1 - emin)) by (apply Z.pow_pos_nonneg; pose proof (emin_le_exponent _ _ _ V1); lia).
    nia.
  - pose proof (emin_le_exponent _ _ _ V1) as L1.
    pose proof (emin_le_exponent _ _ _ V2) as L2.
    assert (P1 : 0 < 2 ^ (e1 - emin)) by (apply Z.pow_pos_nonneg; lia).
    assert (P2 : 0 < 2 ^ (e2 - emin)) by (apply Z.pow_pos_nonneg; lia).
    destruct s1, s2; cbn [cond_Zopp].
    + rewrite leb_finite_true in H.
      destruct (leb_finite_pos m2 e2 false m1 e1 V2 V1 H) as (_ & He & Hm).
      pose proof (scaled_order m2 e2 m1 e1 L2 He Hm). lia.
    + nia.
    + discriminate H.
    + destruct (leb_finite_pos m1 e1 false m2 e2 V1 V2 H) as (_ & He & Hm).
      apply scaled_order; assumption.
Qed.

(** A float is its own rounding. *)
Lemma binary_round_valid s m e :
  valid_binary (S754_finite s m e) = true ->
  binary_round prec emax s m e = S754_finite s m e.
Proof.
  intros V. unfold valid_binary, SpecFloat.valid_binary, bounded, canonical_mantissa in V.
  apply andb_true_iff in V as [Hc He].
  apply Z.eqb_eq in Hc. apply Z.leb_le in He.
  unfold binary_round, shl_align. rewrite Hc, Z.sub_diag.
  assert (Hf : e <= fexp prec emax (Zdigits2 (Z.pos m) + e)) by (cbn [Zdigits2]; lia).
  rewrite (binary_round_aux_exact s (Z.pos m) e ltac:(lia) Hf).
  cbn [Zdigits2]. rewrite Hc, Z.sub_diag.
  unfold rne, loc_code. rewrite Z.pow_0_r, Z.div_1_r, Z.mod_1_r. cbn [Z.eqb round_nearest_even].
  unfold pack.
  assert (L : (Z.pos m <? 9007199254740992) = true).
  { apply Z.ltb_lt. pose proof (digits2_pos_bounds m) as [_ U].
    eapply Z.lt_le_trans; [exact U|]. change 9007199254740992 with (2 ^ 53).
    apply Z.pow_le_mono_r; [lia|]. unfold fexp, prec in Hc. lia. }
  rewrite L. apply Z.leb_le in He. now rewrite He.
Qed.

(** A difference of two finite floats is the rounding of the exact
    difference. *)
Lemma SFsub_rounded f1 f2 :
  valid_binary f1 = true -> valid_binary f2 = true ->
  finite_or_zero f1 = true -> finite_or_zero f2 = true ->
  exists z k, emin <= k /\
    z * 2 ^ (k - emin) = scaled_value f1 - scaled_value f2 /\
    rounded z k (SF64sub f1 f2).
Proof.
  intros V1 V2 F1 F2.
  destruct f1 as [s1|s1| |s1 m1 e1]; try discriminate F1;
    destruct f2 as [s2|s2| |s2 m2 e2]; try discriminate F2; cbn [scaled_value].
  - exists 0, emin. split; [lia|]. split; [reflexivity|].
    destruct s1, s2; cbn; eauto.
  - pose proof (emin_le_exponent _ _ _ V2) as L2.
    exists (cond_Zopp (negb s2) (Z.pos m2)), e2. split; [exact L2|]. split.
    + destruct s2; cbn [negb cond_Zopp]; lia.
    + unfold SF64sub, SFsub.
      destruct s2; cbn [negb cond_Zopp rounded Z.opp]; symmetry; now apply binary_round_valid.
  - pose proof (emin_le_exponent _ _ _ V1) as L1.
    exists (cond_Zopp s1 (Z.pos m1)), e1. split; [exact L1|]. split.
    + destruct s1; cbn [cond_Zopp]; lia.
    + unfold SF64sub, SFsub.
      destruct s1; cbn [cond_Zopp rounded Z.opp]; symmetry; now apply binary_round_valid.
  - pose proof (emin_le_exponent _ _ _ V1) as L1.
    pose proof (emin_le_exponent _ _ _ V2) as L2.
    unfold SF64sub, SFsub. cbv zeta.
    set (ez := Z.min e1 e2).
    pose proof (shl_align_spec m1 e1 ez) as (_ & _ & A1 & A2).
    pose proof (shl_align_spec m2 e2 ez) as (_ & _ & B1 & B2).
    rewrite A1 in A2 by (unfold ez; lia). rewrite B1 in B2 by (unfold ez; lia).
    set (x1 := fst (shl_align m1 e1 ez)) in *. set (x2 := fst (shl_align m2 e2 ez)) in *.
    exists (cond_Zopp s1 (Z.pos x1) - cond_Zopp s2 (Z.pos x2)), ez.
    split; [unfold ez; lia|]. split.
    + assert (E1 : Z.pos x1 * 2 ^ (ez - emin) = Z.pos m1 * 2 ^ (e1 - emin)).
      { rewrite A2, <- Z.mul_assoc, <- Z.pow_add_r by (unfold ez; lia).
        do 2 f_equal. lia. }
      assert (E2 : Z.pos x2 * 2 ^ (ez - emin) = Z.pos m2 * 2 ^ (e2 - emin)).
      { rewrite B2, <- Z.mul_assoc, <- Z.pow_add_r by (unfold ez; lia).
        do 2 f_equal. lia. }
      destruct s1, s2; cbn [cond_Zopp]; lia.
    + unfold rounded, binary_normalize.
      destruct (cond_Zopp s1 (Z.pos x1) - cond_Zopp s2 (Z.pos x2)); eauto.
Qed.

Lemma pack_nonneg m E : SFleb (S754_zero false) (pack false m E) = true.
Proof.
  unfold pack. destruct m as [|p|p]; try reflexivity.
  destruct (Z.pos p <? 9007199254740992);
    [destruct (E <=? emax - prec)|destruct (E + 1 <=? emax - prec)]; reflexivity.
Qed.

Lemma binary_round_nonneg p k s :
  SFleb (S754_zero s) (binary_round prec emax false p k) = true.
Proof.
  destruct (binary_round_pack false p k) as (e & _ & _ & _ & ->).
  pose proof (pack_nonneg (rne (Z.pos p * 2 ^ (k - e))
    (fexp prec emax (Z.pos (digits2_pos p) + k) - e))
    (fexp prec emax (Z.pos (digits2_pos p) + k))) as H.
  destruct (pack false _ _); destruct s; exact H.
Qed.

Lemma rounded_nonneg z k r :
  rounded z k r -> 0 <= z -> SFleb (S754_zero false) r = true.
Proof.
  unfold rounded. destruct z as [|p|p]; intros H Hz; [| |lia].
  - destruct H as [s ->]. reflexivity.
  - rewrite H. apply binary_round_nonneg.
Qed.

Lemma rounded_mono z1 k1 r1 z2 k2 r2 :
  emin <= k1 -> emin <= k2 -> rounded z1 k1 r1 -> rounded z2 k2 r2 ->
  0 <= z1 -> z1 * 2 ^ (k1 - emin) <= z2 * 2 ^ (k2 - emin) ->
  SFleb r1 r2 = true.
Proof.
  intros K1 K2 H1 H2 Hz H.
  assert (P1 : 0 < 2 ^ (k1 - emin)) by (apply Z.pow_pos_nonneg; lia).
  assert (P2 : 0 < 2 ^ (k2 - emin)) by (apply Z.pow_pos_nonneg; lia).
  unfold rounded in *.
  destruct z1 as [|p1|p1]; [| |lia].
  - destruct H1 as [s ->]. destruct z2 as [|p2|p2]; [| |nia].
    + destruct H2 as [s2 ->]. reflexivity.
    + rewrite H2. apply binary_round_nonneg.
  - destruct z2 as [|p2|p2]; [nia| |nia].
    rewrite H1, H2. apply (binary_round_mono p1 k1 p2 k2 emin); assumption.
Qed.

(** Subtracting the lower bound keeps the order: the computed offset of
    a point of the box lies between zero and the computed width. *)
Lemma SFsub_order x lo hi :
  valid_binary x = true -> valid_binary lo = true -> valid_binary hi = true ->
  finite_or_zero x = true -> finite_or_zero lo = true -> finite_or_zero hi = true ->
  SFleb lo x = true -> SFleb x hi = true ->
  SFleb (S754_zero false) (SF64sub x lo) = true /\
  SFleb (SF64sub x lo) (SF64sub hi lo) = true.
Proof.
  intros Vx Vl Vh Fx Fl Fh H1 H2.
  pose proof (leb_scaled_value lo x Vl Vx Fl Fx H1) as O1.
  pose proof (leb_scaled_value x hi Vx Vh Fx Fh H2) as O2.
  destruct (SFsub_rounded x lo Vx Vl Fx Fl) as (z1 & k1 & K1 & E1 & R1).
  destruct (SFsub_rounded hi lo Vh Vl Fh Fl) as (z2 & k2 & K2 & E2 & R2).
  assert (P1 : 0 < 2 ^ (k1 - emin)) by (apply Z.pow_pos_nonneg; lia).
  assert (Hz : 0 <= z1) by nia.
  split.
  - apply (rounded_nonneg z1 k1); assumption.
  - apply (rounded_mono z1 k1 _ z2 k2); try assumption. lia.
Qed.

Lemma finite_or_zero_cases x :
  is_finite x = true -> finite_or_zero (Prim2SF x) = true.
Proof.
  intros H. destruct (finite_cases x H) as [[s ->]|(s & m & e & ->)]; reflexivity.
Qed.

(** A finite double of a difference comes from two finite operands. *)
Lemma finite_double_sub hi lo :
  is_finite (2 * (hi - lo)) = true ->
  finite_or_zero (Prim2SF hi) = true /\ finite_or_zero (Prim2SF lo) = true.
Proof.
  intros H. apply finite_or_zero_cases in H.
  rewrite mul_spec, sub_spec in H.
  replace (Prim2SF 2) with (S754_finite false 4503599627370496 (-51)) in H by reflexivity.
  destruct (Prim2SF hi) as [sh|sh| |sh mh eh]; destruct (Prim2SF lo) as [sl|sl| |sl ml el];
    try (split; reflexivity); exfalso;
    try (destruct sh); try (destruct sl); cbn in H; discriminate H.
Qed.

Lemma between_finite x lo hi :
  finite_or_zero lo = true -> finite_or_zero hi = true ->
  SFleb lo x = true -> SFleb x hi = true -> finite_or_zero x = true.
Proof.
  intros Fl Fh H1 H2.
  destruct x as [s|s| |s m e]; try reflexivity; exfalso.
  - destruct s.
    + destruct lo as [?|?| |? ? ?]; try discriminate Fl; discriminate H1.
    + destruct hi as [?|?| |? ? ?]; try discriminate Fh; discriminate H2.
  - destruct lo as [?|?| |? ? ?]; discriminate H1.
Qed.

Lemma compare_finite_pos m1 e1 m2 e2 :
  valid_binary (S754_finite false m1 e1) = true ->
  valid_binary (S754_finite false m2 e2) = true ->
  SFcompare (S754_finite false m1 e1) (S754_finite false m2 e2)
  = Some (Z.pos m1 * 2 ^ (e1 - emin) ?= Z.pos m2 * 2 ^ (e2 - emin)).
Proof.
  intros V1 V2. unfold SFcompare. f_equal.
  destruct (Z.compare_spec e1 e2) as [E|E|E].
  - subst e2. pose proof (emin_le_exponent _ _ _ V1) as L1.
    assert (P : 0 < 2 ^ (e1 - emin)) by (apply Z.pow_pos_nonneg; lia).
    change (Pos.compare_cont Eq m1 m2) with (Z.pos m1 ?= Z.pos m2).
    symmetry.
    destruct (Z.compare_spec (Z.pos m1) (Z.pos m2)) as [C|C|C];
      [apply Z.compare_eq_iff|apply Z.compare_lt_iff|apply Z.compare_gt_iff]; nia.
  - symmetry. apply Z.compare_lt_iff. now apply (canonical_lt false _ _ false).
  - symmetry. apply Z.compare_gt_iff. now apply (canonical_lt false _ _ false).
Qed.

Lemma compare_finite_neg m1 e1 m2 e2 :
  SFcompare (S754_finite true m1 e1) (S754_finite true m2 e2)
  = SFcompare (S754_finite false m2 e2) (S754_finite false m1 e1).
Proof.
  unfold SFcompare. f_equal.
  rewrite (Z.compare_antisym e1 e2).
  destruct (e1 ?= e2); cbn [CompOpp]; try reflexivity.
  change (Pos.compare_cont Eq m1 m2) with (Pos.compare m1 m2).
  change (Pos.compare_cont Eq m2 m1) with (Pos.compare m2 m1).
  now rewrite (Pos.compare_antisym m1 m2).
Qed.

(** Comparing two finite floats is comparing their scaled values. *)
Lemma SFcompare_scaled f1 f2 :
  valid_binary f1 = true -> valid_binary f2 = true ->
  finite_or_zero f1 = true -> finite_or_zero f2 = true ->
  SFcompare f1 f2 = Some (scaled_value f1 ?= scaled_value f2).
Proof.
  intros V1 V2 F1 F2.
  destruct f1 as [s1|s1| |s1 m1 e1]; try discriminate F1;
    destruct f2 as [s2|s2| |s2 m2 e2]; try discriminate F2; cbn [scaled_value].
  - reflexivity.
  - assert (0 < Z.pos m2 * 2 ^ (e2 - emin))
      by (apply Z.mul_pos_pos; [lia|apply Z.pow_pos_nonneg;
          pose proof (emin_le_exponent _ _ _ V2); lia]).
    unfold SFcompare. f_equal. symmetry.
    destruct s2; cbn [cond_Zopp]; [apply Z.compare_gt_iff|apply Z.compare_lt_iff]; lia.
  - assert (0 < Z.pos m1 * 2 ^ (e1 - emin))
      by (apply Z.mul_pos_pos; [lia|apply Z.pow_pos_nonneg;
          pose proof (emin_le_exponent _ _ _ V1); lia]).
    unfold SFcompare. f_equal. symmetry.
    destruct s1; cbn [cond_Zopp]; [apply Z.compare_lt_iff|apply Z.compare_gt_iff]; lia.
  - assert (0 < Z.pos m1 * 2 ^ (e1 - emin))
      by (apply Z.mul_pos_pos; [lia|apply Z.pow_pos_nonneg;
          pose proof (emin_le_exponent _ _ _ V1); lia]).
    assert (0 < Z.pos m2 * 2 ^ (e2 - emin))
      by (apply Z.mul_pos_pos; [lia|apply Z.pow_pos_nonneg;
          pose proof (emin_le_exponent _ _ _ V2); lia]).
    destruct s1, s2; cbn [cond_Zopp].
    + rewrite compare_finite_neg, (compare_finite_pos m2 e2 m1 e1 V2 V1).
      now rewrite Z.compare_opp.
    + unfold SFcompare. f_equal. symmetry. apply Z.compare_lt_iff. lia.
    + unfold SFcompare. f_equal. symmetry. apply Z.compare_gt_iff. lia.
    + now apply compare_finite_pos.
Qed.

Lemma ltb_scaled_value f1 f2 :
  valid_binary f1 = true -> valid_binary f2 = true ->
  finite_or_zero f1 = true -> finite_or_zero f2 = true ->
  SFltb f1 f2 = true -> scaled_value f1 < scaled_value f2.
Proof.
  intros V1 V2 F1 F2. unfold SFltb. rewrite (SFcompare_scaled f1 f2 V1 V2 F1 F2).
  destruct (Z.compare_spec (scaled_value f1) (scaled_value f2)); [discriminate|lia|discriminate].
Qed.

(** Two floats that compare equal are the same float, or two zeros. *)
Lemma SFeqb_cases f1 f2 :
  SFeqb f1 f2 = true ->
  f1 = f2 \/ exists s1 s2, f1 = S754_zero s1 /\ f2 = S754_zero s2.
Proof.
  unfold SFeqb, SFcompare.
  destruct f1 as [s1|s1| |s1 m1 e1]; destruct f2 as [s2|s2| |s2 m2 e2];
    try discriminate; try (destruct s1; discriminate); try (destruct s2; discriminate).
  - right. eauto.
  - destruct s1, s2; try discriminate; now left.
  - intros H. left.
    assert (s1 = s2 /\ e1 = e2 /\ m1 = m2) as (-> & -> & ->); [|reflexivity].
    destruct s1, s2; try discriminate H;
      (destruct (Z.compare_spec e1 e2); try discriminate H);
      change (Pos.compare_cont Eq m1 m2) with (Pos.compare m1 m2) in H;
      (destruct (Pos.compare_spec m1 m2); try discriminate H); auto.
Qed.

(** The width of a non-empty box is not zero. *)
Lemma SFsub_lt_nonzero lo hi :
  valid_binary lo = true -> valid_binary hi = true ->
  finite_or_zero lo = true -> finite_or_zero hi = true ->
  SFltb lo hi = true -> SFeqb (SF64sub hi lo) (S754_zero false) = false.
Proof.
  intros Vl Vh Fl Fh H.
  pose proof (ltb_scaled_value lo hi Vl Vh Fl Fh H) as O.
  destruct (SFsub_rounded hi lo Vh Vl Fh Fl) as (z & k & K & E & R).
  assert (P : 0 < 2 ^ (k - emin)) by (apply Z.pow_pos_nonneg; lia).
  unfold rounded in R. destruct z as [|p|p]; [lia| |nia].
  assert (M : SFleb (S754_finite false 1 emin) (SF64sub hi lo) = true).
  { rewrite R, <- (binary_round_valid false 1 emin) by reflexivity.
    apply (binary_round_mono 1 emin p k emin); try lia.
    rewrite Z.sub_diag, Z.pow_0_r. nia. }
  destruct (SF64sub hi lo) as [s|s| |s m e]; try reflexivity.
  - discriminate M.
  - destruct s; reflexivity.
  - destruct s; reflexivity.
Qed.

End Binary64.

(** ** The normalisation of the batch *)

Section Normalisation.

Lemma scale_row (r : list float) (vars : list (string * (float * float))) :
  map (fun t => (t + float_of_Z (-1))%float)
    (zip_with div
       (map (fun t => (float_of_Z (1 - -1) * t)%float)
          (zip_with sub r (map (fun kv => fst (snd kv)) vars)))
       (zip_with sub (map (fun kv => snd (snd kv)) vars)
          (map (fun kv => fst (snd kv)) vars)))
  = zip_with (fun v b => scale_entry v (fst b) (snd b)) r (map snd vars).
Proof.
  revert r; induction vars as [|[name [lo hi]] vars IH]; intros [|v r]; simpl; auto.
  now rewrite IH.
Qed.

Lemma bcast_row_same f (x : ndarray) (v : list float) :
  shape1 x = length v ->
  bcast_row f x v = ok (mk_ndarray (shape1 x) (map (fun r => zip_with f r v) (rows x))).
Proof. intros H. unfold bcast_row. now rewrite H, Nat.eqb_refl. Qed.

(** On a batch with one column per declared variable the
    normalisation succeeds and is entrywise. *)
Lemma scale_batch_spec (P : _BaseProblem) (x : ndarray) :
  shape1 x = n_var P -> scale_batch P x = ok (normalized P x).
Proof.
  intros Hx. unfold scale_batch, get_bound_arrays, n_var in *.
  rewrite bcast_row_same by now rewrite length_map.
  cbn [rbind ok].
  rewrite bcast_row_same
    by (cbn [amap shape1]; now rewrite zip_with_length, !length_map, Nat.min_id).
  cbn [rbind ok]. unfold normalized, amap, ok. simpl. do 2 f_equal.
  rewrite !map_map. apply map_ext. intros r. apply scale_row.
Qed.

Lemma normalized_shape (P : _BaseProblem) (x : ndarray) :
  shape0 (normalized P x) = shape0 x /\ shape1 (normalized P x) = shape1 x.
Proof. unfold normalized, shape0; simpl. now rewrite length_map. Qed.

End Normalisation.

(** ** One noise value per row *)

Section NoiseLength.
Context {host : Host}.

Lemma random_rand_length n g : length (fst (random_rand n g)) = n.
Proof.
  revert g; induction n as [|n IH]; intros g; simpl; [reflexivity|].
  destruct (rand1 g) as [r g1]. specialize (IH g1).
  destruct (random_rand n g1) as [rs g2]. simpl in *. now rewrite IH.
Qed.

Lemma rand_ok n g r g' : rand n g = ok (r, g') -> length r = n.
Proof.
  unfold rand, ok. intros [= H]. pose proof (random_rand_length n g) as L.
  now rewrite H in L.
Qed.

Lemma scaled_ones_rows c n d : length (rows (scaled_ones c n d)) = n.
Proof. unfold scaled_ones, amap, ones2; simpl. now rewrite length_map, repeat_length. Qed.

Lemma azip_rows_length f x y :
  length (rows (azip f x y)) = Nat.min (length (rows x)) (length (rows y)).
Proof. apply zip_with_length. Qed.

Lemma amap_rows_length f x : length (rows (amap f x)) = length (rows x).
Proof. apply length_map. Qed.

Lemma resolution_length theta x : length (resolution theta x) = shape0 x.
Proof.
  unfold resolution, sum_axis1, oscillation. rewrite length_map.
  rewrite ?azip_rows_length, ?amap_rows_length, ?azip_rows_length, ?scaled_ones_rows.
  unfold shape0. lia.
Qed.

Lemma uniform_noise_length n sigma mu g e g' :
  uniform_noise n sigma mu g = ok (e, g') -> length e = n.
Proof.
  unfold uniform_noise. intros H. step_ok H. apply rand_ok in Hstep.
  apply mret_ok in H as [-> _]. now rewrite length_map.
Qed.

Lemma gamma_of_length x : length (gamma_of x) = shape0 x.
Proof. unfold gamma_of, sum_axis1, amap, shape0; simpl. now rewrite !length_map. Qed.

Lemma penalty_length n d : length (penalty n d) = n.
Proof. unfold penalty, ones. now rewrite length_map, repeat_length. Qed.

Lemma zero_where_above_length p r e :
  length (zero_where_above p r e) = Nat.min (length r) (length e).
Proof. apply zip_with_length. Qed.

(** Every function of the set returns one value for each row of the batch. *)
Lemma call2_length fn x phi g e g' :
  call2 fn x phi g = ok (e, g') -> length e = shape0 x.
Proof.
  destruct fn; cbn [call2]; intros H.
  - apply lift_ok in H as [H _]. unfold e_r1 in H. step_ok H.
    injection H as <-. apply resolution_length.
  - apply lift_ok in H as [H _]. unfold e_r2 in H. step_ok H.
    injection H as <-. apply resolution_length.
  - apply lift_ok in H as [H _]. unfold e_r3 in H. step_ok H.
    injection H as <-. apply resolution_length.
  - apply lift_ok in H as [H _]. discriminate.
  - unfold e_s1 in H. cbn zeta in H. step_ok H. eapply uniform_noise_length; eauto.
  - unfold e_s2 in H. step_ok H. eapply uniform_noise_length; eauto.
  - unfold e_s3 in H. step_ok H. step_ok H. step_ok H.
    apply rand_ok in Hstep1. apply mret_ok in H as [-> _].
    rewrite zip_with_length, !length_map, gamma_of_length. lia.
  - unfold e_s4 in H. step_ok H. step_ok H.
    apply rand_ok in Hstep0. apply mret_ok in H as [-> _].
    rewrite zip_with_length, !length_map, gamma_of_length. lia.
  - unfold e_ins1 in H. step_ok H. step_ok H.
    apply rand_ok in Hstep. apply mret_ok in H as [-> _].
    rewrite zero_where_above_length, penalty_length. lia.
  - unfold e_ins2 in H. step_ok H. step_ok H.
    apply rand_ok in Hstep. apply mret_ok in H as [-> _].
    rewrite zero_where_above_length, penalty_length. lia.
Qed.

(** What the masked assignment leaves in each row. *)
Lemma zero_where_above_values p r e :
  Forall (fun v => v = 0%float \/ In v e) (zero_where_above p r e).
Proof.
  unfold zero_where_above. revert e.
  induction r as [|ri r IH]; intros [|ei e]; simpl; constructor.
  - destruct (p <? ri)%float; [now left | right; now left].
  - eapply Forall_impl; [|apply IH]. simpl. intros v [->|Hv]; [now left|right; now right].
Qed.

Lemma penalty_values n d v :
  In v (penalty n d) -> v = float_of_Z (10 * Z.of_nat d).
Proof.
  unfold penalty, ones. rewrite in_map_iff. intros (o & <- & Ho).
  apply repeat_spec in Ho. subst o. apply float_mul_1_r.
Qed.

End NoiseLength.

(** ** [evaluate_MF] *)

Section EvaluateMF.
Context {host : Host}.

Lemma evaluate_MF_ok (P : _MF_Base) x kwargs g r g' :
  evaluate_MF P x kwargs g = ok (r, g') ->
  exists F0 x_s,
    _evaluate_obj P x = ok F0 /\
    scale_batch P x = ok x_s /\
    MF_loop P (shape0 x) x_s kwargs (range (n_obj P)) F0 g = ok (F r, g').
Proof.
  unfold evaluate_MF, evaluate. intros H.
  step_ok H. apply lift_ok in Hstep as [He ->].
  step_ok H. apply lift_ok in Hstep as [Hs ->].
  step_ok H. apply mret_ok in H as [-> ->].
  step_ok He. injection He as <-.
  exists a2, a0. auto.
Qed.



(** C10: an objective requested at a level that is not strictly
    positive (zero or negative) gets a pass that looks up nothing,
    draws nothing and cannot raise, and its column of the returned
    matrix is the high-fidelity column. *)
Theorem evaluate_MF_nonpositive_level_passthrough
    (P : _MF_Base) x kwargs f level F0 g r g' :
  (f < Z.to_nat (n_obj P))%nat ->
  lookup_str (Phi_kw f) kwargs = Some level ->
  level <= 0 ->
  _evaluate_obj P x = ok F0 ->
  evaluate_MF P x kwargs g = ok (r, g') ->
  (forall n x_s FM g1, MF_objective P n x_s kwargs FM f g1 = ok (FM, g1)) /\
  column (F r) f = column F0 f.
Proof.
  intros Hf Hk Hl HF H. split.
  - intros n x_s FM g1. unfold MF_objective. rewrite Hk.
    apply Z.ltb_ge in Hl. now rewrite Hl.
  - apply evaluate_MF_ok in H as (F0' & x_s & HF' & _ & Hloop).
    rewrite HF in HF'. injection HF' as <-.
    destruct (MF_loop_split _ _ _ _ _ _ _ _ _ _ Hf Hloop)
      as (FM1 & g1 & FM2 & g2 & _ & Hpass & Hpre & Hpost & _).
    rewrite Hpost, <- Hpre.
    destruct Hpass as [Hk' _ _|lv Hk' _ -> _|lv ? ? ? ? ? Hk' Hl' _ _ _ _ _ _ _];
      rewrite Hk in Hk'; try discriminate; [reflexivity|].
    injection Hk' as <-. lia.
Qed.

(** C2: an objective with no entry in the request has the
    not-a-number value in every row of its column of the returned
    matrix, whatever the batch and the high-fidelity values. *)
Theorem evaluate_MF_missing_objective_nan
    (P : _MF_Base) x kwargs f F0 g r g' :
  (f < Z.to_nat (n_obj P))%nat ->
  lookup_str (Phi_kw f) kwargs = None ->
  _evaluate_obj P x = ok F0 ->
  well_shaped F0 ->
  evaluate_MF P x kwargs g = ok (r, g') ->
  shape0 (F r) = shape0 F0 /\
  Forall (fun row => nth_error row f = Some nan) (rows (F r)) /\
  column (F r) f = repeat nan (shape0 F0).
Proof.
  intros Hf Hk HF Hwf H.
  apply evaluate_MF_ok in H as (F0' & x_s & HF' & _ & Hloop).
  rewrite HF in HF'. injection HF' as <-.
  destruct (MF_loop_shape _ _ _ _ _ _ _ _ _ Hloop) as (_ & Hrows & Hwf').
  split; [exact Hrows|].
  destruct (MF_loop_split _ _ _ _ _ _ _ _ _ _ Hf Hloop)
    as (FM1 & g1 & FM2 & g2 & Hpre & Hpass & _ & Hpost & Hrows1 & _ & Hwf1).
  destruct Hpass as [_ Hset _|lv Hk' _ _ _|lv ? ? ? ? ? Hk' _ _ _ _ _ _ _ _];
    try (rewrite Hk in Hk'; discriminate).
  destruct (setcol_rows_same _ _ _ _ Hset (Hwf1 Hwf)) as [Hcol _].
  assert (Hnan : Forall (fun a => a = nan) (column (F r) f)).
  { rewrite Hpost. eapply Forall_impl; [|exact Hcol].
    intros a Ha. unfold ones in Ha. apply in_map_iff in Ha as (o & <- & Ho).
    apply repeat_spec in Ho. now subst o. }
  assert (Hlen : length (column (F r) f) = shape0 F0)
    by (rewrite column_length; exact Hrows).
  split.
  - specialize (Hwf' Hwf). unfold well_shaped in Hwf'.
    assert (Hcolumns : (f < shape1 (F r))%nat).
    { destruct (setcol_inv _ _ _ _ Hset) as [Hlt _].
      destruct (MF_loop_shape _ _ _ _ _ _ _ _ _ Hloop) as (S1 & _).
      destruct (MF_loop_shape _ _ _ _ _ _ _ _ _ Hpre) as (S1' & _).
      lia. }
    unfold column in Hnan. rewrite Forall_map in Hnan.
    rewrite Forall_forall in *. intros row Hrow.
    specialize (Hwf' row Hrow). specialize (Hnan row Hrow).
    rewrite <- Hnan. apply nth_error_nth'. lia.
  - clear - Hnan Hlen. revert Hlen. generalize (shape0 F0).
    induction Hnan as [|a l -> _ IH]; intros [|m] Hm; simpl in *;
      try discriminate; [reflexivity|].
    f_equal. apply IH. lia.
Qed.

(** C1: an objective requested at a positive level that the active
    error function's calibration entry lists gets, in the returned
    matrix, its high-fidelity column plus [scale] times the values the
    error function returns on the normalised batch at the parameter
    [Phi[level]], row by row; the function is called on the generator
    state the passes of the objectives before it leave. *)
Theorem evaluate_MF_low_fidelity_column
    (P : _MF_Base) x kwargs f level entry sc phi F0 g r g' :
  shape1 x = n_var P ->
  (f < Z.to_nat (n_obj P))%nat ->
  lookup_str (Phi_kw f) kwargs = Some level ->
  0 < level ->
  lookup_str (__name__ (err_fn P)) (mf_def P) = Some entry ->
  lookup_int level (Phi entry) = Some phi ->
  lookup_str (f_kw f) (scale entry) = Some sc ->
  _evaluate_obj P x = ok F0 ->
  well_shaped F0 ->
  shape0 F0 = shape0 x ->
  evaluate_MF P x kwargs g = ok (r, g') ->
  exists FM1 g1 e g2,
    MF_loop P (shape0 x) (normalized P x) kwargs (seq 0 f) F0 g = ok (FM1, g1) /\
    call2 (err_fn P) (normalized P x) phi g1 = ok (e, g2) /\
    length e = shape0 x /\
    column (F r) f =
      zip_with (fun hf ei => (hf + sc * ei)%float) (column F0 f) e.
Proof.
  intros Hx Hf Hk Hl He Hp Hs HF Hwf Hrows H.
  apply evaluate_MF_ok in H as (F0' & x_s & HF' & Hscale & Hloop).
  rewrite HF in HF'. injection HF' as <-.
  rewrite (scale_batch_spec _ _ Hx) in Hscale. injection Hscale as <-.
  destruct (MF_loop_split _ _ _ _ _ _ _ _ _ _ Hf Hloop)
    as (FM1 & g1 & FM2 & g2 & Hpre & Hpass & Hcol1 & Hpost & Hrows1 & _ & Hwf1).
  destruct Hpass as [Hk' _ _|lv Hk' Hl' _ _
                    |lv entry' sc' phi' e new Hk' _ He' Hs' Hp' Hcall Hnew _ Hset];
    rewrite Hk in Hk'; try discriminate; injection Hk' as <-; [lia|].
  rewrite He in He'. injection He' as <-.
  rewrite Hs in Hs'. injection Hs' as <-.
  rewrite Hp in Hp'. injection Hp' as <-.
  pose proof (call2_length _ _ _ _ _ _ Hcall) as Hlen.
  rewrite (proj1 (normalized_shape P x)) in Hlen.
  rewrite bcast_vec_same in Hnew
    by (rewrite column_length, length_map; congruence).
  injection Hnew as <-.
  exists FM1, g1, e, g2. repeat split; auto.
  rewrite Hpost.
  rewrite (setcol_column_same _ _ _ _ Hset (Hwf1 Hwf)).
  - rewrite Hcol1. clear. generalize (column F0 f).
    induction e as [|ei e IH]; intros [|c cs]; simpl; auto. now rewrite IH.
  - rewrite zip_with_length, column_length, length_map. lia.
Qed.

End EvaluateMF.

(** ** The theorems on sample runs *)

Section SampleRuns.
#[local] Existing Instance SeriesHost.host.
Import Sample.


Lemma evaluate_MF_nonpositive_level_passthrough_witness :
  lookup_str (Phi_kw 0) first_negative = Some (-4) /\
  evaluate_MF truss_r1 bars first_negative seed = ok (first_negative_result, seed) /\
  column (F first_negative_result) 0 = column bars_hf 0.
Proof.
  split; [reflexivity|]. split; [reflexivity|].
  refine (proj2 (evaluate_MF_nonpositive_level_passthrough
                   truss_r1 bars first_negative 0 (-4) bars_hf seed
                   first_negative_result seed _ _ _ _ _)).
  - vm_compute. lia.
  - reflexivity.
  - lia.
  - reflexivity.
  - reflexivity.
Defined.

Lemma evaluate_MF_missing_objective_nan_witness :
  lookup_str (Phi_kw 0) second_only = None /\
  evaluate_MF truss_r1 bars second_only seed = ok (second_only_result, seed) /\
  column (F second_only_result) 0 = [nan; nan; nan]%float.
Proof.
  split; [reflexivity|]. split; [reflexivity|].
  refine (proj2 (proj2 (evaluate_MF_missing_objective_nan
                   truss_r1 bars second_only 0 bars_hf seed
                   second_only_result seed _ _ _ _ _))).
  - vm_compute. lia.
  - reflexivity.
  - reflexivity.
  - repeat constructor.
  - reflexivity.
Defined.

Lemma evaluate_MF_low_fidelity_column_witness :
  lookup_str (Phi_kw 1) both_low = Some 1 /\
  evaluate_MF truss_s1 bars both_low seed = ok (stochastic_low, stochastic_low_generator) /\
  exists FM1 g1 e g2,
    MF_loop truss_s1 (shape0 bars) (normalized truss_s1 bars) both_low (seq 0 1)
      bars_hf seed = ok (FM1, g1) /\
    call2 Fn_e_s1 (normalized truss_s1 bars) 8697 g1 = ok (e, g2) /\
    length e = shape0 bars /\
    column (F stochastic_low) 1 =
      zip_with (fun hf ei => (hf + 7.2515e+00 * ei)%float) (column bars_hf 1) e.
Proof.
  split; [reflexivity|]. split; [reflexivity|].
  refine (evaluate_MF_low_fidelity_column
            truss_s1 bars both_low 1 1
            {| Phi := [(1, 8697); (2, 6853); (3, 5000)];
               scale := [("f1", 5.3856e+03); ("f2", 7.2515e+00)]%float%string |}
            7.2515e+00%float 8697 bars_hf seed
            stochastic_low stochastic_low_generator _ _ _ _ _ _ _ _ _ _ _).
  - reflexivity.
  - vm_compute. lia.
  - reflexivity.
  - lia.
  - reflexivity.
  - reflexivity.
  - reflexivity.
  - reflexivity.
  - repeat constructor.
  - reflexivity.
  - reflexivity.
Defined.

End SampleRuns.

(** ** The instability errors *)

Section Instability.
Context {host : Host}.

Lemma spikes_two_valued n d p r :
  Forall (fun v => v = 0%float \/ v = float_of_Z (10 * Z.of_nat d))
    (zero_where_above p r (penalty n d)).
Proof.
  eapply Forall_impl; [|apply zero_where_above_values].
  intros v [->|Hv]; [now left | right; eapply penalty_values; eauto].
Qed.

(** Both functions return whenever the fidelity value converts to a float. *)
Lemma instability_returns x phi g pf :
  float_of_int phi = ok pf ->
  (exists e g', e_ins1 x phi g = ok (e, g')) /\
  (exists e g', e_ins2 x phi g = ok (e, g')).
Proof.
  intros Hp. unfold e_ins1, e_ins2, mbind, rand, lift. rewrite Hp.
  destruct (random_rand (shape0 x) g) as [r g1]. cbn [ok mret].
  split; eexists; eexists; reflexivity.
Qed.

(** C8: whatever the batch, the fidelity value and the draws of the
    generator, [e_ins1] and [e_ins2] return one value for each row, and
    each of them is exactly [0] or exactly [10 * d], [d] the number of
    columns. *)
Theorem instability_noise_two_valued x phi g e g' :
  e_ins1 x phi g = ok (e, g') \/ e_ins2 x phi g = ok (e, g') ->
  length e = shape0 x /\
  Forall (fun v => v = 0%float \/ v = float_of_Z (10 * Z.of_nat (shape1 x))) e.
Proof.
  intros [H|H].
  - split; [exact (call2_length Fn_e_ins1 _ _ _ _ _ H)|].
    unfold e_ins1 in H. step_ok H. step_ok H.
    apply mret_ok in H as [-> _]. apply spikes_two_valued.
  - split; [exact (call2_length Fn_e_ins2 _ _ _ _ _ H)|].
    unfold e_ins2 in H. step_ok H. step_ok H.
    apply mret_ok in H as [-> _]. apply spikes_two_valued.
Qed.

End Instability.

Lemma instability_noise_two_valued_witness :
  @e_ins2 SeriesHost.host Sample.bars 0 Sample.seed
    = ok ([40; 40; 40]%float, 1000676753) /\
  length [40; 40; 40]%float = shape0 Sample.bars /\
  Forall (fun v => v = 0%float \/ v = float_of_Z (10 * Z.of_nat (shape1 Sample.bars)))
    [40; 40; 40]%float.
Proof.
  split; [reflexivity|].
  apply (@instability_noise_two_valued SeriesHost.host Sample.bars 0 Sample.seed
           [40; 40; 40]%float 1000676753).
  right. reflexivity.
Defined.

(** ** The set of error functions *)

Section ErrorFunctionSet.
Context {host : Host}.

Lemma bcast_mat_rows f x y z :
  bcast_mat f x y = ok z ->
  length (rows z) = Nat.min (length (rows x)) (length (rows y)).
Proof.
  unfold bcast_mat, ok, raise.
  destruct (shape1 x =? shape1 y)%nat; [intros [= <-]; apply zip_with_length|].
  destruct (shape1 y =? 1)%nat; [intros [= <-]; apply zip_with_length|].
  destruct (shape1 x =? 1)%nat; [intros [= <-]; apply zip_with_length|discriminate].
Qed.

Lemma bcast_row_rows f x v z :
  bcast_row f x v = ok z -> length (rows z) = length (rows x).
Proof.
  unfold bcast_row, ok, raise.
  destruct (shape1 x =? length v)%nat; [intros [= <-]; apply length_map|].
  destruct (length v =? 1)%nat; [intros [= <-]; apply length_map|].
  destruct (shape1 x =? 1)%nat; [intros [= <-]; apply length_map|discriminate].
Qed.

Lemma e_r4_length x phi x_b e :
  e_r4 x phi x_b = ok e -> length e = shape0 x.
Proof.
  unfold e_r4. intros H. step_ok H. step_ok H. step_ok H. step_ok H.
  injection H as <-. unfold sum_axis1. rewrite length_map.
  rewrite (bcast_mat_rows _ _ _ _ Hstep2), (bcast_mat_rows _ _ _ _ Hstep1).
  rewrite !amap_rows_length, (bcast_row_rows _ _ _ _ Hstep0).
  rewrite ?azip_rows_length, ?scaled_ones_rows. unfold shape0. lia.
Qed.

(** The call with the baseline, for every function of the set. *)
Lemma call_length fn x phi x_b g e g' :
  call fn x phi x_b g = ok (e, g') -> length e = shape0 x.
Proof.
  destruct fn; cbn [call]; try apply call2_length.
  intros H. apply lift_ok in H as [H _]. eapply e_r4_length; eauto.
Qed.

End ErrorFunctionSet.

(** C9, as amended: the file defines ten functions, not thirteen, with
    ten distinct names: four resolution errors, four stochastic errors
    and two instability errors; [e_r4] alone takes a baseline vector;
    each returns one value for each row of the batch. *)
Theorem error_function_set_has_ten_functions :
  length all_error_functions = 10%nat /\
  (forall fn, In fn all_error_functions) /\
  NoDup (map __name__ all_error_functions) /\
  count_family Resolution = 4%nat /\
  count_family Stochastic = 4%nat /\
  count_family Instability = 2%nat /\
  (forall fn, takes_baseline fn = true <-> fn = Fn_e_r4) /\
  (forall (host : Host) fn x phi x_b g e g',
      call fn x phi x_b g = ok (e, g') -> length e = shape0 x).
Proof.
  split; [reflexivity|].
  split; [intros []; simpl; tauto|].
  split.
  { repeat (constructor; [simpl; intuition discriminate|]). constructor. }
  split; [reflexivity|]. split; [reflexivity|]. split; [reflexivity|].
  split.
  - intros fn; split; [destruct fn; simpl; congruence | now intros ->].
  - intros host fn x phi x_b g e g'. apply call_length.
Qed.

(** C9 as stated fails: the functions are not thirteen (and the three
    groups the claim itself lists add up to ten). *)
Lemma error_function_set_is_not_thirteen :
  length all_error_functions <> 13%nat /\ (4 + 4 + 2 <> 13)%nat.
Proof. split; vm_compute; discriminate. Qed.

(** ** Unknown fidelity levels *)

Section UnknownLevel.
Context {host : Host}.

Lemma MF_loop_raises (P : _MF_Base) n x_s kwargs fs f :
  In f fs ->
  (forall FM g, exists e, MF_objective P n x_s kwargs FM f g = inl e) ->
  forall FM g, exists e, MF_loop P n x_s kwargs fs FM g = inl e.
Proof.
  intros Hin Hraise. induction fs as [|f' fs IH]; [contradiction|].
  intros FM g. simpl. unfold mbind.
  destruct (MF_objective P n x_s kwargs FM f' g) as [e|[FM1 g1]] eqn:Hstep.
  - now exists e.
  - destruct Hin as [->|Hin].
    + destruct (Hraise FM g) as [e He]. congruence.
    + now apply IH.
Qed.

Lemma MF_objective_unknown_level (P : _MF_Base) n x_s kwargs f level FM g :
  lookup_str (Phi_kw f) kwargs = Some level ->
  0 < level ->
  (forall entry, lookup_str (__name__ (err_fn P)) (mf_def P) = Some entry ->
                 lookup_int level (Phi entry) = None) ->
  (exists e, MF_objective P n x_s kwargs FM f g = inl e) /\
  (forall entry sc,
      lookup_str (__name__ (err_fn P)) (mf_def P) = Some entry ->
      lookup_str (f_kw f) (scale entry) = Some sc ->
      MF_objective P n x_s kwargs FM f g = inl (KeyError (KInt level))).
Proof.
  intros Hk Hl Habs. unfold MF_objective. rewrite Hk.
  apply Z.ltb_lt in Hl. rewrite Hl.
  unfold mbind, lift, getitem_str, getitem_int, raise, ok.
  destruct (lookup_str (__name__ (err_fn P)) (mf_def P)) as [entry|] eqn:He.
  - rewrite (Habs entry eq_refl).
    destruct (lookup_str (f_kw f) (scale entry)) as [sc|] eqn:Hs.
    + split; [eexists; reflexivity|]. intros; reflexivity.
    + split; [eexists; reflexivity|]. intros entry' sc' [= <-]. congruence.
  - split; [eexists; reflexivity|]. intros; discriminate.
Qed.

(** C4, as amended: a strictly positive requested level that the active
    error function's calibration entry does not list makes [evaluate_MF]
    raise, whatever else the call holds: no value is returned and no
    level is substituted.  When the batch has the declared width, the
    objectives before this one pass and the entry has a scale for it,
    what is raised is the dictionary's own [KeyError] carrying the
    level, whose message is the level's digits. *)
Theorem unknown_level_raises_KeyError (P : _MF_Base) x kwargs f level g :
  (f < Z.to_nat (n_obj P))%nat ->
  lookup_str (Phi_kw f) kwargs = Some level ->
  0 < level ->
  (forall entry, lookup_str (__name__ (err_fn P)) (mf_def P) = Some entry ->
                 lookup_int level (Phi entry) = None) ->
  (exists e, evaluate_MF P x kwargs g = inl e) /\
  (forall entry sc F0 FM1 g1,
      lookup_str (__name__ (err_fn P)) (mf_def P) = Some entry ->
      lookup_str (f_kw f) (scale entry) = Some sc ->
      shape1 x = n_var P ->
      _evaluate_obj P x = ok F0 ->
      MF_loop P (shape0 x) (normalized P x) kwargs (seq 0 f) F0 g = ok (FM1, g1) ->
      evaluate_MF P x kwargs g = inl (KeyError (KInt level)) /\
      str (KeyError (KInt level)) = str_of_Z level).
Proof.
  intros Hf Hk Hl Habs. split.
  - unfold evaluate_MF, mbind, lift. cbv zeta.
    destruct (evaluate P x) as [e|r0]; [now exists e|].
    destruct (scale_batch P x) as [e|x_s]; [now exists e|].
    destruct (MF_loop_raises P (shape0 x) x_s kwargs (range (n_obj P)) f)
      with (FM := F r0) (g := g) as [e Hloop].
    + unfold range. apply in_seq. lia.
    + intros FM g1.
      exact (proj1 (MF_objective_unknown_level P _ x_s kwargs f level FM g1 Hk Hl Habs)).
    + exists e. cbn [ok]. now rewrite Hloop.
  - intros entry sc F0 FM1 g1 He Hs Hx HF Hpre. split; [|reflexivity].
    unfold evaluate_MF. cbv zeta.
    rewrite (mbind_step _ _ g {| F := F0 |} g)
      by (unfold lift, evaluate; now rewrite HF).
    rewrite (mbind_step _ _ g (normalized P x) g)
      by (unfold lift; now rewrite (scale_batch_spec _ _ Hx)).
    apply mbind_raise. cbn [F].
    unfold range.
    replace (Z.to_nat (n_obj P)) with (f + S (Z.to_nat (n_obj P) - S f))%nat by lia.
    rewrite seq_app, MF_loop_app.
    rewrite (mbind_step _ _ g FM1 g1) by exact Hpre.
    cbn [MF_loop Nat.add]. apply mbind_raise.
    exact (proj2 (MF_objective_unknown_level P _ _ kwargs f level FM1 g1 Hk Hl Habs)
             entry sc He Hs).
Qed.

End UnknownLevel.

Lemma unknown_level_raises_KeyError_witness :
  lookup_str (Phi_kw 0) Sample.first_unknown = Some 7 /\
  (exists e, @evaluate_MF SeriesHost.host Sample.truss_r1 Sample.bars
               Sample.first_unknown Sample.seed = inl e).
Proof.
  split; [reflexivity|].
  refine (proj1 (@unknown_level_raises_KeyError SeriesHost.host Sample.truss_r1
                   Sample.bars Sample.first_unknown 0 7 Sample.seed _ _ _ _)).
  - vm_compute. lia.
  - reflexivity.
  - lia.
  - intros entry [= <-]. reflexivity.
Defined.

(** C4 as stated fails: what the call raises for the unlisted level 7
    is [KeyError(7)], whose message is ["7"] and does not mention an
    unknown fidelity level. *)
Lemma unknown_level_error_is_a_bare_KeyError :
  @evaluate_MF SeriesHost.host Sample.truss_r1 Sample.bars
     Sample.first_unknown Sample.seed = inl (KeyError (KInt 7)) /\
  str (KeyError (KInt 7)) = "7"%string /\
  contains "unknown fidelity level" (str (KeyError (KInt 7))) = false.
Proof. repeat split. Qed.

(** ** Batches of the wrong width *)

Section WrongWidth.
Context {host : Host}.

Lemma slice_bound_upto len b :
  0 <= b -> slice_bound len b = Nat.min (Z.to_nat b) len.
Proof.
  intros Hb. unfold slice_bound.
  destruct (b <? 0) eqn:E; [apply Z.ltb_lt in E; lia|]. lia.
Qed.







(** The loop of [s] starts at the index [n_obj - 2]: a batch with fewer
    than [n_obj - 1] columns lacks that column. *)
Lemma s_too_narrow a x_pos :
  1 < DTLZ_problems.n_obj a ->
  Z.of_nat (shape1 x_pos) < DTLZ_problems.n_obj a - 1 ->
  DTLZ_problems.s a x_pos
  = raise (IndexError (DTLZ_problems.n_obj a - 2) 1 (shape1 x_pos)).
Proof.
  intros Hn Hx. unfold DTLZ_problems.s, DTLZ_problems.range_down, range.
  replace (Z.to_nat (DTLZ_problems.n_obj a - 1))
    with (S (Z.to_nat (DTLZ_problems.n_obj a - 2))) by lia.
  rewrite seq_S, rev_app_distr. cbn [rev app Nat.add DTLZ_problems.s_loop].
  unfold DTLZ_problems.s_step, getcol.
  assert (Hlt : (Z.to_nat (DTLZ_problems.n_obj a - 2) <? shape1 x_pos)%nat = false)
    by (apply Nat.ltb_ge; lia).
  rewrite Hlt. cbn [rbind raise]. unfold raise. do 2 f_equal. lia.
Qed.



(** The product with [1 + g], a single column, always broadcasts. *)
Lemma bcast_mat_column f G S :
  shape1 G = 1%nat -> exists r, bcast_mat f G S = ok r.
Proof.
  intros HG. unfold bcast_mat. rewrite HG.
  destruct (1 =? shape1 S)%nat; [eexists; reflexivity|].
  destruct (shape1 S =? 1)%nat; eexists; reflexivity.
Qed.



End WrongWidth.


(** ** The normalisation of one entry *)

Section EntryNormalisation.

Lemma finite_double d :
  is_finite (2 * d) = true -> finite_or_zero (Prim2SF d) = true.
Proof.
  intros H. apply finite_or_zero_cases in H. rewrite mul_spec in H.
  replace (Prim2SF 2) with (S754_finite false 4503599627370496 (-51)) in H by reflexivity.
  destruct (Prim2SF d) as [s|s| |s m e]; try reflexivity; discriminate H.
Qed.

(** A zero offset is normalised to [-1]. *)
Lemma zero_offset n d :
  (exists s, Prim2SF n = S754_zero s) ->
  finite_or_zero (Prim2SF d) = true -> is_zero d = false ->
  (2 * n / d + -1)%float = (-1)%float.
Proof.
  intros [s Hn] Fd Hz. apply Prim2SF_inj.
  unfold is_zero in Hz. rewrite FloatAxioms.eqb_spec in Hz.
  rewrite add_spec, div_spec, mul_spec, Hn.
  replace (Prim2SF 0) with (S754_zero false) in Hz by reflexivity.
  destruct (Prim2SF d) as [sd|sd| |sd md ed]; try discriminate Fd.
  - discriminate Hz.
  - destruct s, sd; reflexivity.
Qed.

(** The computed width of a non-empty box is not zero. *)
Lemma width_nonzero lo hi :
  (lo <? hi)%float = true -> is_finite (2 * (hi - lo)) = true ->
  is_zero (hi - lo) = false.
Proof.
  intros Hlt Hf. destruct (finite_double_sub hi lo Hf) as [Fh Fl].
  unfold is_zero. rewrite FloatAxioms.eqb_spec, sub_spec.
  rewrite ltb_spec in Hlt.
  exact (SFsub_lt_nonzero _ _ (Prim2SF_valid lo) (Prim2SF_valid hi) Fl Fh Hlt).
Qed.

(** A point that compares equal to the lower bound goes to [-1]. *)
Lemma lower_end x lo hi :
  (x =? lo)%float = true ->
  is_zero (hi - lo) = false -> is_finite (2 * (hi - lo)) = true ->
  scale_entry x lo hi = (-1)%float.
Proof.
  intros He Hz Hf. destruct (finite_double_sub hi lo Hf) as [_ Fl].
  unfold scale_entry.
  change (float_of_Z (1 - -1)) with 2%float. change (float_of_Z (-1)) with (-1)%float.
  apply zero_offset; [|now apply finite_double|exact Hz].
  rewrite sub_spec. rewrite FloatAxioms.eqb_spec in He.
  destruct (SFeqb_cases _ _ He) as [->|(s1 & s2 & -> & ->)].
  - destruct (Prim2SF lo) as [s|s| |s m e]; try discriminate Fl.
    + destruct s; eexists; reflexivity.
    + unfold SF64sub, SFsub. cbv zeta. rewrite Z.sub_diag. eexists; reflexivity.
  - destruct s1, s2; eexists; reflexivity.
Qed.

(** A point that compares equal to the upper bound goes to [1]. *)
Lemma upper_end x lo hi :
  (x =? hi)%float = true ->
  is_zero (hi - lo) = false -> is_finite (2 * (hi - lo)) = true ->
  scale_entry x lo hi = 1%float.
Proof.
  intros He Hz Hf.
  assert (Hd : (x - lo)%float = (hi - lo)%float).
  { apply Prim2SF_inj. rewrite !sub_spec.
    rewrite FloatAxioms.eqb_spec in He.
    destruct (SFeqb_cases _ _ He) as [->|(s1 & s2 & E1 & E2)]; [reflexivity|].
    unfold is_zero in Hz. rewrite FloatAxioms.eqb_spec, sub_spec, E2 in Hz.
    rewrite E1, E2.
    destruct (Prim2SF lo) as [s|s| |s m e]; try reflexivity.
    destruct s2, s; discriminate Hz. }
  unfold scale_entry. rewrite Hd. now apply upper_endpoint.
Qed.

End EntryNormalisation.

(** Every bound pair a problem class declares is a non-empty box whose
    doubled width is finite, and its two ends are normalised to [-1]
    and [1]. *)
Lemma declared_bounds_normalise :
  Forall (fun b => (fst b <? snd b)%float = true /\
                   is_finite (2 * (snd b - fst b)) = true /\
                   scale_entry (fst b) (fst b) (snd b) = (-1)%float /\
                   scale_entry (snd b) (fst b) (snd b) = 1%float)
         declared_bounds.
Proof. repeat constructor. Qed.

(** C5, as amended: in binary64, as [evaluate_MF] computes it, for a
    bound pair with [lower < upper] whose doubled width
    [2 * (upper - lower)] is finite, every [x] with
    [lower <= x <= upper] is normalised to a value of [[-1, 1]]; an [x]
    that compares equal to the lower bound goes to exactly [-1], and
    one that compares equal to the upper bound to exactly [1]. *)
Theorem normalisation_of_bounds (x lo hi : float) :
  (lo <? hi)%float = true ->
  (lo <=? x)%float = true -> (x <=? hi)%float = true ->
  is_finite (2 * (hi - lo)) = true ->
  (-1 <=? scale_entry x lo hi)%float = true /\
  (scale_entry x lo hi <=? 1)%float = true /\
  ((x =? lo)%float = true -> scale_entry x lo hi = (-1)%float) /\
  ((x =? hi)%float = true -> scale_entry x lo hi = 1%float).
Proof.
  intros Hlt Hl Hu Hf.
  pose proof (width_nonzero lo hi Hlt Hf) as Hz.
  destruct (finite_double_sub hi lo Hf) as [Fh Fl].
  assert (Hr : (-1 <=? scale_entry x lo hi)%float = true /\
               (scale_entry x lo hi <=? 1)%float = true).
  { rewrite leb_spec in Hl, Hu.
    pose proof (between_finite _ _ _ Fl Fh Hl Hu) as Fx.
    destruct (SFsub_order _ _ _ (Prim2SF_valid x) (Prim2SF_valid lo) (Prim2SF_valid hi)
                Fx Fl Fh Hl Hu) as [O1 O2].
    apply scale_entry_range; try assumption.
    - rewrite leb_spec, sub_spec. exact O1.
    - rewrite leb_spec, !sub_spec. exact O2. }
  destruct Hr as [R1 R2]. repeat split; try assumption.
  - intros He. now apply lower_end.
  - intros He. now apply upper_end.
Qed.

Lemma normalisation_of_bounds_witness :
  (1 <? 3)%float = true /\ (1 <=? 2.5)%float = true /\ (2.5 <=? 3)%float = true /\
  is_finite (2 * (3 - 1)) = true /\
  scale_entry 2.5 1 3 = 0.5%float /\
  (-1 <=? scale_entry 2.5 1 3)%float = true /\
  (scale_entry 2.5 1 3 <=? 1)%float = true /\
  ((2.5 =? 1)%float = true -> scale_entry 2.5 1 3 = (-1)%float) /\
  ((2.5 =? 3)%float = true -> scale_entry 2.5 1 3 = 1%float).
Proof.
  split; [reflexivity|]. split; [reflexivity|]. split; [reflexivity|].
  split; [reflexivity|]. split; [reflexivity|].
  apply (normalisation_of_bounds 2.5 1 3); reflexivity.
Defined.

(** C5 as stated fails in binary64: for the bound pair (0, 1e308) the
    double of the width overflows, and the upper bound is normalised to
    infinity, which is neither 1 nor within [-1, 1]. *)
Lemma normalisation_overflows_for_wide_bounds :
  (0 <? 1e308)%float = true /\
  (0 <=? 1e308)%float = true /\ (1e308 <=? 1e308)%float = true /\
  scale_entry 1e308 0 1e308 = infinity /\
  (scale_entry 1e308 0 1e308 =? 1)%float = false /\
  (scale_entry 1e308 0 1e308 <=? 1)%float = false.
Proof. repeat split. Qed.

(** ** When [evaluate_MF] returns *)

Section Returns.
Context {host : Host}.

Lemma setcol_ok x j v :
  (j < shape1 x)%nat -> length v = shape0 x -> exists y, setcol x j v = ok y.
Proof.
  intros Hj Hv. unfold setcol.
  rewrite (proj2 (Nat.ltb_lt _ _) Hj), (proj2 (Nat.eqb_eq _ _) Hv).
  eexists; reflexivity.
Qed.

Lemma MF_objective_returns (P : _MF_Base) x_s kwargs FM f g :
  shape0 x_s = shape0 FM ->
  (f < shape1 FM)%nat ->
  served P x_s kwargs f ->
  exists FM' g', MF_objective P (shape0 FM) x_s kwargs FM f g = ok (FM', g').
Proof.
  intros Hrows Hf Hserved. unfold served in Hserved. unfold MF_objective.
  destruct (lookup_str (Phi_kw f) kwargs) as [level|].
  - destruct (0 <? level) eqn:Hl; [|eexists; eexists; reflexivity].
    apply Z.ltb_lt in Hl.
    destruct Hserved as [Hle|(entry & sc & phi & He & Hs & Hp & Hcall)]; [lia|].
    destruct (Hcall g) as (e & g' & Hc).
    pose proof (call2_length _ _ _ _ _ _ Hc) as Hlen.
    destruct (setcol_ok FM f
                (zip_with add (column FM f) (map (fun ei => (sc * ei)%float) e)) Hf)
      as [y Hy].
    { rewrite zip_with_length, column_length, length_map. lia. }
    exists y, g'.
    rewrite (mbind_step _ _ g entry g)
      by (unfold lift; now rewrite (proj2 (getitem_str_ok _ _ _) He)).
    rewrite (mbind_step _ _ g sc g)
      by (unfold lift; now rewrite (proj2 (getitem_str_ok _ _ _) Hs)).
    rewrite (mbind_step _ _ g phi g)
      by (unfold lift; now rewrite (proj2 (getitem_int_ok _ _ _) Hp)).
    rewrite (mbind_step _ _ g e g') by exact Hc.
    rewrite (mbind_step _ _ g' (column FM f) g')
      by (unfold lift, getcol; now rewrite (proj2 (Nat.ltb_lt _ _) Hf)).
    rewrite (mbind_step _ _ g'
               (zip_with add (column FM f) (map (fun ei => (sc * ei)%float) e)) g')
      by (unfold lift; rewrite bcast_vec_same;
          [reflexivity | rewrite column_length, length_map; congruence]).
    unfold lift. now rewrite Hy.
  - destruct (setcol_ok FM f (map (fun o => (nan * o)%float) (ones (shape0 FM))) Hf)
      as [y Hy].
    + unfold ones. now rewrite length_map, repeat_length.
    + unfold lift. rewrite Hy. eexists; eexists; reflexivity.
Qed.

Lemma MF_loop_returns (P : _MF_Base) x_s kwargs fs FM g :
  shape0 x_s = shape0 FM ->
  (forall f, In f fs -> (f < shape1 FM)%nat /\ served P x_s kwargs f) ->
  exists FM' g', MF_loop P (shape0 FM) x_s kwargs fs FM g = ok (FM', g').
Proof.
  revert FM g; induction fs as [|f fs IH]; intros FM g Hrows Hfs; cbn [MF_loop].
  - eexists; eexists; reflexivity.
  - destruct (Hfs f (or_introl eq_refl)) as [Hf Hs].
    destruct (MF_objective_returns P x_s kwargs FM f g Hrows Hf Hs) as (FM1 & g1 & H1).
    rewrite (mbind_step _ _ _ _ _ H1).
    apply MF_objective_ok, pass_shape in H1 as (S1 & S0 & _).
    rewrite <- S0. apply IH; [congruence|].
    intros f' Hf'. rewrite S1. apply Hfs. now right.
Qed.

(** On a batch of the declared width, for an evaluator that returns one
    row for each sample and a column for each objective, and a request
    the calibration can serve, [evaluate_MF] returns. *)
Lemma evaluate_MF_returns (P : _MF_Base) x kwargs F0 g :
  shape1 x = n_var P ->
  _evaluate_obj P x = ok F0 ->
  shape0 F0 = shape0 x ->
  (Z.to_nat (n_obj P) <= shape1 F0)%nat ->
  (forall f, (f < Z.to_nat (n_obj P))%nat -> served P (normalized P x) kwargs f) ->
  exists r g', evaluate_MF P x kwargs g = ok (r, g').
Proof.
  intros Hx HF Hrows Hcols Hserved. unfold evaluate_MF. cbv zeta.
  rewrite (mbind_step _ _ g {| F := F0 |} g)
    by (unfold lift, evaluate; now rewrite HF).
  rewrite (mbind_step _ _ g (normalized P x) g)
    by (unfold lift; now rewrite (scale_batch_spec _ _ Hx)).
  cbn [F]. rewrite <- Hrows.
  destruct (MF_loop_returns P (normalized P x) kwargs (range (n_obj P)) F0 g)
    as (FM & g' & Hloop).
  - rewrite (proj1 (normalized_shape P x)). congruence.
  - intros f Hf. unfold range in Hf. apply in_seq in Hf. split; [lia|].
    apply Hserved. lia.
  - rewrite (mbind_step _ _ _ _ _ Hloop). eexists; eexists; reflexivity.
Qed.

(** The calls of the error functions that return: all but that of
    [e_r4], which lacks its third argument, once the fidelity parameter
    converts to a float (and, for [e_s3], the batch has a column). *)
Lemma call2_returns fn x phi pf g :
  fn <> Fn_e_r4 ->
  float_of_int phi = ok pf ->
  (fn = Fn_e_s3 -> exists df, py_div_int (0.1 * (1 - 0.0001 * pf))%float
                                (Z.of_nat (shape1 x)) = ok df) ->
  exists e g', call2 fn x phi g = ok (e, g').
Proof.
  intros Hfn Hp Hd.
  destruct fn; cbn [call2]; try congruence;
    unfold e_r1, e_r2, e_r3, e_s1, e_s2, e_s3, e_s4, e_ins1, e_ins2,
           uniform_noise, mbind, lift, rand, mret; cbv zeta; rewrite ?Hp; cbn [rbind ok].
  - eexists; eexists; reflexivity.
  - eexists; eexists; reflexivity.
  - repeat (destruct (_ <? _)%Z; rewrite ?Hp; cbn [rbind ok];
            [eexists; eexists; reflexivity|]).
    eexists; eexists; reflexivity.
  - destruct (random_rand (shape0 x) g). eexists; eexists; reflexivity.
  - destruct (random_rand (shape0 x) g). eexists; eexists; reflexivity.
  - destruct (Hd eq_refl) as [df ->]. cbn [ok].
    destruct (random_rand (shape0 x) g). eexists; eexists; reflexivity.
  - destruct (random_rand (shape0 x) g). eexists; eexists; reflexivity.
  - destruct (random_rand (shape0 x) g). rewrite ?Hp. eexists; eexists; reflexivity.
  - destruct (random_rand (shape0 x) g). rewrite ?Hp. eexists; eexists; reflexivity.
Qed.

End Returns.

(** ** The scalable problems *)

Section Scalable.
Context {host : Host}.














(** [DTLZ2] and [InvertedDTLZ2] built with the same parameters raise
    together on a batch. *)
Lemma DTLZ2_and_inverted_raise_together (a : DTLZ_problems.params) (x : ndarray) e :
  DTLZ_problems.DTLZ2_evaluate_obj a x = inl e <->
  DTLZ_problems.InvertedDTLZ2_evaluate_obj a x = inl e.
Proof.
  unfold DTLZ_problems.DTLZ2_evaluate_obj, DTLZ_problems.InvertedDTLZ2_evaluate_obj.
  cbv zeta.
  destruct (DTLZ_problems.s a (cols_upto x (DTLZ_problems.n_obj a - 1))) as [e'|S];
    cbn [rbind]; [reflexivity|].
  destruct (bcast_mat_column mul
              (amap (fun t => (1 + t)%float)
                 (DTLZ_problems.g (cols_from x (DTLZ_problems.n_obj a - 1))))
              S eq_refl) as [r ->].
  destruct (bcast_mat_column mul
              (amap (fun t => (1 + t)%float)
                 (DTLZ_problems.g (cols_from x (DTLZ_problems.n_obj a - 1))))
              (amap (fun t => (1 - t)%float) S) eq_refl) as [r' ->].
  split; discriminate.
Qed.

End Scalable.


Lemma evaluate_MF_returns_sample :
  exists r g',
    @evaluate_MF SeriesHost.host Sample.truss_s1 Sample.bars Sample.both_low Sample.seed
    = ok (r, g').
Proof.
  apply (@evaluate_MF_returns SeriesHost.host Sample.truss_s1 Sample.bars
           Sample.both_low Sample.bars_hf Sample.seed).
  - reflexivity.
  - reflexivity.
  - reflexivity.
  - vm_compute. lia.
  - intros [|[|f]] Hf; [| |vm_compute in Hf; lia].
    + right. eexists; eexists; eexists.
      split; [reflexivity|]. split; [reflexivity|]. split; [reflexivity|].
      intros g. apply (call2_returns Fn_e_s1 _ 6853 6853%float); [discriminate|reflexivity|discriminate].
    + right. eexists; eexists; eexists.
      split; [reflexivity|]. split; [reflexivity|]. split; [reflexivity|].
      intros g. apply (call2_returns Fn_e_s1 _ 8697 8697%float); [discriminate|reflexivity|discriminate].
Defined.

(** ** The generator and the request *)

Section Draws.
Context {host : Host}.

Lemma random_rand_add n m g :
  random_rand (n + m) g =
  (fst (random_rand n g) ++ fst (random_rand m (advance n g)),
   advance m (advance n g)).
Proof.
  unfold advance. revert g; induction n as [|n IH]; intros g; cbn [random_rand Nat.add].
  - cbn [fst snd app]. now destruct (random_rand m g).
  - destruct (rand1 g) as [r g1]. rewrite IH.
    destruct (random_rand n g1) as [rs g2]. reflexivity.
Qed.

Lemma advance_add n m g : advance (n + m) g = advance m (advance n g).
Proof. unfold advance at 1. now rewrite random_rand_add. Qed.

Lemma advance_0 g : advance 0 g = g.
Proof. reflexivity. Qed.

Lemma rand_advance n g r g' : rand n g = ok (r, g') -> g' = advance n g.
Proof. unfold rand, ok, advance. intros [= H]. now rewrite H. Qed.

(** A call that returns leaves the generator after as many draws as the
    batch has rows, or untouched for a resolution error. *)
Lemma call2_draws fn x phi g e g' :
  call2 fn x phi g = ok (e, g') -> g' = advance (draws fn (shape0 x)) g.
Proof.
  destruct fn; cbn [call2 draws family_of]; intros H.
  - now apply lift_ok in H as [_ ->].
  - now apply lift_ok in H as [_ ->].
  - now apply lift_ok in H as [_ ->].
  - now apply lift_ok in H as [_ ->].
  - unfold e_s1, uniform_noise in H. cbv zeta in H.
    step_ok H. apply lift_ok in Hstep as [_ ->].
    step_ok H. apply rand_advance in Hstep. now apply mret_ok in H as [_ ->].
  - unfold e_s2, uniform_noise in H. cbv zeta in H.
    step_ok H. apply lift_ok in Hstep as [_ ->].
    step_ok H. apply rand_advance in Hstep. now apply mret_ok in H as [_ ->].
  - unfold e_s3 in H. cbv zeta in H.
    step_ok H. apply lift_ok in Hstep as [_ ->].
    step_ok H. apply lift_ok in Hstep as [_ ->].
    step_ok H. apply rand_advance in Hstep. now apply mret_ok in H as [_ ->].
  - unfold e_s4 in H. cbv zeta in H.
    step_ok H. apply lift_ok in Hstep as [_ ->].
    step_ok H. apply rand_advance in Hstep. now apply mret_ok in H as [_ ->].
  - unfold e_ins1 in H. cbv zeta in H.
    step_ok H. apply rand_advance in Hstep.
    step_ok H. apply lift_ok in Hstep0 as [_ ->]. now apply mret_ok in H as [_ ->].
  - unfold e_ins2 in H. cbv zeta in H.
    step_ok H. apply rand_advance in Hstep.
    step_ok H. apply lift_ok in Hstep0 as [_ ->]. now apply mret_ok in H as [_ ->].
Qed.

Lemma MF_objective_draws (P : _MF_Base) n x_s kwargs FM f g FM' g' :
  MF_objective P n x_s kwargs FM f g = ok (FM', g') ->
  g' = advance (if low_fidelity kwargs f then draws (err_fn P) (shape0 x_s) else 0) g.
Proof.
  intros H. apply MF_objective_ok in H. unfold low_fidelity.
  destruct H as [Hk _ ->|level Hk Hl _ ->|level entry sc phi e new Hk Hl _ _ _ Hc _ _ _];
    rewrite Hk.
  - reflexivity.
  - apply Z.ltb_ge in Hl. now rewrite Hl.
  - apply Z.ltb_lt in Hl. rewrite Hl. now apply call2_draws in Hc.
Qed.

Lemma MF_loop_draws (P : _MF_Base) n x_s kwargs fs FM g FM' g' :
  MF_loop P n x_s kwargs fs FM g = ok (FM', g') ->
  g' = advance (length (filter (low_fidelity kwargs) fs)
                * draws (err_fn P) (shape0 x_s)) g.
Proof.
  revert FM g; induction fs as [|f fs IH]; intros FM g H; cbn [MF_loop] in H.
  - now apply mret_ok in H as [_ ->].
  - step_ok H. apply MF_objective_draws in Hstep. apply IH in H.
    cbn [filter]. destruct (low_fidelity kwargs f); cbn [length Nat.mul].
    + rewrite advance_add. congruence.
    + rewrite advance_0 in Hstep. congruence.
Qed.

Lemma scale_batch_rows (P : _BaseProblem) x x_s :
  scale_batch P x = ok x_s -> shape0 x_s = shape0 x.
Proof.
  unfold scale_batch, get_bound_arrays. intros H.
  step_ok H. step_ok H. injection H as <-.
  apply bcast_row_rows in Hstep, Hstep0.
  unfold shape0. rewrite amap_rows_length, Hstep0, amap_rows_length. exact Hstep.
Qed.

(** [evaluate_MF] draws one number per row of the batch for each
    objective it is asked at a low fidelity, with a stochastic or an
    instability error, and none with a resolution error. *)
Theorem evaluate_MF_draws (P : _MF_Base) x kwargs g r g' :
  evaluate_MF P x kwargs g = ok (r, g') ->
  g' = advance (length (low_objectives P kwargs) * draws (err_fn P) (shape0 x)) g.
Proof.
  intros H. apply evaluate_MF_ok in H as (F0 & x_s & _ & Hs & Hloop).
  apply MF_loop_draws in Hloop. now rewrite (scale_batch_rows _ _ _ Hs) in Hloop.
Qed.

End Draws.

Lemma evaluate_MF_draws_sample :
  @evaluate_MF SeriesHost.host Sample.truss_s1 Sample.bars Sample.both_low Sample.seed
  = ok (Sample.stochastic_low, Sample.stochastic_low_generator) /\
  length (low_objectives Sample.truss_s1 Sample.both_low) = 2%nat /\
  Sample.stochastic_low_generator
  = @advance SeriesHost.host (2 * 3) Sample.seed.
Proof.
  split; [reflexivity|]. split; [reflexivity|].
  exact (@evaluate_MF_draws SeriesHost.host Sample.truss_s1 Sample.bars Sample.both_low
           Sample.seed Sample.stochastic_low Sample.stochastic_low_generator eq_refl).
Defined.

(** ** What the request and the error function decide *)

Section Requests.
Context {host : Host}.

Lemma mbind_lift {A B} (c : res A) (k : A -> M B) g :
  mbind (lift c) k g = match c with inl e => inl e | inr a => k a g end.
Proof. unfold mbind, lift. now destruct c. Qed.

Ltac lift_steps := repeat (rewrite mbind_lift; cbv beta iota).

Lemma call2_resolution_pure fn x phi :
  family_of fn = Resolution -> exists c, forall g, call2 fn x phi g = lift c g.
Proof. destruct fn; try discriminate; intros _; eexists; intros g; reflexivity. Qed.

Lemma MF_objective_pure (P : _MF_Base) n x_s kwargs FM f :
  family_of (err_fn P) = Resolution ->
  exists c, forall g, MF_objective P n x_s kwargs FM f g = lift c g.
Proof.
  intros Hfam. unfold MF_objective.
  destruct (lookup_str (Phi_kw f) kwargs) as [level|]; [|eexists; intros g; reflexivity].
  destruct (0 <? level); [|exists (ok FM); intros g; reflexivity].
  assert (Hcall : exists cc, forall phi g, call2 (err_fn P) x_s phi g = lift (cc phi) g).
  { destruct (err_fn P); try discriminate Hfam;
      [exists (e_r1 x_s)|exists (e_r2 x_s)|exists (e_r3 x_s)
      |exists (fun _ => raise (TypeError "e_r4" "x_b"))];
      intros phi g; reflexivity. }
  destruct Hcall as [cc Hcc].
  exists (entry <- getitem_str (mf_def P) (__name__ (err_fn P)) ;;
          sc <- getitem_str (scale entry) (f_kw f) ;;
          phi <- getitem_int (Phi entry) level ;;
          e <- cc phi ;;
          old <- getcol FM f ;;
          new <- bcast_vec add old (map (fun ei => (sc * ei)%float) e) ;;
          setcol FM f new)%res.
  intros g. lift_steps.
  destruct (getitem_str (mf_def P) (__name__ (err_fn P))) as [e|entry];
    cbn [rbind]; [reflexivity|].
  lift_steps. destruct (getitem_str (scale entry) (f_kw f)) as [e|sc];
    cbn [rbind]; [reflexivity|].
  lift_steps. destruct (getitem_int (Phi entry) level) as [e|phi];
    cbn [rbind]; [reflexivity|].
  unfold mbind at 1. rewrite Hcc. unfold lift at 1.
  destruct (cc phi) as [e|ev]; cbn [rbind ok]; [reflexivity|].
  lift_steps. destruct (getcol FM f) as [e|old]; cbn [rbind]; [reflexivity|].
  lift_steps.
  destruct (bcast_vec add old (map (fun ei => (sc * ei)%float) ev)) as [e|new];
    cbn [rbind]; reflexivity.
Qed.

Lemma MF_loop_pure (P : _MF_Base) n x_s kwargs fs FM :
  family_of (err_fn P) = Resolution ->
  exists c, forall g, MF_loop P n x_s kwargs fs FM g = lift c g.
Proof.
  intros Hfam. revert FM; induction fs as [|f fs IH]; intros FM; cbn [MF_loop].
  - exists (ok FM). intros g; reflexivity.
  - destruct (MF_objective_pure P n x_s kwargs FM f Hfam) as [[e|FM1] H1].
    + exists (inl e). intros g. unfold mbind. now rewrite H1.
    + destruct (IH FM1) as [c Hc]. exists c. intros g. unfold mbind. rewrite H1.
      cbn [lift ok]. apply Hc.
Qed.

(** With a resolution error [evaluate_MF] is a pure computation: what it
    returns or raises does not depend on the generator, which it leaves
    as it was. *)
Theorem evaluate_MF_resolution_pure (P : _MF_Base) x kwargs :
  family_of (err_fn P) = Resolution ->
  exists c : res result, forall g, evaluate_MF P x kwargs g = lift c g.
Proof.
  intros Hfam. unfold evaluate_MF. cbv zeta.
  destruct (evaluate P x) as [e|r0];
    [exists (inl e); intros g; now lift_steps|].
  destruct (scale_batch P x) as [e|x_s];
    [exists (inl e); intros g; now lift_steps|].
  destruct (MF_loop_pure P (shape0 x) x_s kwargs (range (n_obj P)) (F r0) Hfam)
    as [[e|FM] Hc].
  - exists (inl e). intros g. lift_steps. unfold mbind. now rewrite Hc.
  - exists (ok {| F := FM |}). intros g. lift_steps. unfold mbind. now rewrite Hc.
Qed.

Lemma MF_objective_reads_its_key (P1 P2 : _MF_Base) n x_s kw1 kw2 FM f g :
  lookup_str (Phi_kw f) kw1 = lookup_str (Phi_kw f) kw2 ->
  (low_fidelity kw1 f = true -> mf_def P1 = mf_def P2 /\ err_fn P1 = err_fn P2) ->
  MF_objective P1 n x_s kw1 FM f g = MF_objective P2 n x_s kw2 FM f g.
Proof.
  intros Hk Hlow. unfold MF_objective, low_fidelity in *. rewrite <- Hk.
  destruct (lookup_str (Phi_kw f) kw1) as [level|]; [|reflexivity].
  destruct (0 <? level); [|reflexivity].
  destruct (Hlow eq_refl) as [-> ->]. reflexivity.
Qed.

Lemma MF_loop_reads_its_keys (P1 P2 : _MF_Base) n x_s kw1 kw2 fs FM g :
  (forall f, In f fs ->
     lookup_str (Phi_kw f) kw1 = lookup_str (Phi_kw f) kw2 /\
     (low_fidelity kw1 f = true -> mf_def P1 = mf_def P2 /\ err_fn P1 = err_fn P2)) ->
  MF_loop P1 n x_s kw1 fs FM g = MF_loop P2 n x_s kw2 fs FM g.
Proof.
  revert FM g; induction fs as [|f fs IH]; intros FM g H; cbn [MF_loop]; [reflexivity|].
  destruct (H f (or_introl eq_refl)) as [Hk Hlow].
  unfold mbind.
  rewrite (MF_objective_reads_its_key P1 P2 n x_s kw1 kw2 FM f g Hk Hlow).
  destruct (MF_objective P2 n x_s kw2 FM f g) as [e|[FM1 g1]]; [reflexivity|].
  apply IH. intros f' Hf'. apply H. now right.
Qed.

Lemma evaluate_MF_reads (P1 P2 : _MF_Base) x kw1 kw2 g :
  problem P1 = problem P2 ->
  (forall f, (f < Z.to_nat (n_obj P1))%nat ->
     lookup_str (Phi_kw f) kw1 = lookup_str (Phi_kw f) kw2 /\
     (low_fidelity kw1 f = true -> mf_def P1 = mf_def P2 /\ err_fn P1 = err_fn P2)) ->
  evaluate_MF P1 x kw1 g = evaluate_MF P2 x kw2 g.
Proof.
  intros HP H. unfold evaluate_MF. cbv zeta. rewrite <- HP. lift_steps.
  destruct (evaluate P1 x) as [e|r0]; [reflexivity|]. lift_steps.
  destruct (scale_batch P1 x) as [e|x_s]; [reflexivity|].
  unfold mbind.
  rewrite (MF_loop_reads_its_keys P1 P2 (shape0 x) x_s kw1 kw2 (range (n_obj P1)) (F r0) g);
    [reflexivity|].
  intros f Hf. apply H. unfold range in Hf. apply in_seq in Hf. lia.
Qed.

(** [evaluate_MF] reads the request through the keys [Phi_f1], ...,
    [Phi_f<n_obj>] only: two requests that agree on them get the same
    answer, whatever else they hold and in whatever order. *)
Theorem evaluate_MF_reads_only_its_keys (P : _MF_Base) x kw1 kw2 g :
  (forall f, (f < Z.to_nat (n_obj P))%nat ->
     lookup_str (Phi_kw f) kw1 = lookup_str (Phi_kw f) kw2) ->
  evaluate_MF P x kw1 g = evaluate_MF P x kw2 g.
Proof.
  intros H. apply evaluate_MF_reads; [reflexivity|].
  intros f Hf. split; [now apply H | now split].
Qed.

Lemma low_objectives_nil (P : _BaseProblem) kwargs f :
  low_objectives P kwargs = [] -> (f < Z.to_nat (n_obj P))%nat ->
  low_fidelity kwargs f = false.
Proof.
  unfold low_objectives. intros Hnil Hf.
  destruct (low_fidelity kwargs f) eqn:E; [|reflexivity].
  assert (Hin : In f (filter (low_fidelity kwargs) (range (n_obj P)))).
  { apply filter_In. split; [|exact E]. unfold range. apply in_seq. lia. }
  rewrite Hnil in Hin. contradiction.
Qed.

(** When no objective is asked at a low fidelity, neither the error
    function nor the calibration is consulted: the answer is the same
    with any other error function set. *)
Theorem high_fidelity_ignores_error_function (P : _MF_Base) fn x kwargs g :
  low_objectives P kwargs = [] ->
  evaluate_MF (set_error_fn P fn) x kwargs g = evaluate_MF P x kwargs g.
Proof.
  intros Hnil. apply evaluate_MF_reads; [reflexivity|].
  intros f Hf. split; [reflexivity|].
  cbn [set_error_fn problem] in Hf.
  rewrite (low_objectives_nil P kwargs f Hnil Hf). discriminate.
Qed.

Lemma MF_loop_uncalibrated (P : _MF_Base) x_s kwargs fs FM g :
  shape0 x_s = shape0 FM ->
  (forall f, In f fs -> (f < shape1 FM)%nat) ->
  lookup_str (__name__ (err_fn P)) (mf_def P) = None ->
  filter (low_fidelity kwargs) fs <> [] ->
  MF_loop P (shape0 FM) x_s kwargs fs FM g
  = inl (KeyError (KStr (__name__ (err_fn P)))).
Proof.
  intros Hrows Hcols Hnone. revert FM g Hrows Hcols.
  induction fs as [|f fs IH]; intros FM g Hrows Hcols Hlow; cbn [filter] in Hlow;
    [congruence|].
  cbn [MF_loop]. destruct (low_fidelity kwargs f) eqn:E.
  - apply mbind_raise. unfold MF_objective. unfold low_fidelity in E.
    destruct (lookup_str (Phi_kw f) kwargs) as [level|]; [|discriminate].
    rewrite E. apply mbind_raise. unfold lift, getitem_str. now rewrite Hnone.
  - destruct (MF_objective_returns P x_s kwargs FM f g Hrows) as (FM1 & g1 & H1).
    + apply Hcols. now left.
    + unfold served. unfold low_fidelity in E.
      destruct (lookup_str (Phi_kw f) kwargs) as [level|]; [|exact I].
      left. now apply Z.ltb_ge.
    + rewrite (mbind_step _ _ _ _ _ H1).
      apply MF_objective_ok, pass_shape in H1 as (S1 & S0 & _).
      rewrite <- S0. apply IH; [congruence| |exact Hlow].
      intros f' Hf'. rewrite S1. apply Hcols. now right.
Qed.

(** An error function that the calibration of the class has no entry
    for makes every request with a low-fidelity objective fail with the
    [KeyError] of the function's name. *)
Theorem uncalibrated_error_function_raises (P : _MF_Base) x kwargs F0 g :
  shape1 x = n_var P ->
  _evaluate_obj P x = ok F0 ->
  shape0 F0 = shape0 x ->
  (Z.to_nat (n_obj P) <= shape1 F0)%nat ->
  lookup_str (__name__ (err_fn P)) (mf_def P) = None ->
  low_objectives P kwargs <> [] ->
  evaluate_MF P x kwargs g = inl (KeyError (KStr (__name__ (err_fn P)))).
Proof.
  intros Hx HF Hrows Hcols Hnone Hlow. unfold evaluate_MF. cbv zeta.
  rewrite (mbind_step _ _ g {| F := F0 |} g)
    by (unfold lift, evaluate; now rewrite HF).
  rewrite (mbind_step _ _ g (normalized P x) g)
    by (unfold lift; now rewrite (scale_batch_spec _ _ Hx)).
  apply mbind_raise. cbn [F]. rewrite <- Hrows.
  apply MF_loop_uncalibrated; try assumption.
  - rewrite (proj1 (normalized_shape P x)). congruence.
  - intros f Hf. unfold range in Hf. apply in_seq in Hf. lia.
Qed.

End Requests.

Lemma evaluate_MF_resolution_pure_sample :
  family_of (err_fn Sample.truss_r1) = Resolution /\
  exists c : res result,
    forall g, @evaluate_MF SeriesHost.host Sample.truss_r1 Sample.bars Sample.both_low g
              = @lift SeriesHost.host _ c g.
Proof.
  split; [reflexivity|].
  exact (@evaluate_MF_resolution_pure SeriesHost.host Sample.truss_r1 Sample.bars
           Sample.both_low eq_refl).
Defined.

Lemma evaluate_MF_reads_only_its_keys_sample :
  @evaluate_MF SeriesHost.host Sample.truss_s1 Sample.bars
    [("Phi_f2", 1); ("verbose", 1); ("Phi_f1", 2)]%string Sample.seed
  = @evaluate_MF SeriesHost.host Sample.truss_s1 Sample.bars Sample.both_low Sample.seed.
Proof.
  apply (@evaluate_MF_reads_only_its_keys SeriesHost.host Sample.truss_s1 Sample.bars).
  intros [|[|f]] Hf; [reflexivity|reflexivity|vm_compute in Hf; lia].
Defined.

Lemma high_fidelity_ignores_error_function_sample :
  low_objectives Sample.truss_r1 Sample.first_negative = [1%nat] /\
  low_objectives Sample.truss_r1 Sample.both_high = [] /\
  @evaluate_MF SeriesHost.host (set_error_fn Sample.truss_r1 Fn_e_ins2) Sample.bars
    Sample.both_high Sample.seed
  = @evaluate_MF SeriesHost.host Sample.truss_r1 Sample.bars Sample.both_high Sample.seed.
Proof.
  split; [reflexivity|]. split; [reflexivity|].
  apply (@high_fidelity_ignores_error_function SeriesHost.host Sample.truss_r1 Fn_e_ins2).
  reflexivity.
Defined.

Lemma uncalibrated_error_function_raises_sample :
  @evaluate_MF SeriesHost.host (MOMF_problems.MOMF2_4_1a Fn_e_ins1) Sample.bars
    Sample.both_low Sample.seed
  = inl (KeyError (KStr "e_ins1")).
Proof.
  apply (@uncalibrated_error_function_raises SeriesHost.host
           (MOMF_problems.MOMF2_4_1a Fn_e_ins1) Sample.bars Sample.both_low
           Sample.bars_hf Sample.seed).
  - reflexivity.
  - reflexivity.
  - reflexivity.
  - vm_compute. lia.
  - reflexivity.
  - discriminate.
Defined.

(** ** The evaluators, row by row *)

Section Rowwise.
Context {host : Host}.

Lemma map4_columns f (x : ndarray) :
  RE_problems.map4 f (column x 0) (column x 1) (column x 2) (column x 3)
  = map (fun r => f (at_ r 0) (at_ r 1) (at_ r 2) (at_ r 3)) (rows x).
Proof.
  unfold column, at_. induction (rows x) as [|r rs IH]; cbn [map RE_problems.map4];
    [reflexivity|]. now rewrite IH.
Qed.

Lemma map5_columns f (x : ndarray) :
  RE_problems.map5 f (column x 0) (column x 1) (column x 2) (column x 3) (column x 4)
  = map (fun r => f (at_ r 0) (at_ r 1) (at_ r 2) (at_ r 3) (at_ r 4)) (rows x).
Proof.
  unfold column, at_. induction (rows x) as [|r rs IH]; cbn [map RE_problems.map5];
    [reflexivity|]. now rewrite IH.
Qed.

Lemma hstack_columns {A} (fa : A -> list float) (fb : A -> float) (l : list A) n :
  hstack (mk_ndarray n (map fa l)) (reshape_col (map fb l))
  = mk_ndarray (n + 1) (map (fun r => fa r ++ [fb r]) l).
Proof.
  unfold hstack, reshape_col. cbn [shape1 rows]. f_equal.
  induction l as [|a l IH]; cbn [map zip_with]; [reflexivity|]. now rewrite IH.
Qed.

Lemma reshape_col_map {A} (fa : A -> float) (l : list A) :
  reshape_col (map fa l) = mk_ndarray 1 (map (fun r => [fa r]) l).
Proof. unfold reshape_col. now rewrite map_map. Qed.

Lemma getcol_lt x j : (j < shape1 x)%nat -> getcol x j = ok (column x j).
Proof. intros H. unfold getcol. now rewrite (proj2 (Nat.ltb_lt _ _) H). Qed.

Lemma RE_evaluators_rowwise_aux (x : ndarray) :
  ((4 <= shape1 x)%nat ->
   evaluate RE_problems.RE2_4_1.class x
   = ok {| F := mk_ndarray 2 (map RE2_4_1_row (rows x)) |}) /\
  ((5 <= shape1 x)%nat ->
   evaluate RE_problems.RE3_5_4.class x
   = ok {| F := mk_ndarray 3 (map RE3_5_4_row (rows x)) |}) /\
  ((4 <= shape1 x)%nat ->
   evaluate RE_problems.RE3_4_7.class x
   = ok {| F := mk_ndarray 3 (map RE3_4_7_row (rows x)) |}).
Proof.
  split; [|split]; intros Hx; unfold evaluate;
    cbn [_evaluate_obj RE_problems.RE2_4_1.class RE_problems.RE3_5_4.class
         RE_problems.RE3_4_7.class].
  - unfold RE_problems.RE2_4_1._evaluate_obj.
    rewrite !getcol_lt by lia. cbn [rbind ok]. rewrite !map4_columns.
    rewrite reshape_col_map, hstack_columns. reflexivity.
  - unfold RE_problems.RE3_5_4._evaluate_obj.
    rewrite !getcol_lt by lia. cbn [rbind ok]. rewrite !map5_columns.
    rewrite reshape_col_map, !hstack_columns. reflexivity.
  - unfold RE_problems.RE3_4_7._evaluate_obj.
    rewrite !getcol_lt by lia. cbn [rbind ok]. rewrite !map4_columns.
    rewrite reshape_col_map, !hstack_columns. reflexivity.
Qed.

(** The evaluators of the three engineering problems work row by row:
    each row of the result is computed from the same row of the batch,
    by the two or three objective formulas, and from nothing else;
    batches that are too narrow raise, surplus columns are not read. *)
Theorem RE_evaluators_are_rowwise (x : ndarray) (P : _BaseProblem)
    (row : list float -> list float) :
  In (P, row) [(RE_problems.RE2_4_1.class, RE2_4_1_row);
               (RE_problems.RE3_5_4.class, RE3_5_4_row);
               (RE_problems.RE3_4_7.class, RE3_4_7_row)] ->
  (n_var P <= shape1 x)%nat ->
  evaluate P x = ok {| F := mk_ndarray (Z.to_nat (n_obj P)) (map row (rows x)) |}.
Proof.
  intros HP Hx. destruct (RE_evaluators_rowwise_aux x) as (E1 & E2 & E3).
  destruct HP as [[= <- <-]|[[= <- <-]|[[= <- <-]|[]]]].
  - now apply E1.
  - now apply E2.
  - now apply E3.
Qed.

End Rowwise.

(** ** The scalable problems, row by row *)

Section ScalableRows.
Context {host : Host}.

Lemma zip_with_map_same {A B C D} (h : B -> C -> D) (p : A -> B) (q : A -> C) l :
  zip_with h (map p l) (map q l) = map (fun r => h (p r) (q r)) l.
Proof. induction l as [|a l IH]; cbn [map zip_with]; [reflexivity|]. now rewrite IH. Qed.

Lemma slice_bound_nat len i :
  (i <= len)%nat -> slice_bound len (Z.of_nat i) = i.
Proof.
  intros H. unfold slice_bound.
  destruct (Z.of_nat i <? 0) eqn:E; [apply Z.ltb_lt in E; lia|]. lia.
Qed.

(** One pass of the loop of [s] appends, to every row, the entry of the
    index. *)
Lemma s_step_rows a x_pos c (f0 : list float -> list float) i :
  (i < shape1 x_pos)%nat ->
  DTLZ_problems.s_step a x_pos (mk_ndarray c (map f0 (rows x_pos))) i
  = ok (mk_ndarray (c + 1) (map (fun r => f0 r ++ [s_at a r i]) (rows x_pos))).
Proof.
  intros Hi. unfold DTLZ_problems.s_step. rewrite (getcol_lt _ _ Hi). cbn [rbind ok].
  f_equal. unfold DTLZ_problems.prod_cos, prod_axis1, amap, cols_upto, column.
  cbn [rows shape1]. rewrite slice_bound_nat by lia. rewrite !map_map.
  rewrite zip_with_map_same. apply hstack_columns.
Qed.

Lemma s_loop_rows a x_pos idx : forall c (f0 : list float -> list float),
  (forall i, In i idx -> (i < shape1 x_pos)%nat) ->
  DTLZ_problems.s_loop a x_pos (mk_ndarray c (map f0 (rows x_pos))) idx
  = ok (mk_ndarray (c + length idx)
          (map (fun r => f0 r ++ map (s_at a r) idx) (rows x_pos))).
Proof.
  induction idx as [|i idx IH]; intros c f0 Hidx; cbn [DTLZ_problems.s_loop].
  - rewrite Nat.add_0_r. do 2 f_equal. apply map_ext. intros r. cbn [map].
    now rewrite app_nil_r.
  - rewrite s_step_rows by (apply Hidx; now left). cbn [rbind ok].
    rewrite (IH (c + 1)%nat (fun r => f0 r ++ [s_at a r i]))
      by (intros j Hj; apply Hidx; now right).
    cbn [length map]. f_equal. f_equal; [lia|].
    apply map_ext. intros r. now rewrite <- app_assoc.
Qed.

(** [s] row by row. *)
Lemma s_rows a x_pos :
  0 <= DTLZ_problems.n_obj a - 1 <= Z.of_nat (shape1 x_pos) ->
  DTLZ_problems.s a x_pos
  = ok (mk_ndarray (S (Z.to_nat (DTLZ_problems.n_obj a - 1)))
          (map (fun r => s_first a r
                         :: map (s_at a r)
                              (rev (seq 0 (Z.to_nat (DTLZ_problems.n_obj a - 1)))))
               (rows x_pos))).
Proof.
  intros HM. unfold DTLZ_problems.s, DTLZ_problems.range_down, range.
  replace (reshape_col
             (map (fun p => np_power p (DTLZ_problems.beta a))
                (DTLZ_problems.prod_cos x_pos)))
    with (mk_ndarray 1 (map (fun r => [s_first a r]) (rows x_pos)))
    by (unfold DTLZ_problems.prod_cos, prod_axis1, amap; cbn [rows];
        rewrite !map_map, reshape_col_map; reflexivity).
  rewrite (s_loop_rows a x_pos _ 1%nat (fun r => [s_first a r])).
  - rewrite length_rev, length_seq. reflexivity.
  - intros i Hi. apply in_rev, in_seq in Hi. lia.
Qed.

Lemma s_at_firstn a M r i : (i < M)%nat -> s_at a (firstn M r) i = s_at a r i.
Proof.
  intros Hi. unfold s_at, at_. rewrite firstn_firstn, Nat.min_l by lia.
  rewrite nth_firstn. now rewrite (proj2 (Nat.ltb_lt _ _) Hi).
Qed.

Lemma s_cols_upto a x :
  0 <= DTLZ_problems.n_obj a - 1 <= Z.of_nat (shape1 x) ->
  DTLZ_problems.s a (cols_upto x (DTLZ_problems.n_obj a - 1))
  = ok (mk_ndarray (S (Z.to_nat (DTLZ_problems.n_obj a - 1)))
          (map (s_row a (Z.to_nat (DTLZ_problems.n_obj a - 1))) (rows x))).
Proof.
  intros HM.
  assert (Hb : slice_bound (shape1 x) (DTLZ_problems.n_obj a - 1)
               = Z.to_nat (DTLZ_problems.n_obj a - 1)).
  { rewrite <- (Z2Nat.id (DTLZ_problems.n_obj a - 1)) at 1 by lia.
    apply slice_bound_nat. lia. }
  rewrite s_rows by (cbn [cols_upto shape1]; rewrite Hb; lia).
  unfold cols_upto. cbn [rows]. rewrite Hb, map_map. do 2 f_equal.
  apply map_ext. intros r. unfold s_row. f_equal.
  apply map_ext_in. intros i Hi. apply in_rev, in_seq in Hi.
  apply s_at_firstn. lia.
Qed.

Lemma g_cols_from a x :
  0 <= DTLZ_problems.n_obj a - 1 <= Z.of_nat (shape1 x) ->
  amap (fun t => (1 + t)%float)
    (DTLZ_problems.g (cols_from x (DTLZ_problems.n_obj a - 1)))
  = mk_ndarray 1
      (map (fun r => [(1 + g_row (shape1 x - Z.to_nat (DTLZ_problems.n_obj a - 1))
                             (skipn (Z.to_nat (DTLZ_problems.n_obj a - 1)) r))%float])
         (rows x)).
Proof.
  intros HM.
  assert (Hb : slice_bound (shape1 x) (DTLZ_problems.n_obj a - 1)
               = Z.to_nat (DTLZ_problems.n_obj a - 1)).
  { rewrite <- (Z2Nat.id (DTLZ_problems.n_obj a - 1)) at 1 by lia.
    apply slice_bound_nat. lia. }
  unfold DTLZ_problems.g, sum_axis1, amap, cols_from, reshape_col.
  cbn [rows shape1]. rewrite Hb, !map_map. reflexivity.
Qed.

(** The product of a single column with a matrix of the same height. *)
Lemma bcast_mat_column_rows {A} (f : float -> float -> float)
    (ga : A -> float) (sa : A -> list float) (l : list A) M :
  (forall r, In r l -> length (sa r) = S M) ->
  bcast_mat f (mk_ndarray 1 (map (fun r => [ga r]) l)) (mk_ndarray (S M) (map sa l))
  = ok (mk_ndarray (S M) (map (fun r => map (f (ga r)) (sa r)) l)).
Proof.
  intros Hlen. unfold bcast_mat, azip. cbn [shape1 rows].
  destruct M as [|M].
  - cbn [Nat.eqb]. do 2 f_equal. rewrite zip_with_map_same.
    apply map_ext_in. intros r Hr. specialize (Hlen r Hr).
    destruct (sa r) as [|v [|w vs]]; try discriminate. reflexivity.
  - cbn [Nat.eqb]. do 2 f_equal. rewrite zip_with_map_same. reflexivity.
Qed.

Lemma s_row_length a M r : length (s_row a M r) = S M.
Proof. unfold s_row. cbn [length]. now rewrite length_map, length_rev, length_seq. Qed.

Lemma DTLZ2_rows_aux (a : DTLZ_problems.params) (x : ndarray) :
  1 <= DTLZ_problems.n_obj a ->
  DTLZ_problems.n_obj a - 1 <= Z.of_nat (shape1 x) ->
  let M := Z.to_nat (DTLZ_problems.n_obj a - 1) in
  let d := (shape1 x - M)%nat in
  DTLZ_problems.DTLZ2_evaluate_obj a x
  = ok (mk_ndarray (S M) (map (DTLZ2_row a M d) (rows x))) /\
  DTLZ_problems.InvertedDTLZ2_evaluate_obj a x
  = ok (mk_ndarray (S M) (map (InvertedDTLZ2_row a M d) (rows x))).
Proof.
  intros Hn Hx M d.
  unfold DTLZ_problems.DTLZ2_evaluate_obj, DTLZ_problems.InvertedDTLZ2_evaluate_obj.
  cbv zeta. rewrite s_cols_upto, g_cols_from by lia. cbn [rbind ok]. fold M d. split.
  - rewrite bcast_mat_column_rows by (intros; apply s_row_length). reflexivity.
  - unfold amap at 1. cbn [rows shape1]. rewrite map_map.
    rewrite bcast_mat_column_rows
      by (intros; now rewrite length_map, s_row_length).
    do 2 f_equal. apply map_ext. intros r. unfold InvertedDTLZ2_row.
    now rewrite map_map.
Qed.

(** [DTLZ2] and [InvertedDTLZ2] compute each row of objectives from the
    same row of the batch: with [M = n_obj - 1] position variables,
    objective [0] is [(1 + g)] times the product of the [M] cosines,
    objective [j >= 1] is [(1 + g)] times the product of the first
    [M - j] cosines and the sine of variable [M - j], each raised to
    [beta]; the inverted problem takes [(1 + g) * (1 - s)] instead. *)
Theorem DTLZ2_rows (a : DTLZ_problems.params) (x : ndarray) :
  1 <= DTLZ_problems.n_obj a ->
  DTLZ_problems.n_obj a - 1 <= Z.of_nat (shape1 x) ->
  let M := Z.to_nat (DTLZ_problems.n_obj a - 1) in
  let d := (shape1 x - M)%nat in
  evaluate (DTLZ_problems.DTLZ2 a) x
  = ok {| F := mk_ndarray (S M) (map (DTLZ2_row a M d) (rows x)) |} /\
  evaluate (DTLZ_problems.InvertedDTLZ2 a) x
  = ok {| F := mk_ndarray (S M) (map (InvertedDTLZ2_row a M d) (rows x)) |}.
Proof.
  intros Hn Hx M d. destruct (DTLZ2_rows_aux a x Hn Hx) as [E1 E2].
  unfold evaluate. cbn [_evaluate_obj DTLZ_problems.DTLZ2 DTLZ_problems.InvertedDTLZ2].
  rewrite E1, E2. split; reflexivity.
Qed.

End ScalableRows.

Lemma DTLZ2_rows_sample :
  1 <= DTLZ_problems.n_obj DTLZ_problems.default_params /\
  DTLZ_problems.n_obj DTLZ_problems.default_params - 1 <= Z.of_nat (shape1 Sample.points) /\
  evaluate
     (@DTLZ_problems.DTLZ2 SeriesHost.host DTLZ_problems.default_params) Sample.points
  = ok {| F := mk_ndarray 3
               (map (@DTLZ2_row SeriesHost.host DTLZ_problems.default_params 2 5)
                    (rows Sample.points)) |} /\
  evaluate
     (@DTLZ_problems.InvertedDTLZ2 SeriesHost.host DTLZ_problems.default_params)
     Sample.points
  = ok {| F := mk_ndarray 3
               (map (@InvertedDTLZ2_row SeriesHost.host DTLZ_problems.default_params 2 5)
                    (rows Sample.points)) |}.
Proof.
  split; [cbn; lia|]. split; [cbn; lia|].
  apply (@DTLZ2_rows SeriesHost.host DTLZ_problems.default_params Sample.points);
    cbn; lia.
Defined.

(** ** The shape of what the evaluators return *)

Section Shapes.
Context {host : Host}.

Lemma rows_shape {A} (f : A -> list float) (l : list A) n :
  (forall r, In r l -> length (f r) = n) ->
  well_shaped (mk_ndarray n (map f l)) /\ shape0 (mk_ndarray n (map f l)) = length l.
Proof.
  intros H. unfold well_shaped, shape0. cbn [rows shape1]. split; [|apply length_map].
  apply Forall_forall. intros r Hr. apply in_map_iff in Hr as (r0 & <- & Hr0). now apply H.
Qed.

Lemma DTLZ2_row_length a M d r : length (DTLZ2_row a M d r) = S M.
Proof. unfold DTLZ2_row. now rewrite length_map, s_row_length. Qed.

Lemma InvertedDTLZ2_row_length a M d r : length (InvertedDTLZ2_row a M d r) = S M.
Proof. unfold InvertedDTLZ2_row. now rewrite length_map, s_row_length. Qed.

Lemma s_ok_wide a x S :
  1 <= DTLZ_problems.n_obj a ->
  DTLZ_problems.s a (cols_upto x (DTLZ_problems.n_obj a - 1)) = ok S ->
  DTLZ_problems.n_obj a - 1 <= Z.of_nat (shape1 x).
Proof.
  intros Hn HS.
  destruct (Z_le_gt_dec (DTLZ_problems.n_obj a - 1) (Z.of_nat (shape1 x))) as [|Hgt];
    [assumption|exfalso].
  rewrite s_too_narrow in HS; [discriminate|lia|].
  cbn [cols_upto shape1]. rewrite slice_bound_upto by lia. lia.
Qed.

Lemma RE_wide_enough (x F0 : ndarray) :
  (RE_problems.RE2_4_1._evaluate_obj x = ok F0 -> (4 <= shape1 x)%nat) /\
  (RE_problems.RE3_5_4._evaluate_obj x = ok F0 -> (5 <= shape1 x)%nat) /\
  (RE_problems.RE3_4_7._evaluate_obj x = ok F0 -> (4 <= shape1 x)%nat).
Proof.
  split; [|split]; intros H.
  - unfold RE_problems.RE2_4_1._evaluate_obj in H. do 4 step_ok H.
    apply getcol_inv in Hstep2. lia.
  - unfold RE_problems.RE3_5_4._evaluate_obj in H. do 5 step_ok H.
    apply getcol_inv in Hstep3. lia.
  - unfold RE_problems.RE3_4_7._evaluate_obj in H. do 4 step_ok H.
    apply getcol_inv in Hstep2. lia.
Qed.

(** Every problem class returns one row for each sample and one column
    for each objective. *)
Theorem evaluate_shape (a : DTLZ_problems.params) (P : _BaseProblem) x r :
  1 <= DTLZ_problems.n_obj a ->
  In P (problems a) ->
  evaluate P x = ok r ->
  well_shaped (F r) /\ shape0 (F r) = shape0 x /\
  shape1 (F r) = Z.to_nat (n_obj P).
Proof.
  intros Hn HP H. unfold problems in HP.
  assert (Hrows : forall (row : list float -> list float) m,
             (forall q, length (row q) = m) ->
             evaluate P x = ok {| F := mk_ndarray m (map row (rows x)) |} ->
             m = Z.to_nat (n_obj P) ->
             well_shaped (F r) /\ shape0 (F r) = shape0 x /\
             shape1 (F r) = Z.to_nat (n_obj P)).
  { intros row m Hlen E Hm. rewrite E in H. injection H as <-. cbn [F].
    destruct (rows_shape row (rows x) m) as [W R]; [intros; apply Hlen|].
    repeat split; assumption. }
  unfold evaluate in H. step_ok H. clear H. rename a0 into F0.
  destruct (RE_evaluators_rowwise_aux x) as (E1 & E2 & E3).
  destruct (RE_wide_enough x F0) as (W1 & W2 & W3).
  destruct HP as [<-|[<-|[<-|[<-|[<-|[]]]]]];
    cbn [_evaluate_obj n_obj RE_problems.RE2_4_1.class RE_problems.RE3_5_4.class
         RE_problems.RE3_4_7.class DTLZ_problems.DTLZ2 DTLZ_problems.InvertedDTLZ2] in *.
  - apply (Hrows RE2_4_1_row 2%nat); [reflexivity|now apply E1, W1|reflexivity].
  - apply (Hrows RE3_5_4_row 3%nat); [reflexivity|now apply E2, W2|reflexivity].
  - apply (Hrows RE3_4_7_row 3%nat); [reflexivity|now apply E3, W3|reflexivity].
  - assert (Hx : DTLZ_problems.n_obj a - 1 <= Z.of_nat (shape1 x)).
    { unfold DTLZ_problems.DTLZ2_evaluate_obj in Hstep. cbv zeta in Hstep.
      step_ok Hstep. eapply s_ok_wide; eauto. }
    apply (Hrows (DTLZ2_row a (Z.to_nat (DTLZ_problems.n_obj a - 1))
                    (shape1 x - Z.to_nat (DTLZ_problems.n_obj a - 1)))
                 (S (Z.to_nat (DTLZ_problems.n_obj a - 1))));
      [intros; apply DTLZ2_row_length| |lia].
    unfold evaluate. cbn [_evaluate_obj DTLZ_problems.DTLZ2].
    now rewrite (proj1 (DTLZ2_rows_aux a x Hn Hx)).
  - assert (Hx : DTLZ_problems.n_obj a - 1 <= Z.of_nat (shape1 x)).
    { unfold DTLZ_problems.InvertedDTLZ2_evaluate_obj in Hstep. cbv zeta in Hstep.
      step_ok Hstep. eapply s_ok_wide; eauto. }
    apply (Hrows (InvertedDTLZ2_row a (Z.to_nat (DTLZ_problems.n_obj a - 1))
                    (shape1 x - Z.to_nat (DTLZ_problems.n_obj a - 1)))
                 (S (Z.to_nat (DTLZ_problems.n_obj a - 1))));
      [intros; apply InvertedDTLZ2_row_length| |lia].
    unfold evaluate. cbn [_evaluate_obj DTLZ_problems.InvertedDTLZ2].
    now rewrite (proj2 (DTLZ2_rows_aux a x Hn Hx)).
Qed.

(** [evaluate_MF] returns a matrix of the shape of the one [evaluate]
    returns, and leaves every column after those of the objectives as
    [evaluate] computed it. *)
Theorem evaluate_MF_keeps_shape (P : _MF_Base) x kwargs g r g' :
  evaluate_MF P x kwargs g = ok (r, g') ->
  exists F0,
    evaluate P x = ok {| F := F0 |} /\
    shape0 (F r) = shape0 F0 /\ shape1 (F r) = shape1 F0 /\
    (well_shaped F0 -> well_shaped (F r)) /\
    forall j, (Z.to_nat (n_obj P) <= j)%nat -> column (F r) j = column F0 j.
Proof.
  intros H. apply evaluate_MF_ok in H as (F0 & x_s & HF & _ & Hloop).
  exists F0. unfold evaluate. rewrite HF. split; [reflexivity|].
  destruct (MF_loop_shape _ _ _ _ _ _ _ _ _ Hloop) as (S1 & S0 & W).
  repeat split; try assumption.
  intros j Hj. eapply MF_loop_frame; [exact Hloop|].
  unfold range. rewrite in_seq. lia.
Qed.

End Shapes.

(** ** Products, conversions and order in binary64 *)

Section Products.

(** A mantissa already at or above its canonical exponent is rounded
    as it is. *)
Lemma binary_round_no_shift s m e :
  e <= fexp prec emax (Z.pos (digits2_pos m) + e) ->
  binary_round prec emax s m e = binary_round_aux prec emax s (Z.pos m) e loc_Exact.
Proof.
  intros H. unfold binary_round, shl_align.
  destruct (fexp prec emax (Z.pos (digits2_pos m) + e) - e) eqn:E; try reflexivity.
  lia.
Qed.

(** The product of two finite floats is the rounding of the product of
    the mantissas at the sum of the exponents. *)
Lemma SFmul_binary_round s1 m1 e1 s2 m2 e2 :
  valid_binary (S754_finite s1 m1 e1) = true ->
  valid_binary (S754_finite s2 m2 e2) = true ->
  SF64mul (S754_finite s1 m1 e1) (S754_finite s2 m2 e2)
  = binary_round prec emax (xorb s1 s2) (m1 * m2) (e1 + e2).
Proof.
  intros V1 V2. cbn [SF64mul SFmul].
  rewrite binary_round_no_shift; [reflexivity|].
  pose proof (fexp_ge (Z.pos (digits2_pos (m1 * m2)) + (e1 + e2))) as G.
  pose proof (fexp_ge_emin (Z.pos (digits2_pos (m1 * m2)) + (e1 + e2))) as G0.
  pose proof (digits_order m1 0 (m1 * m2) 0 ltac:(lia) ltac:(lia) ltac:(nia)) as D1.
  pose proof (digits_order m2 0 (m1 * m2) 0 ltac:(lia) ltac:(lia) ltac:(nia)) as D2.
  destruct (canonical_cases _ _ _ V1) as [[C1 L1]|[C1 L1]];
    destruct (canonical_cases _ _ _ V2) as [[C2 L2]|[C2 L2]];
    unfold emin, prec, emax in *; lia.
Qed.


Lemma SFmul_comm x y : SF64mul x y = SF64mul y x.
Proof.
  destruct x as [sx|sx| |sx mx ex]; destruct y as [sy|sy| |sy my ey];
    cbn [SF64mul SFmul]; rewrite ?(xorb_comm sx sy); try reflexivity.
  now rewrite Pos.mul_comm, Z.add_comm.
Qed.

Lemma float_mul_comm (x y : float) : (x * y)%float = (y * x)%float.
Proof. apply Prim2SF_inj. rewrite !mul_spec. apply SFmul_comm. Qed.

(** A float that is not below zero is a zero, a positive finite float
    or the positive infinity. *)
Lemma nonneg_sign s m e :
  SFleb (S754_zero false) (S754_finite s m e) = true -> s = false.
Proof. destruct s; [discriminate|reflexivity]. Qed.

(** Multiplication by a nonnegative finite float keeps the order of
    nonnegative finite floats. *)
Lemma SFmul_mono c a b :
  valid_binary c = true -> valid_binary a = true -> valid_binary b = true ->
  finite_or_zero c = true -> finite_or_zero a = true -> finite_or_zero b = true ->
  SFleb (S754_zero false) c = true -> SFleb (S754_zero false) a = true ->
  SFleb a b = true ->
  SFleb (S754_zero false) (SF64mul c a) = true /\
  SFleb (SF64mul c a) (SF64mul c b) = true.
Proof.
  intros Vc Va Vb Fc Fa Fb Hc Ha Hab.
  destruct c as [sc|sc| |sc mc ec]; try discriminate Fc.
  - destruct a as [sa|sa| |sa ma ea]; try discriminate Fa;
      destruct b as [sb|sb| |sb mb eb]; try discriminate Fb; split; reflexivity.
  - apply nonneg_sign in Hc as ->.
    destruct a as [sa|sa| |sa ma ea]; try discriminate Fa.
    + destruct b as [sb|sb| |sb mb eb]; try discriminate Fb.
      * split; reflexivity.
      * assert (sb = false) as -> by (destruct sb; [discriminate Hab|reflexivity]).
        rewrite (SFmul_binary_round _ _ _ _ _ _ Vc Vb). cbn [xorb].
        split; [reflexivity|]. cbn [SF64mul SFmul]. apply binary_round_nonneg.
    + apply nonneg_sign in Ha as ->.
      destruct b as [sb|sb| |sb mb eb]; try discriminate Fb; [discriminate Hab|].
      destruct (leb_finite_pos _ _ _ _ _ Va Vb Hab) as (-> & He & Hm).
      rewrite (SFmul_binary_round _ _ _ _ _ _ Vc Va), (SFmul_binary_round _ _ _ _ _ _ Vc Vb).
      cbn [xorb]. split; [apply binary_round_nonneg|].
      apply (binary_round_mono _ _ _ _ (ec + ea)); [lia|lia|].
      replace (ec + ea - (ec + ea)) with 0 by lia.
      replace (ec + eb - (ec + ea)) with (eb - ea) by lia.
      rewrite Z.pow_0_r, !Pos2Z.inj_mul. nia.
Qed.

(** The same on floats: [0 <= c], [0 <= a <= b], all finite. *)
Lemma float_mul_mono (c a b : float) :
  is_finite c = true -> is_finite b = true ->
  (0 <=? c)%float = true -> (0 <=? a)%float = true -> (a <=? b)%float = true ->
  (0 <=? c * a)%float = true /\ (c * a <=? c * b)%float = true.
Proof.
  intros Fc Fb Hc Ha Hab. rewrite !leb_spec, !mul_spec in *.
  replace (Prim2SF 0) with (S754_zero false) in * by reflexivity.
  apply finite_or_zero_cases in Fc, Fb.
  pose proof (between_finite (Prim2SF a) (S754_zero false) _ eq_refl Fb Ha Hab) as Fa.
  apply SFmul_mono; auto using Prim2SF_valid.
Qed.

(** The conversion of a machine-size integer, on the specification. *)
Lemma float_of_Z_spec z :
  0 <= z < 9223372036854775808 ->
  Prim2SF (float_of_Z z) = binary_normalize prec emax z 0 false.
Proof.
  intros Hz. unfold float_of_Z.
  assert (E : Uint63Axioms.to_Z (Uint63Axioms.of_Z z) = z).
  { rewrite Uint63.of_Z_spec. apply Z.mod_small.
    change Uint63Axioms.wB with 9223372036854775808. exact Hz. }
  pose proof (of_uint63_spec (Uint63Axioms.of_Z z)) as S. rewrite E in S.
  rewrite <- S. now rewrite SF2Prim_Prim2SF.
Qed.

Lemma pack_finite_or_zero s m E :
  0 <= m -> E + 1 <= emax - prec -> finite_or_zero (pack s m E) = true.
Proof.
  intros Hm HE. unfold pack. destruct m as [|p|p]; [reflexivity| |lia].
  assert (H1 : (E <=? emax - prec) = true) by (apply Z.leb_le; lia).
  assert (H2 : (E + 1 <=? emax - prec) = true) by (apply Z.leb_le; lia).
  rewrite H1, H2. now destruct (Z.pos p <? 9007199254740992).
Qed.

(** A Python [int] that fits a machine word converts to a float. *)
Lemma float_of_int_word z :
  0 <= z < 9223372036854775808 -> float_of_int z = ok (float_of_Z z).
Proof.
  intros Hz. unfold float_of_int. cbv zeta.
  assert (F : finite_or_zero (Prim2SF (float_of_Z z)) = true).
  { rewrite (float_of_Z_spec z Hz). destruct z as [|p|p]; [reflexivity| |lia].
    cbn [binary_normalize].
    destruct (binary_round_pack false p 0) as (e & _ & _ & Hr & ->).
    apply pack_finite_or_zero; [lia|].
    pose proof (Zdigits2_lt_pow2 (Z.pos p) 63 ltac:(change (2 ^ 63) with 9223372036854775808; lia) ltac:(lia)) as Hd.
    cbn [Zdigits2] in Hd. unfold fexp, SpecFloat.emin, emax, prec. lia. }
  unfold is_infinity. rewrite FloatAxioms.eqb_spec, abs_spec.
  destruct (Prim2SF (float_of_Z z)) as [s|s| |s m e]; try discriminate F;
    reflexivity.
Qed.


(** The conversion keeps the order of nonnegative machine-size integers. *)
Lemma float_of_Z_mono z1 z2 :
  0 <= z1 -> z1 <= z2 -> z2 < 9223372036854775808 ->
  (float_of_Z z1 <=? float_of_Z z2)%float = true.
Proof.
  intros H0 H12 H2. rewrite leb_spec, !float_of_Z_spec by lia.
  destruct z1 as [|p1|p1]; [|destruct z2 as [|p2|p2]; try lia|lia]; cbn [binary_normalize].
  - destruct z2 as [|p2|p2]; [reflexivity|apply binary_round_nonneg|lia].
  - apply (binary_round_mono p1 0 p2 0 0); lia.
Qed.

Lemma SFleb_scaled f1 f2 :
  valid_binary f1 = true -> valid_binary f2 = true ->
  finite_or_zero f1 = true -> finite_or_zero f2 = true ->
  SFleb f1 f2 = true <-> scaled_value f1 <= scaled_value f2.
Proof.
  intros V1 V2 F1 F2. unfold SFleb. rewrite (SFcompare_scaled f1 f2 V1 V2 F1 F2).
  destruct (Z.compare_spec (scaled_value f1) (scaled_value f2)); split; intros; try lia;
    try reflexivity; discriminate.
Qed.

(** [<=] is transitive on finite floats. *)
Lemma float_leb_trans (a b c : float) :
  is_finite a = true -> is_finite c = true ->
  (a <=? b)%float = true -> (b <=? c)%float = true -> (a <=? c)%float = true.
Proof.
  intros Fa Fc H1 H2. rewrite !leb_spec in *.
  apply finite_or_zero_cases in Fa, Fc.
  pose proof (between_finite _ _ _ Fa Fc H1 H2) as Fb.
  apply SFleb_scaled in H1, H2; auto using Prim2SF_valid.
  apply SFleb_scaled; auto using Prim2SF_valid. lia.
Qed.

(** Subtracting more leaves less: for [t1 <= t2 <= x], all finite,
    [0 <= x - t2 <= x - t1]. *)
Lemma float_sub_antitone (x t1 t2 : float) :
  is_finite x = true -> is_finite t1 = true ->
  (t1 <=? t2)%float = true -> (t2 <=? x)%float = true ->
  (0 <=? x - t2)%float = true /\ (x - t2 <=? x - t1)%float = true.
Proof.
  intros Fx F1 H12 H2x. rewrite !leb_spec, !sub_spec in *.
  replace (Prim2SF 0) with (S754_zero false) by reflexivity.
  apply finite_or_zero_cases in Fx, F1.
  pose proof (between_finite _ _ _ F1 Fx H12 H2x) as F2.
  pose proof (leb_scaled_value _ _ (Prim2SF_valid t1) (Prim2SF_valid t2) F1 F2 H12) as O1.
  pose proof (leb_scaled_value _ _ (Prim2SF_valid t2) (Prim2SF_valid x) F2 Fx H2x) as O2.
  destruct (SFsub_rounded _ _ (Prim2SF_valid x) (Prim2SF_valid t2) Fx F2)
    as (z1 & k1 & K1 & E1 & R1).
  destruct (SFsub_rounded _ _ (Prim2SF_valid x) (Prim2SF_valid t1) Fx F1)
    as (z2 & k2 & K2 & E2 & R2).
  assert (P1 : 0 < 2 ^ (k1 - emin)) by (apply Z.pow_pos_nonneg; lia).
  assert (Hz : 0 <= z1) by nia.
  split.
  - apply (rounded_nonneg z1 k1); assumption.
  - apply (rounded_mono z1 k1 _ z2 k2); try assumption. lia.
Qed.

Lemma finite_or_zero_is_finite (x : float) :
  finite_or_zero (Prim2SF x) = true -> is_finite x = true.
Proof.
  intros F. unfold is_finite, is_nan, is_infinity.
  rewrite !FloatAxioms.eqb_spec, abs_spec.
  replace (Prim2SF infinity) with (S754_infinity false) by reflexivity.
  destruct (Prim2SF x) as [s|s| |s m e]; try discriminate F; [reflexivity|].
  unfold SFeqb. cbn [SFcompare SFabs].
  destruct s; rewrite Z.compare_refl, Pos.compare_cont_refl; reflexivity.
Qed.

(** A float between two finite floats is finite. *)
Lemma float_between_finite (lo hi v : float) :
  is_finite lo = true -> is_finite hi = true ->
  (lo <=? v)%float = true -> (v <=? hi)%float = true -> is_finite v = true.
Proof.
  intros Fl Fh H1 H2. rewrite !leb_spec in *.
  apply finite_or_zero_cases in Fl, Fh.
  apply finite_or_zero_is_finite. exact (between_finite _ _ _ Fl Fh H1 H2).
Qed.

(** Adding [0.0] to a finite float moves it across no bound. *)
Lemma float_add_zero_between (lo hi v : float) :
  is_finite v = true ->
  (lo <=? v)%float = true -> (v <=? hi)%float = true ->
  (lo <=? v + 0)%float = true /\ (v + 0 <=? hi)%float = true.
Proof.
  intros Fv H1 H2. rewrite !leb_spec, add_spec in *.
  replace (Prim2SF 0) with (S754_zero false) by reflexivity.
  apply finite_or_zero_cases in Fv.
  destruct (Prim2SF v) as [s|s| |s m e]; try discriminate Fv.
  - destruct s; cbn [SF64add SFadd]; split; assumption.
  - cbn [SF64add SFadd]. split; assumption.
Qed.

(** A draw of the unit interval times a nonnegative finite [sigma],
    plus [0]: a value between [0] and [sigma]. *)
Lemma scaled_draw_bounds (r sigma : float) :
  (0 <=? r)%float = true -> (r <=? 1)%float = true ->
  (0 <=? sigma)%float = true -> is_finite sigma = true ->
  (0 <=? r * sigma + 0)%float = true /\ (r * sigma + 0 <=? sigma)%float = true.
Proof.
  intros Hr0 Hr1 Hs Fs.
  destruct (float_mul_mono sigma r 1 Fs eq_refl Hs Hr0 Hr1) as [P0 P1].
  rewrite float_mul_1_r in P1. rewrite (float_mul_comm r sigma).
  apply float_add_zero_between; try assumption.
  exact (float_between_finite 0 sigma _ eq_refl Fs P0 P1).
Qed.

End Products.

(** ** The calibration of the suite *)

Section Calibration.
Context {host : Host}.

Ltac split_levels :=
  repeat match goal with
         | H : context [Z.eqb ?a ?b] |- _ => destruct (Z.eqb_spec a b)
         | |- context [Z.eqb ?a ?b] => destruct (Z.eqb_spec a b)
         end.

Lemma levels3 a b c :
  c = 5000 -> c < b /\ b < a /\ a < 10000 ->
  let t := [(1, a); (2, b); (3, c)] in
  (forall level, lookup_int level t <> None <-> 1 <= level <= 3) /\
  (forall l1 l2 p1 p2, lookup_int l1 t = Some p1 -> lookup_int l2 t = Some p2 ->
                       l1 < l2 -> p2 < p1) /\
  (forall level p, lookup_int level t = Some p -> 5000 <= p < 10000) /\
  lookup_int 3 t = Some 5000.
Proof.
  intros -> HH t. unfold t. cbn [lookup_int].
  split; [|split; [|split]].
  - intros level. split.
    + intros Hl. split_levels; try lia. congruence.
    + intros Hl. split_levels; try lia; discriminate.
  - intros l1 l2 p1 p2. split_levels; try discriminate; intros [= <-] [= <-] Hl; lia.
  - intros level p. split_levels; try discriminate; intros [= <-]; lia.
  - reflexivity.
Qed.

Lemma levels4 a b c d :
  d = 5000 -> d < c /\ c < b /\ b < a /\ a < 10000 ->
  let t := [(1, a); (2, b); (3, c); (4, d)] in
  (forall level, lookup_int level t <> None <-> 1 <= level <= 4) /\
  (forall l1 l2 p1 p2, lookup_int l1 t = Some p1 -> lookup_int l2 t = Some p2 ->
                       l1 < l2 -> p2 < p1) /\
  (forall level p, lookup_int level t = Some p -> 5000 <= p < 10000) /\
  lookup_int 4 t = Some 5000.
Proof.
  intros -> HH t. unfold t. cbn [lookup_int].
  split; [|split; [|split]].
  - intros level. split.
    + intros Hl. split_levels; try lia. congruence.
    + intros Hl. split_levels; try lia; discriminate.
  - intros l1 l2 p1 p2. split_levels; try discriminate; intros [= <-] [= <-] Hl; lia.
  - intros level p. split_levels; try discriminate; intros [= <-]; lia.
  - reflexivity.
Qed.

Lemma scales2 (s1 s2 : float) :
  (0 <? s1)%float = true -> (0 <? s2)%float = true ->
  forall f, (f < 2)%nat ->
    exists sc, lookup_str (f_kw f) [("f1", s1); ("f2", s2)]%string = Some sc /\
               (0 <? sc)%float = true.
Proof.
  intros H1 H2 [|[|f]] Hf; [exists s1|exists s2|lia]; split; auto.
Qed.

Lemma scales3 (s1 s2 s3 : float) :
  (0 <? s1)%float = true -> (0 <? s2)%float = true -> (0 <? s3)%float = true ->
  forall f, (f < 3)%nat ->
    exists sc, lookup_str (f_kw f) [("f1", s1); ("f2", s2); ("f3", s3)]%string = Some sc /\
               (0 <? sc)%float = true.
Proof.
  intros H1 H2 H3 [|[|[|f]]] Hf; [exists s1|exists s2|exists s3|lia]; split; auto.
Qed.

Lemma well_calibrated_3 a b c (sc : list (string * float)) m :
  c = 5000 -> c < b /\ b < a /\ a < 10000 ->
  (forall f, (f < m)%nat ->
     exists v, lookup_str (f_kw f) sc = Some v /\ (0 <? v)%float = true) ->
  length sc = m ->
  well_calibrated 3 m {| Phi := [(1, a); (2, b); (3, c)]; scale := sc |}.
Proof.
  intros Hc Hl Hs Hm.
  destruct (levels3 a b c Hc Hl) as (T1 & T2 & T3 & T4).
  unfold well_calibrated. cbn [Phi scale]. tauto.
Qed.

Lemma well_calibrated_4 a b c d (sc : list (string * float)) m :
  d = 5000 -> d < c /\ c < b /\ b < a /\ a < 10000 ->
  (forall f, (f < m)%nat ->
     exists v, lookup_str (f_kw f) sc = Some v /\ (0 <? v)%float = true) ->
  length sc = m ->
  well_calibrated 4 m {| Phi := [(1, a); (2, b); (3, c); (4, d)]; scale := sc |}.
Proof.
  intros Hd Hl Hs Hm.
  destruct (levels4 a b c d Hd Hl) as (T1 & T2 & T3 & T4).
  unfold well_calibrated. cbn [Phi scale]. tauto.
Qed.

Ltac table_entry :=
  cbn [Phi scale length Z.of_nat Pos.of_succ_nat Pos.succ];
  first [apply well_calibrated_3 | apply well_calibrated_4];
  [reflexivity | lia | first [apply scales2 | apply scales3]; reflexivity | reflexivity].

(** The entry of a calibrated function, in every class of the suite. *)
Lemma suite_entry fn a (P : _MF_Base) :
  In P (suite fn a) -> In fn calibrated ->
  exists entry,
    lookup_str (__name__ fn) (mf_def P) = Some entry /\
    well_calibrated (Z.of_nat (length (Phi entry))) (length (scale entry)) entry /\
    (3 <= length (Phi entry) <= 4)%nat /\
    (DTLZ_problems.n_obj a = 3 -> length (scale entry) = Z.to_nat (n_obj P)).
Proof.
  intros HP Hfn. unfold suite in HP. unfold calibrated in Hfn.
  destruct HP as [<-|[<-|[<-|[<-|[<-|[<-|[<-|[<-|[]]]]]]]]];
    destruct Hfn as [<-|[<-|[<-|[<-|[<-|[<-|[<-|[]]]]]]]];
    (eexists; split; [reflexivity|]);
    (split; [table_entry|]);
    (split; [cbn; lia|]);
    cbn; intros; lia || (rewrite ?H; reflexivity).
Qed.


(** No class of the suite has an entry for the other three functions. *)
Lemma suite_no_entry fn a (P : _MF_Base) :
  In P (suite fn a) -> ~ In fn calibrated ->
  lookup_str (__name__ fn) (mf_def P) = None.
Proof.
  intros HP Hfn. unfold suite in HP. unfold calibrated in Hfn.
  destruct HP as [<-|[<-|[<-|[<-|[<-|[<-|[<-|[<-|[]]]]]]]]];
    destruct fn; try reflexivity; exfalso; apply Hfn; cbn; tauto.
Qed.

(** The dictionaries [mf_def] of the suite have an entry exactly for
    the seven calibrated error functions; each entry lists the levels
    [1], ..., [L] for [L] of 3 or 4, with fidelity parameters that
    decrease with the level down to 5000, and a positive scale for each
    objective. *)
Theorem suite_calibration fn a (P : _MF_Base) :
  In P (suite fn a) ->
  (In fn calibrated ->
   exists c,
     lookup_str (__name__ fn) (mf_def P) = Some c /\
     well_calibrated (Z.of_nat (length (Phi c))) (length (scale c)) c /\
     (3 <= length (Phi c) <= 4)%nat /\
     (DTLZ_problems.n_obj a = 3 -> length (scale c) = Z.to_nat (n_obj P))) /\
  (~ In fn calibrated -> lookup_str (__name__ fn) (mf_def P) = None).
Proof.
  intros HP. split.
  - intros Hfn. exact (suite_entry fn a P HP Hfn).
  - intros Hfn. exact (suite_no_entry fn a P HP Hfn).
Qed.

(** What the evaluators of the suite return on a batch of the declared
    width, with the default keyword arguments. *)
Lemma suite_evaluates fn (P : _MF_Base) x :
  In P (suite fn DTLZ_problems.default_params) ->
  shape1 x = n_var P ->
  exists F0, _evaluate_obj P x = ok F0 /\ shape0 F0 = shape0 x /\
             shape1 F0 = Z.to_nat (n_obj P).
Proof.
  intros HP Hx. unfold suite in HP.
  destruct (RE_evaluators_rowwise_aux x) as (E1 & E2 & E3).
  assert (Hn : 1 <= DTLZ_problems.n_obj DTLZ_problems.default_params) by (cbn; lia).
  assert (Hev : forall (Q : _BaseProblem) m (row : list float -> list float),
             evaluate Q x = ok {| F := mk_ndarray m (map row (rows x)) |} ->
             m = Z.to_nat (n_obj Q) ->
             exists F0, _evaluate_obj Q x = ok F0 /\ shape0 F0 = shape0 x /\
                        shape1 F0 = Z.to_nat (n_obj Q)).
  { intros Q m row E Hm. unfold evaluate in E.
    destruct (_evaluate_obj Q x) as [e|F0]; [discriminate|].
    cbn in E. injection E as ->. eexists; split; [reflexivity|].
    split; [unfold shape0; cbn; now rewrite length_map|exact Hm]. }
  remember (shape1 x) as w eqn:Hw.
  destruct HP as [<-|[<-|[<-|[<-|[<-|[<-|[<-|[<-|[]]]]]]]]];
    vm_compute in Hx; rewrite Hx in *; clear Hx.
  - apply (Hev _ _ _ (E1 ltac:(lia))). reflexivity.
  - apply (Hev _ _ _ (E1 ltac:(lia))). reflexivity.
  - apply (Hev _ _ _ (E1 ltac:(lia))). reflexivity.
  - apply (Hev _ _ _ (E1 ltac:(lia))). reflexivity.
  - apply (Hev _ _ _ (E3 ltac:(lia))). reflexivity.
  - apply (Hev _ _ _ (E2 ltac:(lia))). reflexivity.
  - destruct (DTLZ2_rows_aux DTLZ_problems.default_params x Hn) as [D _];
      [rewrite <- Hw; cbn; lia|].
    cbv zeta in D. eexists. split; [exact D|].
    split; [unfold shape0; cbn; now rewrite length_map|reflexivity].
  - destruct (DTLZ2_rows_aux DTLZ_problems.default_params x Hn) as [_ D];
      [rewrite <- Hw; cbn; lia|].
    cbv zeta in D. eexists. split; [exact D|].
    split; [unfold shape0; cbn; now rewrite length_map|reflexivity].
Qed.

Lemma suite_width fn (P : _MF_Base) :
  In P (suite fn DTLZ_problems.default_params) ->
  0 < Z.of_nat (n_var P) < 10000 /\ err_fn P = fn.
Proof.
  intros HP. unfold suite in HP.
  destruct HP as [<-|[<-|[<-|[<-|[<-|[<-|[<-|[<-|[]]]]]]]]]; vm_compute; repeat split.
Qed.

Lemma suite_served fn (P : _MF_Base) x kwargs f :
  In P (suite fn DTLZ_problems.default_params) -> In fn calibrated ->
  shape1 x = n_var P ->
  (forall level, lookup_str (Phi_kw f) kwargs = Some level -> level <= 3) ->
  (f < Z.to_nat (n_obj P))%nat ->
  served P (normalized P x) kwargs f.
Proof.
  intros HP Hfn Hx Hreq Hf. unfold served.
  destruct (lookup_str (Phi_kw f) kwargs) as [level|] eqn:Hk; [|exact I].
  specialize (Hreq level eq_refl).
  destruct (Z_le_gt_dec level 0) as [Hl|Hl]; [now left|right].
  destruct (suite_entry fn _ P HP Hfn) as (c & Hc & W & HL & Hm).
  destruct (suite_width fn P HP) as (Hv & Herr).
  destruct W as (T1 & T2 & T3 & T4 & T5 & T6).
  destruct (lookup_int level (Phi c)) as [phi|] eqn:Hphi.
  2:{ exfalso. apply (proj2 (T1 level)); [lia|exact Hphi]. }
  destruct (T5 f) as (sc & Hsc & _); [rewrite (Hm eq_refl); exact Hf|].
  exists c, sc, phi. rewrite Herr. repeat split; try assumption.
  intros g. apply (call2_returns fn _ phi (float_of_Z phi)).
  - intros ->. unfold calibrated in Hfn. cbn in Hfn.
    repeat (destruct Hfn as [Hfn|Hfn]; [discriminate|]). exact Hfn.
  - apply float_of_int_word. specialize (T3 level phi Hphi). lia.
  - intros _. rewrite (proj2 (normalized_shape P x)), Hx.
    unfold py_div_int.
    destruct (Z.eqb_spec (Z.of_nat (n_var P)) 0) as [E|_]; [lia|].
    rewrite float_of_int_word by lia. eexists; reflexivity.
Qed.

(** Every class of the suite, built with a calibrated error function
    and the default keyword arguments, answers every request for the
    levels up to 3 on a batch of the declared width. *)
Theorem suite_evaluate_MF_returns fn (P : _MF_Base) x kwargs g :
  In P (suite fn DTLZ_problems.default_params) -> In fn calibrated ->
  shape1 x = n_var P ->
  (forall f level, lookup_str (Phi_kw f) kwargs = Some level -> level <= 3) ->
  exists r g', evaluate_MF P x kwargs g = ok (r, g').
Proof.
  intros HP Hfn Hx Hreq.
  destruct (suite_evaluates fn P x HP Hx) as (F0 & HF & Hrows & Hcols).
  unfold evaluate_MF. cbv zeta.
  rewrite (mbind_step _ _ g {| F := F0 |} g)
    by (unfold lift, evaluate; now rewrite HF).
  rewrite (mbind_step _ _ g (normalized P x) g)
    by (unfold lift; now rewrite (scale_batch_spec _ _ Hx)).
  cbn [F]. rewrite <- Hrows.
  destruct (MF_loop_returns P (normalized P x) kwargs (range (n_obj P)) F0 g)
    as (FM & g' & Hloop).
  - rewrite (proj1 (normalized_shape P x)). congruence.
  - intros f Hf. unfold range in Hf. apply in_seq in Hf. split; [lia|].
    apply (suite_served fn); try assumption; [apply Hreq|lia].
  - rewrite (mbind_step _ _ _ _ _ Hloop). eexists; eexists; reflexivity.
Qed.

(** With [e_r4], [e_ins1] or [e_ins2], which no class of the suite is
    calibrated for, every request that asks an objective at a low
    fidelity raises the [KeyError] of the function's name. *)
Theorem suite_uncalibrated_functions_raise fn (P : _MF_Base) x kwargs g :
  In P (suite fn DTLZ_problems.default_params) -> ~ In fn calibrated ->
  shape1 x = n_var P ->
  low_objectives P kwargs <> [] ->
  evaluate_MF P x kwargs g = inl (KeyError (KStr (__name__ fn))).
Proof.
  intros HP Hfn Hx Hlow.
  destruct (suite_evaluates fn P x HP Hx) as (F0 & HF & Hrows & Hcols).
  destruct (suite_width fn P HP) as (_ & Herr).
  pose proof (suite_no_entry fn _ P HP Hfn) as Hnone. rewrite <- Herr in *.
  unfold evaluate_MF. cbv zeta.
  rewrite (mbind_step _ _ g {| F := F0 |} g)
    by (unfold lift, evaluate; now rewrite HF).
  rewrite (mbind_step _ _ g (normalized P x) g)
    by (unfold lift; now rewrite (scale_batch_spec _ _ Hx)).
  apply mbind_raise. cbn [F]. rewrite <- Hrows.
  apply MF_loop_uncalibrated; try assumption.
  - rewrite (proj1 (normalized_shape P x)). congruence.
  - intros f Hf. unfold range in Hf. apply in_seq in Hf. lia.
Qed.

End Calibration.

(** ** The exceptions of the error functions *)

Section Raises.
Context {host : Host}.

Lemma float_of_int_raises z e : float_of_int z = inl e -> e = OverflowError.
Proof.
  unfold float_of_int. cbv zeta. destruct (is_infinity _); [|discriminate].
  now intros [= <-].
Qed.

Lemma py_div_int_raises a d e :
  py_div_int a d = inl e ->
  (e = ZeroDivisionError /\ d = 0) \/
  (e = OverflowError /\ float_of_int d = raise OverflowError).
Proof.
  unfold py_div_int. destruct (Z.eqb_spec d 0) as [->|Hd].
  - intros [= <-]. now left.
  - destruct (float_of_int d) as [e'|df] eqn:E; [|discriminate].
    cbn. intros [= <-]. right. pose proof (float_of_int_raises _ _ E) as ->.
    split; reflexivity.
Qed.

Ltac conv phi H :=
  let E := fresh "E" in
  let c := fresh "c" in
  remember (float_of_int phi) as c eqn:E in H; symmetry in E;
  destruct c as [?e|?pf];
  [ pose proof (float_of_int_raises _ _ E); subst | ].

(** The exceptions of a call [fn(x, phi)]: the [TypeError] of [e_r4],
    the [OverflowError] of a fidelity parameter too large for a float,
    and, for [e_s3] alone, the [ZeroDivisionError] of a batch without
    columns (or the [OverflowError] of a column count too large for a
    float). *)
Theorem call2_raises fn x phi g e :
  call2 fn x phi g = inl e ->
  (fn = Fn_e_r4 /\ e = TypeError "e_r4" "x_b") \/
  (fn <> Fn_e_r4 /\ e = OverflowError /\ float_of_int phi = raise OverflowError) \/
  (fn = Fn_e_s3 /\ e = ZeroDivisionError /\ shape1 x = 0%nat) \/
  (fn = Fn_e_s3 /\ e = OverflowError /\
   float_of_int (Z.of_nat (shape1 x)) = raise OverflowError).
Proof.
  intros H.
  assert (Hov : fn <> Fn_e_r4 -> e = OverflowError ->
                float_of_int phi = raise OverflowError ->
                (fn = Fn_e_r4 /\ e = TypeError "e_r4" "x_b") \/
                (fn <> Fn_e_r4 /\ e = OverflowError /\
                 float_of_int phi = raise OverflowError) \/
                (fn = Fn_e_s3 /\ e = ZeroDivisionError /\ shape1 x = 0%nat) \/
                (fn = Fn_e_s3 /\ e = OverflowError /\
                 float_of_int (Z.of_nat (shape1 x)) = raise OverflowError))
    by (intros; right; left; repeat split; assumption).
  destruct fn; cbn [call2] in H;
    unfold e_r1, e_r2, e_r3, e_s1, e_s2, e_s3, e_s4, e_ins1, e_ins2,
           uniform_noise, mbind, lift, rand, mret in H; cbv zeta in H.
  - conv phi H; cbn in H; [injection H as <-; apply Hov; [discriminate|reflexivity|assumption]|discriminate].
  - conv phi H; cbn in H; [injection H as <-; apply Hov; [discriminate|reflexivity|assumption]|discriminate].
  - repeat (destruct (_ <? _)%Z; [try discriminate|]); try discriminate;
      (conv phi H; cbn in H; [injection H as <-; apply Hov; [discriminate|reflexivity|assumption]|discriminate]).
  - cbn in H. injection H as <-. left. split; reflexivity.
  - conv phi H; cbn in H; [injection H as <-; apply Hov; [discriminate|reflexivity|assumption]|].
    destruct (random_rand (shape0 x) g); discriminate.
  - conv phi H; cbn in H; [injection H as <-; apply Hov; [discriminate|reflexivity|assumption]|].
    destruct (random_rand (shape0 x) g); discriminate.
  - conv phi H; cbn in H; [injection H as <-; apply Hov; [discriminate|reflexivity|assumption]|].
    destruct (py_div_int _ _) as [e'|q] eqn:Q.
    + cbn in H. injection H as <-.
      destruct (py_div_int_raises _ _ _ Q) as [[-> Hd]|[-> Hd]].
      * right; right; left. repeat split. lia.
      * right; right; right. repeat split. exact Hd.
    + cbn in H. destruct (random_rand (shape0 x) g); discriminate.
  - conv phi H; cbn in H; [injection H as <-; apply Hov; [discriminate|reflexivity|assumption]|].
    destruct (random_rand (shape0 x) g); discriminate.
  - destruct (random_rand (shape0 x) g).
    conv phi H; cbn in H; [injection H as <-; apply Hov; [discriminate|reflexivity|assumption]|discriminate].
  - destruct (random_rand (shape0 x) g).
    conv phi H; cbn in H; [injection H as <-; apply Hov; [discriminate|reflexivity|assumption]|discriminate].
Qed.

End Raises.

(** ** The normalised batch *)

Section UnitBox.
Context {host : Host}.

Lemma scale_entry_within x lo hi :
  proper_bounds (lo, hi) -> within x (lo, hi) -> in_unit_box (scale_entry x lo hi).
Proof.
  intros [Hlt Hf] [Hl Hu]. cbn [fst snd] in *.
  pose proof (width_nonzero lo hi Hlt Hf) as Hz.
  destruct (finite_double_sub hi lo Hf) as [Fh Fl].
  rewrite leb_spec in Hl, Hu.
  pose proof (between_finite _ _ _ Fl Fh Hl Hu) as Fx.
  destruct (SFsub_order _ _ _ (Prim2SF_valid x) (Prim2SF_valid lo) (Prim2SF_valid hi)
              Fx Fl Fh Hl Hu) as [O1 O2].
  apply scale_entry_range; try assumption.
  - rewrite leb_spec, sub_spec. exact O1.
  - rewrite leb_spec, !sub_spec. exact O2.
Qed.

Lemma scale_row_within (r : list float) (bs : list (float * float)) :
  Forall proper_bounds bs -> Forall2 within r bs ->
  Forall in_unit_box (zip_with (fun v b => scale_entry v (fst b) (snd b)) r bs).
Proof.
  intros Hb Hr. induction Hr as [|v [lo hi] r bs Hv Hr IH]; cbn [zip_with].
  - constructor.
  - inversion Hb as [|? ? Hb1 Hb2]; subst. constructor.
    + cbn [fst snd]. now apply scale_entry_within.
    + now apply IH.
Qed.

(** The normalisation step of [evaluate_MF], on a whole batch: when
    every declared bound pair is proper and every entry lies between
    the bounds of its variable, the batch handed to the error functions
    has the rows of the input and every entry in [[-1, 1]]. *)
Theorem scale_batch_in_unit_box (P : _BaseProblem) (x : ndarray) :
  Forall proper_bounds (map snd (_vars P)) ->
  shape1 x = n_var P ->
  Forall (fun r => Forall2 within r (map snd (_vars P))) (rows x) ->
  exists xs, scale_batch P x = ok xs /\
             shape0 xs = shape0 x /\ shape1 xs = shape1 x /\
             Forall (Forall in_unit_box) (rows xs).
Proof.
  intros Hb Hx Hr. exists (normalized P x).
  split; [now apply scale_batch_spec|].
  destruct (normalized_shape P x) as [S0 S1].
  split; [exact S0|]. split; [exact S1|].
  unfold normalized. cbn [rows]. apply Forall_map.
  revert Hr. apply Forall_impl. intros r Hrow.
  now apply scale_row_within.
Qed.

End UnitBox.

Lemma scale_batch_in_unit_box_sample :
  exists xs, scale_batch RE_problems.RE2_4_1.class Sample.bars = ok xs /\
             shape0 xs = shape0 Sample.bars /\ shape1 xs = shape1 Sample.bars /\
             Forall (Forall in_unit_box) (rows xs).
Proof.
  apply (scale_batch_in_unit_box RE_problems.RE2_4_1.class Sample.bars).
  - repeat constructor.
  - reflexivity.
  - repeat constructor.
Defined.

(** ** The range of the stochastic noise *)

Section StochasticNoise.
Context {host : Host}.

Lemma uniform_noise_values n sigma g e g' :
  uniform_noise n sigma 0 g = ok (e, g') ->
  e = map (fun ri => ri * sigma + 0)%float (fst (random_rand n g)).
Proof.
  unfold uniform_noise. intros H. step_ok H.
  apply mret_ok in H as [-> _]. unfold rand, ok in Hstep.
  injection Hstep as E. now rewrite E.
Qed.

Lemma scaled_draws_within (sigma : float) (r : list float) :
  (0 <=? sigma)%float = true -> is_finite sigma = true ->
  Forall unit_draw r ->
  Forall (fun v => within v (0%float, sigma)) (map (fun ri => ri * sigma + 0)%float r).
Proof.
  intros Hs Fs Hr. apply Forall_map. revert Hr. apply Forall_impl.
  intros ri [H0 H1]. cbn [fst snd] in *. unfold within. cbn [fst snd].
  now apply scaled_draw_bounds.
Qed.

(** The noise of [e_s1] and [e_s2], whose mean [mu] is [0]: when the
    amplitude [sigma] they compute is a nonnegative finite float, every
    value lies between [0] and [sigma]. *)
Theorem stochastic_noise_within_sigma fn x phi pf g e g' :
  fn = Fn_e_s1 \/ fn = Fn_e_s2 ->
  call2 fn x phi g = ok (e, g') ->
  float_of_int phi = ok pf ->
  (0 <=? sigma_of fn pf)%float = true -> is_finite (sigma_of fn pf) = true ->
  Forall unit_draw (fst (random_rand (shape0 x) g)) ->
  Forall (fun v => within v (0%float, sigma_of fn pf)) e.
Proof.
  intros Hfn H Hp Hs Fs Hr.
  assert (E : e = map (fun ri => ri * sigma_of fn pf + 0)%float
                    (fst (random_rand (shape0 x) g))).
  { destruct Hfn as [-> | ->]; cbn [call2 sigma_of] in *.
    - unfold e_s1 in H. cbv zeta in H. step_ok H.
      apply lift_ok in Hstep as [Hq ->]. rewrite Hp in Hq. injection Hq as <-.
      now apply uniform_noise_values in H.
    - unfold e_s2 in H. cbv zeta in H. step_ok H.
      apply lift_ok in Hstep as [Hq ->]. rewrite Hp in Hq. injection Hq as <-.
      now apply uniform_noise_values in H. }
  rewrite E. now apply scaled_draws_within.
Qed.

Lemma sigma_linear_bounds phi :
  0 <= phi <= 10000 ->
  within (sigma_of Fn_e_s1 (float_of_Z phi)) (0, 0.1)%float.
Proof.
  intros Hp. cbn [sigma_of].
  pose proof (float_of_Z_mono 0 phi ltac:(lia) ltac:(lia) ltac:(lia)) as P0.
  pose proof (float_of_Z_mono phi 10000 ltac:(lia) ltac:(lia) ltac:(lia)) as P1.
  change (float_of_Z 0) with 0%float in P0.
  change (float_of_Z 10000) with 10000%float in P1.
  destruct (float_mul_mono 0.0001 (float_of_Z phi) 10000 eq_refl eq_refl eq_refl P0 P1)
    as [T0 T1].
  change (0.0001 * 10000)%float with 1%float in T1.
  destruct (float_sub_antitone 1 0 (0.0001 * float_of_Z phi) eq_refl eq_refl T0 T1)
    as [N0 N1].
  change (1 - 0)%float with 1%float in N1.
  destruct (float_mul_mono 0.1 (1 - 0.0001 * float_of_Z phi) 1 eq_refl eq_refl eq_refl N0 N1)
    as [S0 S1].
  change (0.1 * 1)%float with 0.1%float in S1.
  split; assumption.
Qed.

Lemma within_zero (v : float) : within v (0, 0)%float -> (v =? 0)%float = true.
Proof.
  intros [H0 H1]. cbn [fst snd] in *.
  rewrite leb_spec in H0, H1. rewrite FloatAxioms.eqb_spec.
  replace (Prim2SF 0) with (S754_zero false) in * by reflexivity.
  destruct (Prim2SF v) as [s|s| |s m e]; try reflexivity; try discriminate H0;
    destruct s; try discriminate H0; discriminate H1.
Qed.

Lemma within_weaken (v lo hi hi' : float) :
  is_finite lo = true -> is_finite hi = true -> is_finite hi' = true ->
  (hi <=? hi')%float = true ->
  within v (lo, hi) -> within v (lo, hi').
Proof.
  intros Fl Fh Fh' Hh [H0 H1]. cbn [fst snd] in *. split; cbn [fst snd]; [exact H0|].
  apply (float_leb_trans v hi hi'); try assumption.
  exact (float_between_finite lo hi v Fl Fh H0 H1).
Qed.

(** The stochastic error [e_s1] on the documented range of the fidelity
    parameter, [0 <= phi <= 10000]: the call returns a noise value
    between [0] and [0.1] for each row, and at full fidelity,
    [phi = 10000], every value is zero. *)
Theorem e_s1_noise_bounds x phi g :
  0 <= phi <= 10000 ->
  Forall unit_draw (fst (random_rand (shape0 x) g)) ->
  exists e g',
    e_s1 x phi g = ok (e, g') /\ length e = shape0 x /\
    Forall (fun v => within v (0, 0.1)%float) e /\
    (phi = 10000 -> Forall (fun v => (v =? 0)%float = true) e).
Proof.
  intros Hp Hr.
  pose proof (float_of_int_word phi ltac:(lia)) as Hc.
  pose proof (sigma_linear_bounds phi Hp) as [S0 S1]. cbn [fst snd] in S0, S1.
  pose proof (float_between_finite 0 0.1 _ eq_refl eq_refl S0 S1) as Fs.
  exists (map (fun ri => ri * sigma_of Fn_e_s1 (float_of_Z phi) + 0)%float
            (fst (random_rand (shape0 x) g))),
         (snd (random_rand (shape0 x) g)).
  pose proof (scaled_draws_within _ _ S0 Fs Hr) as W.
  split; [|split; [|split]].
  - unfold e_s1, uniform_noise, mbind, lift, rand, mret. cbv zeta.
    rewrite Hc. cbn [rbind ok sigma_of].
    destruct (random_rand (shape0 x) g) as [r g1]. reflexivity.
  - rewrite length_map. clear. generalize (shape0 x) as n. intros n. revert g.
    induction n as [|n IH]; intros g; cbn [random_rand]; [reflexivity|].
    destruct (rand1 g) as [r g1]. specialize (IH g1).
    destruct (random_rand n g1) as [rs g2]. cbn [fst length] in *. now rewrite IH.
  - revert W. apply Forall_impl. intros v Hv.
    apply (within_weaken v 0 (sigma_of Fn_e_s1 (float_of_Z phi)) 0.1); auto.
  - intros ->. revert W. apply Forall_impl. intros v Hv. apply within_zero.
    exact Hv.
Qed.

End StochasticNoise.

Lemma sample_draws_in_unit_interval :
  Forall unit_draw (fst (@random_rand SeriesHost.host (shape0 Sample.bars) Sample.seed)).
Proof. repeat constructor. Qed.

Lemma stochastic_noise_within_sigma_sample :
  Forall (fun v => within v (0%float, @sigma_of SeriesHost.host Fn_e_s2 5891))
         (fst SampleNoise.s2_run).
Proof.
  apply (@stochastic_noise_within_sigma SeriesHost.host Fn_e_s2 Sample.bars 5891 5891
           Sample.seed (fst SampleNoise.s2_run) (snd SampleNoise.s2_run)).
  - right. reflexivity.
  - vm_compute. reflexivity.
  - reflexivity.
  - vm_compute. reflexivity.
  - vm_compute. reflexivity.
  - exact sample_draws_in_unit_interval.
Defined.

Lemma e_s1_noise_bounds_sample :
  exists e g',
    @e_s1 SeriesHost.host Sample.bars 8697 Sample.seed = ok (e, g') /\
    length e = shape0 Sample.bars /\
    Forall (fun v => within v (0, 0.1)%float) e /\
    (8697 = 10000 -> Forall (fun v => (v =? 0)%float = true) e).
Proof.
  apply (@e_s1_noise_bounds SeriesHost.host Sample.bars 8697 Sample.seed).
  - lia.
  - exact sample_draws_in_unit_interval.
Defined.

(** ** The amplitude of the resolution errors *)

Section Amplitude.
Context {host : Host}.





End Amplitude.


(** ** Where the instability error spikes *)

Section Spikes.
Context {host : Host}.




End Spikes.


(** ** Sample runs of the suite *)

#[local] Open Scope string_scope.
#[local] Existing Instance SeriesHost.host.

Lemma lookup_str_bound (k : string) (kwargs : list (string * Z)) b level :
  Forall (fun kv => snd kv <= b) kwargs ->
  lookup_str k kwargs = Some level -> level <= b.
Proof.
  induction 1 as [|[k' v] l Hv Hl IH]; cbn [lookup_str]; [discriminate|].
  destruct (String.eqb k k'); [intros [= <-]; exact Hv|exact IH].
Qed.

Lemma RE_evaluators_are_rowwise_sample :
  evaluate RE_problems.RE2_4_1.class Sample.bars_wide
  = ok {| F := mk_ndarray 2 (map RE2_4_1_row (rows Sample.bars_wide)) |}.
Proof.
  apply (@RE_evaluators_are_rowwise SeriesHost.host Sample.bars_wide
           RE_problems.RE2_4_1.class RE2_4_1_row).
  - left. reflexivity.
  - cbn. lia.
Defined.

Lemma evaluate_shape_sample :
  well_shaped (F {| F := Sample.bars_hf |}) /\
  shape0 (F {| F := Sample.bars_hf |}) = shape0 Sample.bars /\
  shape1 (F {| F := Sample.bars_hf |}) = Z.to_nat (n_obj RE_problems.RE2_4_1.class).
Proof.
  apply (@evaluate_shape SeriesHost.host DTLZ_problems.default_params RE_problems.RE2_4_1.class
           Sample.bars {| F := Sample.bars_hf |}).
  - cbn. lia.
  - left. reflexivity.
  - vm_compute. reflexivity.
Defined.

Lemma evaluate_MF_keeps_shape_sample :
  exists F0,
    evaluate Sample.truss_s1 Sample.bars = ok {| F := F0 |} /\
    shape0 (F Sample.stochastic_low) = shape0 F0 /\
    shape1 (F Sample.stochastic_low) = shape1 F0 /\
    (well_shaped F0 -> well_shaped (F Sample.stochastic_low)) /\
    forall j, (Z.to_nat (n_obj Sample.truss_s1) <= j)%nat ->
              column (F Sample.stochastic_low) j = column F0 j.
Proof.
  apply (@evaluate_MF_keeps_shape SeriesHost.host Sample.truss_s1 Sample.bars Sample.both_low
           Sample.seed Sample.stochastic_low Sample.stochastic_low_generator).
  vm_compute. reflexivity.
Defined.

Lemma suite_calibration_sample :
  (In Fn_e_s2 calibrated ->
   exists c,
     lookup_str (__name__ Fn_e_s2)
       (mf_def (MOMF_problems.MOMF3_7_1 Fn_e_s2 DTLZ_problems.default_params)) = Some c /\
     well_calibrated (Z.of_nat (length (Phi c))) (length (scale c)) c /\
     (3 <= length (Phi c) <= 4)%nat /\
     (DTLZ_problems.n_obj DTLZ_problems.default_params = 3 ->
      length (scale c)
      = Z.to_nat (n_obj (MOMF_problems.MOMF3_7_1 Fn_e_s2 DTLZ_problems.default_params)))) /\
  (~ In Fn_e_s2 calibrated ->
   lookup_str (__name__ Fn_e_s2)
     (mf_def (MOMF_problems.MOMF3_7_1 Fn_e_s2 DTLZ_problems.default_params)) = None).
Proof.
  apply (@suite_calibration SeriesHost.host Fn_e_s2 DTLZ_problems.default_params
           (MOMF_problems.MOMF3_7_1 Fn_e_s2 DTLZ_problems.default_params)).
  do 6 right. left. reflexivity.
Defined.

Lemma suite_evaluate_MF_returns_sample :
  exists r g',
    evaluate_MF (MOMF_problems.MOMF3_7_2 Fn_e_s3 DTLZ_problems.default_params)
      Sample.points [("Phi_f1", 3); ("Phi_f3", 1)] Sample.seed = ok (r, g').
Proof.
  apply (@suite_evaluate_MF_returns SeriesHost.host Fn_e_s3
           (MOMF_problems.MOMF3_7_2 Fn_e_s3 DTLZ_problems.default_params)
           Sample.points [("Phi_f1", 3); ("Phi_f3", 1)] Sample.seed).
  - do 7 right. left. reflexivity.
  - do 5 right. left. reflexivity.
  - reflexivity.
  - intros f level. apply lookup_str_bound. repeat constructor; cbn; lia.
Defined.

Lemma call2_raises_sample :
  (Fn_e_s3 = Fn_e_r4 /\ ZeroDivisionError = TypeError "e_r4" "x_b") \/
  (Fn_e_s3 <> Fn_e_r4 /\ ZeroDivisionError = OverflowError /\
   float_of_int 5000 = raise OverflowError) \/
  (Fn_e_s3 = Fn_e_s3 /\ ZeroDivisionError = ZeroDivisionError /\
   shape1 (mk_ndarray 0 [[]; []]) = 0%nat) \/
  (Fn_e_s3 = Fn_e_s3 /\ ZeroDivisionError = OverflowError /\
   float_of_int (Z.of_nat (shape1 (mk_ndarray 0 [[]; []]))) = raise OverflowError).
Proof.
  apply (@call2_raises SeriesHost.host Fn_e_s3 (mk_ndarray 0 [[]; []]) 5000 Sample.seed ZeroDivisionError).
  vm_compute. reflexivity.
Defined.

Lemma suite_uncalibrated_functions_raise_sample :
  evaluate_MF (MOMF_problems.MOMF3_7_1 Fn_e_ins2 DTLZ_problems.default_params)
    Sample.points [("Phi_f2", 1)] Sample.seed
  = inl (KeyError (KStr "e_ins2")).
Proof.
  apply (@suite_uncalibrated_functions_raise SeriesHost.host Fn_e_ins2
           (MOMF_problems.MOMF3_7_1 Fn_e_ins2 DTLZ_problems.default_params)
           Sample.points [("Phi_f2", 1)] Sample.seed).
  - do 6 right. left. reflexivity.
  - intros H. cbn in H. repeat (destruct H as [H|H]; [discriminate|]). exact H.
  - reflexivity.
  - discriminate.
Defined.
